(** * Pixel Surge (endless runner): the run-time game simulation

    Shallow embedding of [endless_runner.py] (variant of 05-13-25) and
    of the parallax scroller of the older variant, with the properties
    of the simulation core.

    Modelling conventions.
    - Python [int] values are [Z].  In the simulation of the whole
      game Python [float] values are exact rationals [Q], compared with
      [Qle_bool]; what is proved of it are facts of order, facts of
      integer state and single steps written as the code writes them,
      which rounding leaves alone.  The methods whose
      properties depend on rounding ([Obstacle.update], the speed
      ratchet, the physics of [Player.update]) are given a second time
      in double precision, every float operation rounded with
      [double], and their properties are proved of that form.
    - [int(x)] and the constructor of a [pygame.Rect] truncate a float
      toward zero ([py_int]); an assignment to [rect.topleft] rounds it
      to the nearest integer ([py_round]).
    - The pygame types used by the simulation are modelled directly:
      [Rect.t] (integer rectangle), [Surface] (size and per-pixel
      opacity) and [Mask] (bit mask with [overlap]).
    - [random] is a finite supply of raw draws kept in the world;
      [randbelow n] consumes one draw and reduces it modulo [n].
    - Sprites are Python objects shared between the global [obstacle]
      and the sprite group: they live in a store [gmap nat Obstacle.t]
      and both hold references into it.
    - The mixer calls and the blits touch no variable of the
      simulation and are left out; [draw_hud] is kept for the heart
      animation index it advances. *)

From Stdlib Require Import ZArith QArith Qround Qabs Qpower Lia Lqa.
From stdpp Require Import base option list gmap.

Local Open Scope Z_scope.

(** ** Python arithmetic on floats and ints *)

Definition Qltb (a b : Q) : bool := negb (Qle_bool b a).

(** [min(a, b)]: the first argument unless the second is smaller. *)
Definition py_min (a b : Q) : Q := if Qltb b a then b else a.

(** [abs(a)] *)
Definition py_abs (a : Q) : Q := if Qltb a 0 then (- a)%Q else a.

(** [int(q)]: truncation toward zero. *)
Definition py_int (q : Q) : Z := Z.quot (Qnum q) (Z.pos (Qden q)).

(** [a % n] for a float [a] and a positive int [n]. *)
Definition py_mod (a : Q) (n : Z) : Q :=
  (a - inject_Z (n * Qfloor (a / inject_Z n)))%Q.

(** The integer nearest to [q], halves away from zero: the conversion
    of a float assigned to a coordinate of a [pygame.Rect]. *)
Definition py_round (q : Q) : Z :=
  if Qle_bool 0 q then Qfloor (q + (1 # 2)) else - Qfloor (- q + (1 # 2)).

(** ** Double precision

    The value a Python [float] operation returns: the exact result
    rounded to the nearest number with 53 significant bits, ties to the
    even one (IEEE 754 binary64; the magnitudes of the game are far
    from overflow and from the subnormal range, which are left out). *)

(** The integer nearest to [t], ties to the even one. *)
Definition rne (t : Q) : Z :=
  let f := Qfloor t in
  match (t - inject_Z f ?= 1 # 2)%Q with
  | Lt => f
  | Eq => if Z.even f then f else f + 1
  | Gt => f + 1
  end.

Definition pow2 (e : Z) : Q := (2 ^ e)%Q.

(** [floor(log2 q)] for a positive [q]. *)
Definition ilog2 (q : Q) : Z :=
  let k := Z.log2 (Qnum q) - Z.log2 (Z.pos (Qden q)) in
  if Qle_bool (pow2 k) q then k else k - 1.

(** The double nearest to a positive [q]. *)
Definition round_pos (q : Q) : Q :=
  let e := ilog2 q - 52 in
  (inject_Z (rne (q / pow2 e)) * pow2 e)%Q.

(** The double nearest to [q], in lowest terms. *)
Definition double (q : Q) : Q :=
  Qred (match (q ?= 0)%Q with
        | Eq => 0
        | Gt => round_pos q
        | Lt => - round_pos (- q)
        end)%Q.

(** ** Constants *)

Definition GAME_WIDTH : Z := 800.
Definition GAME_HEIGHT : Z := 432.
Definition FPS : Z := 60.

Definition PLAYER_START_X : Z := 25.
Definition PLAYER_HEIGHT : Z := 150.
Definition PLAYER_START_HEALTH : Z := 3.
Definition PLAYER_JUMP_VELOCITY : Q := (-4) # 1.
Definition PLAYER_GRAVITY : Q := 2 # 10.
Definition PLAYER_LAND_Y : Z := GAME_HEIGHT - PLAYER_HEIGHT.
Definition PLAYER_ANIMATION_SPEED : Q := 2 # 10.
Definition PLAYER_INVINCIBILITY_DURATION : Z := 60.

Definition OBSTACLE_SCALE_WIDTH : Z := 50.
Definition OBSTACLE_SPAWN_OFFSET_MIN : Z := 0.
Definition OBSTACLE_SPAWN_OFFSET_MAX : Z := 200.

Definition STARTING_SPEED : Q := 5 # 1.
Definition MAX_SPEED : Q := 13 # 1.
Definition SPEED_INCREASE_INTERVAL : Z := 4.
Definition SPEED_INCREASE_AMOUNT : Q := 4 # 10.
Definition HEART_ANIMATION_SPEED : Q := 1 # 10.

Definition PAUSE_MENU_TITLE_PADDING : Z := 20.
Definition BOX_PADDING_Y : Z := 20.
Definition BUTTON_SPACING_Y : Z := 10.

Inductive GameState :=
  | STATE_MAIN_MENU
  | STATE_PLAYING
  | STATE_PAUSED
  | STATE_INSTRUCTIONS
  | STATE_SETTINGS
  | STATE_GAME_OVER.

(** The two values of [Player.action]. *)
Inductive Action := running | jumping.

(** ** The pygame types the simulation uses *)

Module Rect.
Record t := mk { x : Z; y : Z; w : Z; h : Z }.

(** [pygame.Rect(x, y, w, h)] with float arguments. *)
Definition of_floats (fx fy : Q) (w h : Z) : t := mk (py_int fx) (py_int fy) w h.

Definition right (r : t) : Z := x r + w r.

Definition collidepoint (r : t) (p : Z * Z) : bool :=
  (x r <=? p.1) && (p.1 <? x r + w r) && (y r <=? p.2) && (p.2 <? y r + h r).

Definition set_x (r : t) (v : Z) : t := mk v (y r) (w r) (h r).

(** [r.topleft = (fx, fy)] *)
Definition set_topleft (r : t) (fx fy : Q) : t :=
  mk (py_round fx) (py_round fy) (w r) (h r).
End Rect.

(** A loaded image: its size and, per pixel, whether its alpha is above
    the mask threshold. *)
Record Surface := mkSurface {
  get_width : Z;
  get_height : Z;
  opaque : Z → Z → bool
}.

(** [pygame.Surface(size)] filled with a colour: no transparent pixel. *)
Definition filled_surface (w h : Z) : Surface := mkSurface w h (λ _ _, true).

(** [surface.get_rect(topleft=(fx, fy))] *)
Definition get_rect (s : Surface) (fx fy : Q) : Rect.t :=
  Rect.of_floats fx fy (get_width s) (get_height s).

Record Mask := mkMask {
  mask_w : Z;
  mask_h : Z;
  get_at : Z → Z → bool
}.

(** [pygame.mask.from_surface] *)
Definition from_surface (s : Surface) : Mask :=
  mkMask (get_width s) (get_height s) (opaque s).

Definition mask_bit (m : Mask) (i j : Z) : bool :=
  (0 <=? i) && (i <? mask_w m) && (0 <=? j) && (j <? mask_h m) && get_at m i j.

(** [a.overlap(b, (xo, yo))] is not [None]: some set bit [(i, j)] of [a]
    meets the set bit [(i - xo, j - yo)] of [b]. *)
Definition overlap (a b : Mask) (off : Z * Z) : bool :=
  existsb (λ i,
    existsb (λ j, mask_bit a i j && mask_bit b (i - off.1) (j - off.2))
            (seqZ 0 (mask_h a)))
    (seqZ 0 (mask_w a)).

(** ** The random module *)

Definition Rng := list nat.

Definition randbelow (n : nat) (g : Rng) : nat * Rng :=
  match g with
  | [] => (0%nat, [])
  | r :: g' => ((r mod n)%nat, g')
  end.

(** [random.choice(seq)] on a non-empty sequence, [d] standing for the
    element type's default that is never returned. *)
Definition choice {A} (d : A) (l : list A) (g : Rng) : A * Rng :=
  let '(k, g') := randbelow (length l) g in (nth k l d, g').

(** [random.randint(a, b)] *)
Definition randint (a b : Z) (g : Rng) : Z * Rng :=
  let '(k, g') := randbelow (Z.to_nat (b - a + 1)) g in (a + Z.of_nat k, g').

(** ** Assets

    What the loading code obtains from disk.  A frame loader answers
    [None] when [load_scaled_image] raises something else than
    [pygame.error] (which it turns into a placeholder itself). *)
Record Assets := mkAssets {
  load_running : nat → option Surface;
  load_jumping : nat → option Surface;
  loaded_obstacle_images : list Surface;   (* result of [_load_obstacle_images] *)
  background_layers : list Surface;
  heart_sprites : list Surface;
  title_font_height : Z;                   (* the pause menu's 60 pt title font *)
  menu_font_height : Z;
  button_font_height : Z
}.

(** [load_animation_frames(directory, num_frames, target_height)] *)
Definition load_animation_frames (load : nat → option Surface) (num_frames : nat)
  : option (list Surface) :=
  mapM load (seq 0 num_frames).

(** ** Player *)

Module Player.
Record t := mk {
  height : Z;
  x : Z;
  y : Q;
  action : Action;
  health : Z;
  invincibility_frame : Z;
  vel_y : Q;
  running_sprites : list Surface;
  jumping_sprites : list Surface;
  running_sprite_index : Q;
  jumping_sprite_index : Q;
  current_sprite_list : list Surface;
  current_sprite_index : Q;
  image : Surface;
  rect : Rect.t;
  mask : Mask
}.

Definition set_y (p : t) (v : Q) : t :=
  mk (height p) (x p) v (action p) (health p) (invincibility_frame p) (vel_y p)
     (running_sprites p) (jumping_sprites p) (running_sprite_index p)
     (jumping_sprite_index p) (current_sprite_list p) (current_sprite_index p)
     (image p) (rect p) (mask p).
Definition set_action (p : t) (v : Action) : t :=
  mk (height p) (x p) (y p) v (health p) (invincibility_frame p) (vel_y p)
     (running_sprites p) (jumping_sprites p) (running_sprite_index p)
     (jumping_sprite_index p) (current_sprite_list p) (current_sprite_index p)
     (image p) (rect p) (mask p).
Definition set_health (p : t) (v : Z) : t :=
  mk (height p) (x p) (y p) (action p) v (invincibility_frame p) (vel_y p)
     (running_sprites p) (jumping_sprites p) (running_sprite_index p)
     (jumping_sprite_index p) (current_sprite_list p) (current_sprite_index p)
     (image p) (rect p) (mask p).
Definition set_invincibility_frame (p : t) (v : Z) : t :=
  mk (height p) (x p) (y p) (action p) (health p) v (vel_y p)
     (running_sprites p) (jumping_sprites p) (running_sprite_index p)
     (jumping_sprite_index p) (current_sprite_list p) (current_sprite_index p)
     (image p) (rect p) (mask p).
Definition set_vel_y (p : t) (v : Q) : t :=
  mk (height p) (x p) (y p) (action p) (health p) (invincibility_frame p) v
     (running_sprites p) (jumping_sprites p) (running_sprite_index p)
     (jumping_sprite_index p) (current_sprite_list p) (current_sprite_index p)
     (image p) (rect p) (mask p).
Definition set_running_sprite_index (p : t) (v : Q) : t :=
  mk (height p) (x p) (y p) (action p) (health p) (invincibility_frame p) (vel_y p)
     (running_sprites p) (jumping_sprites p) v
     (jumping_sprite_index p) (current_sprite_list p) (current_sprite_index p)
     (image p) (rect p) (mask p).
Definition set_jumping_sprite_index (p : t) (v : Q) : t :=
  mk (height p) (x p) (y p) (action p) (health p) (invincibility_frame p) (vel_y p)
     (running_sprites p) (jumping_sprites p) (running_sprite_index p)
     v (current_sprite_list p) (current_sprite_index p)
     (image p) (rect p) (mask p).
(** [current_sprite_list] and [current_sprite_index] are assigned together. *)
Definition set_current (p : t) (l : list Surface) (i : Q) : t :=
  mk (height p) (x p) (y p) (action p) (health p) (invincibility_frame p) (vel_y p)
     (running_sprites p) (jumping_sprites p) (running_sprite_index p)
     (jumping_sprite_index p) l i
     (image p) (rect p) (mask p).
(** [image], [rect.topleft] and [mask] are assigned together. *)
Definition set_image_rect_mask (p : t) (im : Surface) (r : Rect.t) (m : Mask) : t :=
  mk (height p) (x p) (y p) (action p) (health p) (invincibility_frame p) (vel_y p)
     (running_sprites p) (jumping_sprites p) (running_sprite_index p)
     (jumping_sprite_index p) (current_sprite_list p) (current_sprite_index p)
     im r m.

(** The surface the [except] branch of [__init__] puts in both lists. *)
Definition dummy_surf : Surface := filled_surface 50 PLAYER_HEIGHT.

(** [Player.__init__]: both animations are loaded in one [try]; if
    either load raises, both lists fall back to the dummy surface. *)
Definition sprite_lists (a : Assets) : list Surface * list Surface :=
  match load_animation_frames (load_running a) 8 with
  | Some rs =>
      match load_animation_frames (load_jumping a) 8 with
      | Some js => (rs, js)
      | None => ([dummy_surf], [dummy_surf])
      end
  | None => ([dummy_surf], [dummy_surf])
  end.

Definition init (a : Assets) : t :=
  let '(rs, js) := sprite_lists a in
  let im := hd dummy_surf rs in
  mk PLAYER_HEIGHT PLAYER_START_X (inject_Z PLAYER_LAND_Y) running
     PLAYER_START_HEALTH 0 0
     rs js 0 0 rs 0
     im (get_rect im (inject_Z PLAYER_START_X) (inject_Z PLAYER_LAND_Y))
     (from_surface im).

(** The physics part of [update]: gravity, landing, ground clamp. *)
Definition update_physics (self : t) : t :=
  match action self with
  | jumping =>
      let self := set_y self (y self + vel_y self)%Q in
      let self := set_vel_y self (vel_y self + PLAYER_GRAVITY)%Q in
      if Qle_bool (inject_Z PLAYER_LAND_Y) (y self) then
        set_vel_y (set_action (set_y self (inject_Z PLAYER_LAND_Y)) running) 0
      else self
  | running =>
      if Qltb (y self) (inject_Z PLAYER_LAND_Y)
      then set_y self (inject_Z PLAYER_LAND_Y)
      else self
  end.

(** The animation part of [update]: the sprite list follows the action
    and its index advances modulo the list's length. *)
Definition update_animation (self : t) : t :=
  match action self with
  | running =>
      let i := py_mod (running_sprite_index self + PLAYER_ANIMATION_SPEED)
                      (Z.of_nat (length (running_sprites self))) in
      set_current (set_running_sprite_index self i) (running_sprites self) i
  | jumping =>
      let i := py_mod (jumping_sprite_index self + PLAYER_ANIMATION_SPEED)
                      (Z.of_nat (length (jumping_sprites self))) in
      set_current (set_jumping_sprite_index self i) (jumping_sprites self) i
  end.

(** The clamped frame number [max(0, min(int(i), len - 1))]. *)
Definition frame_index (self : t) : Z :=
  Z.max 0 (Z.min (py_int (current_sprite_index self))
                 (Z.of_nat (length (current_sprite_list self)) - 1)).

Definition update_image (self : t) : t :=
  let im := nth (Z.to_nat (frame_index self)) (current_sprite_list self) (image self) in
  set_image_rect_mask self im
    (Rect.set_topleft (rect self) (inject_Z (x self)) (y self))
    (from_surface im).

Definition update_invincibility (self : t) : t :=
  if 0 <? invincibility_frame self
  then set_invincibility_frame self (invincibility_frame self - 1)
  else self.

Definition is_nil {A} (l : list A) : bool :=
  match l with [] => true | _ => false end.

(** [Player.update(dt)]; [dt] is not used by the body. *)
Definition update (self : t) (dt : Q) : t :=
  if is_nil (running_sprites self) || is_nil (jumping_sprites self) then self
  else update_invincibility (update_image (update_animation (update_physics self))).

(** [Player.jump()] *)
Definition jump (self : t) : t :=
  match action self with
  | running =>
      set_jumping_sprite_index
        (set_vel_y (set_action self jumping) PLAYER_JUMP_VELOCITY) 0
  | jumping => self
  end.

(** [Player.draw(surface)]: the blit it makes, if any.  Nothing is
    drawn without sprites, nor in the dark half of each 10-tick period
    of the invincibility window. *)
Definition draw (self : t) : option (Surface * (Z * Z)) :=
  if is_nil (current_sprite_list self) then None
  else
    let sprite_to_draw :=
      nth (Z.to_nat (frame_index self)) (current_sprite_list self) (image self) in
    let blit := Some (sprite_to_draw, (Rect.x (rect self), Rect.y (rect self))) in
    if 0 <? invincibility_frame self then
      if invincibility_frame self mod 10 <? 5 then blit else None
    else blit.
End Player.

(** ** Obstacle *)

Module Obstacle.
Record t := mk {
  obstacle_images : list Surface;
  image : Surface;
  game_speed : Q;
  x : Q;
  y : Z;
  rect : Rect.t;
  mask : Mask
}.

Definition placeholder : Surface := filled_surface OBSTACLE_SCALE_WIDTH 50.

(** The image list of a new obstacle: the loaded images, or the
    placeholder alone when none was loaded. *)
Definition images_or_placeholder (imgs : list Surface) : list Surface :=
  match imgs with [] => [placeholder] | _ => imgs end.

(** [Obstacle.__init__(game_speed)]: one draw for the variant; the
    obstacle starts at [GAME_WIDTH] exactly. *)
Definition init (a : Assets) (game_speed : Q) (g : Rng) : t * Rng :=
  let imgs := images_or_placeholder (loaded_obstacle_images a) in
  let '(im, g') := choice placeholder imgs g in
  let y := GAME_HEIGHT - get_height im in
  (mk imgs im game_speed (inject_Z GAME_WIDTH) y
      (get_rect im (inject_Z GAME_WIDTH) (inject_Z y))
      (from_surface im), g').

(** [Obstacle.update(dt)] *)
Definition update (self : t) (dt : Q) : t :=
  let x' := (x self - game_speed self * dt * inject_Z FPS)%Q in
  mk (obstacle_images self) (image self) (game_speed self) x' (y self)
     (Rect.set_x (rect self) (py_int x')) (mask self).

(** [Obstacle.reset(game_speed)]: a draw for the variant and a draw
    for the spawn offset.  No handler calls it. *)
Definition reset (self : t) (game_speed : Q) (g : Rng) : t * Rng :=
  let '(im, g1) := choice placeholder (obstacle_images self) g in
  let '(off, g2) := randint OBSTACLE_SPAWN_OFFSET_MIN OBSTACLE_SPAWN_OFFSET_MAX g1 in
  let x' := GAME_WIDTH + off in
  let y' := GAME_HEIGHT - get_height im in
  (mk (obstacle_images self) im game_speed (inject_Z x') y'
      (get_rect im (inject_Z x') (inject_Z y'))
      (from_surface im), g2).
End Obstacle.

(** [pygame.sprite.collide_mask(player, obstacle)] *)
Definition collide_mask (p : Player.t) (o : Obstacle.t) : bool :=
  overlap (Player.mask p) (Obstacle.mask o)
          (Rect.x (Obstacle.rect o) - Rect.x (Player.rect p),
           Rect.y (Obstacle.rect o) - Rect.y (Player.rect p)).


(** ** Sprite groups

    A [pygame.sprite.Group] holds references to sprites, in insertion
    order and without repetition. *)

Definition Group := list nat.

Module Group.
Definition add (g : Group) (r : nat) : Group :=
  if existsb (Nat.eqb r) g then g else g ++ [r].

Definition remove (g : Group) (r : nat) : Group :=
  List.filter (λ r', negb (Nat.eqb r' r)) g.

(** [group.update(dt)]: every member's [update(dt)], on the shared store. *)
Definition update (g : Group) (dt : Q) (store : gmap nat Obstacle.t)
  : gmap nat Obstacle.t :=
  foldl (λ st r, alter (λ o, Obstacle.update o dt) r st) store g.
End Group.

(** [pygame.sprite.spritecollide(player, group, False, collide_mask)] *)
Definition spritecollide (p : Player.t) (g : Group) (store : gmap nat Obstacle.t)
  : list nat :=
  List.filter (λ r, match store !! r with
                    | Some o => collide_mask p o
                    | None => false
                    end) g.

(** ** Input events *)

Inductive Key := K_SPACE | K_ESCAPE | K_OTHER.

Inductive Event :=
  | QUIT
  | KEYDOWN (key : Key)
  | MOUSEBUTTONDOWN (button : Z) (pos : Z * Z)
  | OTHER_EVENT.

(** ** The global variables of the game *)

Record World := mkWorld {
  game_state : GameState;
  score : Z;
  speed : Q;
  parallax_offsets : list Q;
  heart_sprite_index : Q;
  player : option Player.t;
  obstacles_group : option Group;
  obstacle : option nat;
  quit_game : bool;
  sprites : gmap nat Obstacle.t;   (* the obstacle objects, by reference *)
  next_ref : nat;                  (* the reference of the next new object *)
  rng : Rng
}.

Definition set_game_state (w : World) (s : GameState) : World :=
  mkWorld s (score w) (speed w) (parallax_offsets w) (heart_sprite_index w)
          (player w) (obstacles_group w) (obstacle w) (quit_game w)
          (sprites w) (next_ref w) (rng w).
Definition set_quit_game (w : World) (b : bool) : World :=
  mkWorld (game_state w) (score w) (speed w) (parallax_offsets w) (heart_sprite_index w)
          (player w) (obstacles_group w) (obstacle w) b
          (sprites w) (next_ref w) (rng w).
Definition set_player (w : World) (p : Player.t) : World :=
  mkWorld (game_state w) (score w) (speed w) (parallax_offsets w) (heart_sprite_index w)
          (Some p) (obstacles_group w) (obstacle w) (quit_game w)
          (sprites w) (next_ref w) (rng w).
Definition set_score_speed (w : World) (sc : Z) (sp : Q) : World :=
  mkWorld (game_state w) sc sp (parallax_offsets w) (heart_sprite_index w)
          (player w) (obstacles_group w) (obstacle w) (quit_game w)
          (sprites w) (next_ref w) (rng w).
Definition set_parallax_offsets (w : World) (l : list Q) : World :=
  mkWorld (game_state w) (score w) (speed w) l (heart_sprite_index w)
          (player w) (obstacles_group w) (obstacle w) (quit_game w)
          (sprites w) (next_ref w) (rng w).
Definition set_heart_sprite_index (w : World) (i : Q) : World :=
  mkWorld (game_state w) (score w) (speed w) (parallax_offsets w) i
          (player w) (obstacles_group w) (obstacle w) (quit_game w)
          (sprites w) (next_ref w) (rng w).
Definition set_sprites (w : World) (st : gmap nat Obstacle.t) : World :=
  mkWorld (game_state w) (score w) (speed w) (parallax_offsets w) (heart_sprite_index w)
          (player w) (obstacles_group w) (obstacle w) (quit_game w)
          st (next_ref w) (rng w).

(** The state of the program when the main loop is entered. *)
Definition initial_world (g : Rng) : World :=
  mkWorld STATE_MAIN_MENU 0 0 [] 0 None None None false ∅ 0%nat g.

(** [group.remove(old); obstacle = Obstacle(speed); group.add(obstacle)]:
    the replacement of an obstacle by a new object. *)
Definition respawn (a : Assets) (w : World) (g : Group) (old : nat) : World :=
  let g1 := Group.remove g old in
  let '(o, rng') := Obstacle.init a (speed w) (rng w) in
  let r := next_ref w in
  mkWorld (game_state w) (score w) (speed w) (parallax_offsets w) (heart_sprite_index w)
          (player w) (Some (Group.add g1 r)) (Some r) (quit_game w)
          (<[r := o]> (sprites w)) (S r) rng'.

(** [reset_game()] *)
Definition reset_game (a : Assets) (w : World) : World :=
  let p := Player.init a in
  let '(o, rng') := Obstacle.init a STARTING_SPEED (rng w) in
  let r := next_ref w in
  mkWorld (game_state w) 0 STARTING_SPEED
          (replicate (length (background_layers a)) 0%Q) 0
          (Some (Player.set_invincibility_frame p 0))
          (Some (Group.add [] r)) (Some r) (quit_game w)
          (<[r := o]> (sprites w)) (S r) rng'.

(** ** Parallax scroller *)

(** The amount one call scrolls layer [i] by. *)
Definition scroll_amount (i : nat) (current_speed dt : Q) : Q :=
  (inject_Z (Z.of_nat i + 10) * current_speed * 3 * dt)%Q.

(** One layer of [update_parallax] (variant of 05-13-25): the offset
    moves left and one layer width is added back once it is at or
    beyond [-layer_width]. *)
Definition parallax_layer (offsets : list Q) (current_speed dt : Q)
           (i : nat) (layer : Surface) : Q :=
  match offsets !! i with
  | Some off =>
      let layer_width := inject_Z (get_width layer) in
      let new_offset := (off - scroll_amount i current_speed dt)%Q in
      if Qle_bool new_offset (- layer_width)
      then (new_offset + layer_width)%Q
      else new_offset
  | None => 0%Q
  end.

Definition update_parallax (offsets : list Q) (layers : list Surface)
           (current_speed dt : Q) : list Q :=
  imap (parallax_layer offsets current_speed dt) layers.

(** The older variant ([python-endless-runner-main]): the offset is set
    back to 0 once its magnitude exceeds the layer width. *)
Definition parallax_layer_main (offsets : list Q) (current_speed dt : Q)
           (i : nat) (layer : Surface) : Q :=
  match offsets !! i with
  | Some off =>
      let scroll_amount := (inject_Z (Z.of_nat i + 1) * current_speed * (1 # 2) * dt)%Q in
      let new_offset := (off - scroll_amount)%Q in
      if Qltb (inject_Z (get_width layer)) (py_abs new_offset)
      then 0%Q
      else new_offset
  | None => 0%Q
  end.

Definition update_parallax_main (offsets : list Q) (layers : list Surface)
           (current_speed dt : Q) : list Q :=
  imap (parallax_layer_main offsets current_speed dt) layers.

(** ** The playing state *)

(** One event of the input loop of [handle_playing]. *)
Definition playing_event (st : Player.t * GameState) (ev : Event)
  : Player.t * GameState :=
  match ev with
  | KEYDOWN key =>
      (match key with K_SPACE => Player.jump st.1 | _ => st.1 end,
       match key with K_ESCAPE => STATE_PAUSED | _ => st.2 end)
  | _ => st
  end.

(** [player.update(dt); obstacle.update(dt); obstacles_group.update(dt);
    parallax_offsets = update_parallax(...)].  The tracked obstacle is
    a member of the group, so its [update] runs twice. *)
Definition playing_updates (a : Assets) (w : World) (dt : Q) : option World :=
  p ← player w;
  r ← obstacle w;
  g ← obstacles_group w;
  o ← sprites w !! r;
  let st := Group.update g dt (<[r := Obstacle.update o dt]> (sprites w)) in
  Some (set_parallax_offsets
          (set_sprites (set_player w (Player.update p dt)) st)
          (update_parallax (parallax_offsets w) (background_layers a) (speed w) dt)).

(** [score += 1] and the speed ratchet. *)
Definition award (w : World) : World :=
  let sc := score w + 1 in
  let sp := if (sc mod SPEED_INCREASE_INTERVAL =? 0) && Qltb (speed w) MAX_SPEED
            then py_min MAX_SPEED (speed w + SPEED_INCREASE_AMOUNT)%Q
            else speed w in
  set_score_speed w sc sp.

(** Whether the tracked obstacle has left the screen: [obstacle.rect.right < 0]. *)
Definition passed (o : Obstacle.t) : bool := Rect.right (Obstacle.rect o) <? 0.

Definition obstacle_management (a : Assets) (w : World) : option World :=
  r ← obstacle w;
  g ← obstacles_group w;
  o ← sprites w !! r;
  if passed o then Some (respawn a (award w) g r) else Some w.

(** The damage of one collision: [health -= 1] and the invincibility
    window opens. *)
Definition hit (p : Player.t) : Player.t :=
  Player.set_invincibility_frame
    (Player.set_health p (Player.health p - 1)) PLAYER_INVINCIBILITY_DURATION.

Definition collision_detection (a : Assets) (w : World) : option World :=
  p ← player w;
  g ← obstacles_group w;
  if Player.invincibility_frame p <=? 0 then
    match spritecollide p g (sprites w) with
    | collided_obstacle :: _ =>
        let w1 := respawn a (set_player w (hit p)) g collided_obstacle in
        Some (if Player.health (hit p) <=? 0
              then set_game_state w1 STATE_GAME_OVER
              else w1)
    | [] => Some w
    end
  else Some w.

(** The state change of [draw_hud]: the heart animation advances. *)
Definition draw_hud (a : Assets) (w : World) : World :=
  match heart_sprites a with
  | [] => w
  | _ => set_heart_sprite_index w
           (py_mod (heart_sprite_index w + HEART_ANIMATION_SPEED)
                   (Z.of_nat (length (heart_sprites a))))
  end.

(** The input loop of [handle_playing]. *)
Definition playing_input (w : World) (events : list Event) : option World :=
  p ← player w;
  let st := foldl playing_event (p, game_state w) events in
  Some (set_game_state (set_player w st.1) st.2).

(** [handle_playing] up to and including the four update calls. *)
Definition frame_updates (a : Assets) (w : World) (events : list Event) (dt : Q)
  : option World :=
  w0 ← playing_input w events;
  playing_updates a w0 dt.

(** [handle_playing] up to the collision detection. *)
Definition frame_before_collision (a : Assets) (w : World) (events : list Event)
           (dt : Q) : option World :=
  w1 ← frame_updates a w events dt;
  obstacle_management a w1.

(** [handle_playing(events, dt)]; [None] is the [AttributeError] of a
    frame played before any [reset_game()]. *)
Definition handle_playing (a : Assets) (w : World) (events : list Event) (dt : Q)
  : option World :=
  w2 ← frame_before_collision a w events dt;
  w3 ← collision_detection a w2;
  Some (draw_hud a w3).

(** Consecutive playing frames, each with its events and its [dt]. *)
Fixpoint play_frames (a : Assets) (w : World) (fs : list (list Event * Q))
  : option World :=
  match fs with
  | [] => Some w
  | f :: fs' => w' ← handle_playing a w f.1 f.2; play_frames a w' fs'
  end.

(** ** The menus *)

Definition half (z : Z) : Q := (inject_Z z / 2)%Q.

Module MainMenu.
Definition start : Rect.t :=
  Rect.of_floats (half GAME_WIDTH - 100) (half GAME_HEIGHT - 30) 200 50.
Definition how_to_play : Rect.t :=
  Rect.of_floats (half GAME_WIDTH - 100) (half GAME_HEIGHT + 30) 200 50.
Definition settings : Rect.t :=
  Rect.of_floats (half GAME_WIDTH - 100) (half GAME_HEIGHT + 90) 200 50.
Definition quit : Rect.t :=
  Rect.of_floats (half GAME_WIDTH - 100) (half GAME_HEIGHT + 150) 200 50.
End MainMenu.

Definition main_menu_event (a : Assets) (w : World) (ev : Event) : World :=
  match ev with
  | MOUSEBUTTONDOWN 1 mouse_pos =>
      if Rect.collidepoint MainMenu.start mouse_pos
      then set_game_state (reset_game a w) STATE_PLAYING
      else if Rect.collidepoint MainMenu.how_to_play mouse_pos
      then set_game_state w STATE_INSTRUCTIONS
      else if Rect.collidepoint MainMenu.settings mouse_pos
      then set_game_state w STATE_SETTINGS
      else if Rect.collidepoint MainMenu.quit mouse_pos
      then set_quit_game w true
      else w
  | _ => w
  end.

Definition handle_main_menu (a : Assets) (w : World) (events : list Event) : World :=
  foldl (main_menu_event a) w events.

Definition instructions_back : Rect.t :=
  Rect.of_floats (half GAME_WIDTH - 100) (inject_Z GAME_HEIGHT * (75 # 100)) 200 50.

Definition instructions_event (w : World) (ev : Event) : World :=
  match ev with
  | MOUSEBUTTONDOWN 1 pos =>
      if Rect.collidepoint instructions_back pos
      then set_game_state w STATE_MAIN_MENU else w
  | KEYDOWN K_ESCAPE => set_game_state w STATE_MAIN_MENU
  | _ => w
  end.

Definition handle_instructions (w : World) (events : list Event) : World :=
  foldl instructions_event w events.

(** The Back button of the settings screen.  The other buttons of that
    screen only drive the mixer. *)
Definition settings_back : Rect.t :=
  let box_height := (inject_Z GAME_HEIGHT * (6 # 10))%Q in
  let box_y := ((inject_Z GAME_HEIGHT - box_height) / 2)%Q in
  Rect.of_floats (half GAME_WIDTH - 100) (box_y + box_height - 60) 200 50.

Definition settings_event (w : World) (ev : Event) : World :=
  match ev with
  | MOUSEBUTTONDOWN 1 mouse_pos =>
      if Rect.collidepoint settings_back mouse_pos
      then set_game_state w STATE_MAIN_MENU else w
  | KEYDOWN K_ESCAPE => set_game_state w STATE_MAIN_MENU
  | _ => w
  end.

Definition handle_settings (w : World) (events : list Event) : World :=
  foldl settings_event w events.

Inductive PauseButton := Resume | MainMenuButton | QuitButton.

(** The buttons of [draw_pause_menu], in the order of its dictionary. *)
Definition pause_buttons (a : Assets) : list (PauseButton * Rect.t) :=
  let box_y := ((inject_Z GAME_HEIGHT - 300) / 2)%Q in
  let y0 := (box_y + inject_Z (title_font_height a)
             + inject_Z PAUSE_MENU_TITLE_PADDING + inject_Z BOX_PADDING_Y)%Q in
  let step := inject_Z (50 + BUTTON_SPACING_Y) in
  [ (Resume, Rect.of_floats (half GAME_WIDTH - 100) y0 200 50);
    (MainMenuButton, Rect.of_floats (half GAME_WIDTH - 100) (y0 + step) 200 50);
    (QuitButton, Rect.of_floats (half GAME_WIDTH - 100) (y0 + step + step) 200 50) ].

(** The first button under the mouse, as the loop with [break] finds it. *)
Definition first_hit {K} (buttons : list (K * Rect.t)) (pos : Z * Z) : option K :=
  fst <$> List.find (λ kr, Rect.collidepoint kr.2 pos) buttons.

Definition pause_event (a : Assets) (w : World) (ev : Event) : World :=
  match ev with
  | KEYDOWN K_ESCAPE => set_game_state w STATE_PLAYING
  | MOUSEBUTTONDOWN 1 mouse_pos =>
      match first_hit (pause_buttons a) mouse_pos with
      | Some Resume => set_game_state w STATE_PLAYING
      | Some MainMenuButton => set_game_state w STATE_MAIN_MENU
      | Some QuitButton => set_quit_game w true
      | None => w
      end
  | _ => w
  end.

Definition handle_pause (a : Assets) (w : World) (events : list Event) : World :=
  foldl (pause_event a) w events.

Module GameOver.
(** The top of the first button of [draw_game_over_screen]. *)
Definition buttons_y (a : Assets) : Q :=
  let title_height := inject_Z (menu_font_height a) in
  let score_text_height := inject_Z (button_font_height a) in
  let buttons_total_height := inject_Z (2 * 50 + (2 - 1) * BUTTON_SPACING_Y) in
  let content_height :=
    (title_height + score_text_height + buttons_total_height
     + inject_Z (BOX_PADDING_Y * 4))%Q in
  let box_y := ((inject_Z GAME_HEIGHT - content_height) / 2)%Q in
  let title_y := (box_y + inject_Z BOX_PADDING_Y)%Q in
  let score_text_y := (title_y + title_height + inject_Z BOX_PADDING_Y)%Q in
  (score_text_y + score_text_height + inject_Z BOX_PADDING_Y)%Q.

Definition retry (a : Assets) : Rect.t :=
  Rect.of_floats (half GAME_WIDTH - 100) (buttons_y a) 200 50.
Definition menu (a : Assets) : Rect.t :=
  Rect.of_floats (half GAME_WIDTH - 100)
                 (buttons_y a + inject_Z (50 + BUTTON_SPACING_Y)) 200 50.
End GameOver.

Definition game_over_event (a : Assets) (w : World) (ev : Event) : World :=
  match ev with
  | MOUSEBUTTONDOWN 1 mouse_pos =>
      if Rect.collidepoint (GameOver.retry a) mouse_pos
      then set_game_state (reset_game a w) STATE_PLAYING
      else if Rect.collidepoint (GameOver.menu a) mouse_pos
      then set_game_state w STATE_MAIN_MENU
      else w
  | _ => w
  end.

Definition handle_game_over (a : Assets) (w : World) (events : list Event) : World :=
  foldl (game_over_event a) w events.

(** ** The main loop *)

(** What one iteration receives: [clock.tick(FPS)] in milliseconds and
    [pygame.event.get()]. *)
Record Frame := mkFrame { tick : Z; events : list Event }.

Definition is_quit (ev : Event) : bool :=
  match ev with QUIT => true | _ => false end.

(** The body of [while not quit_game]; [dt] is the quotient
    [clock.tick(FPS) / 1000.0], kept in lowest terms. *)
Definition iteration (a : Assets) (w : World) (f : Frame) : option World :=
  let dt := Qred (inject_Z (tick f) / 1000) in
  let w := if existsb is_quit (events f) then set_quit_game w true else w in
  match game_state w with
  | STATE_MAIN_MENU => Some (handle_main_menu a w (events f))
  | STATE_INSTRUCTIONS => Some (handle_instructions w (events f))
  | STATE_SETTINGS => Some (handle_settings w (events f))
  | STATE_PLAYING => handle_playing a w (events f) dt
  | STATE_PAUSED => Some (handle_pause a w (events f))
  | STATE_GAME_OVER => Some (handle_game_over a w (events f))
  end.

(** The main loop over the frames it is given; it stops at [quit_game]. *)
Fixpoint main_loop (a : Assets) (w : World) (fs : list Frame) : option World :=
  match fs with
  | [] => Some w
  | f :: fs' =>
      if quit_game w then Some w
      else w' ← iteration a w f; main_loop a w' fs'
  end.

(** The worlds the program can be in: those the main loop reaches from
    its initial state, for some supply of random draws and some frames. *)
Definition reachable (a : Assets) (w : World) : Prop :=
  ∃ g fs, main_loop a (initial_world g) fs = Some w.

(** What [Player.jump] and [Player.update] can be asked, and the player
    after a sequence of such calls. *)
Inductive PlayerCall := Jump | Update (dt : Q).

Definition player_call (p : Player.t) (c : PlayerCall) : Player.t :=
  match c with
  | Jump => Player.jump p
  | Update dt => Player.update p dt
  end.

Definition player_calls (p : Player.t) (cs : list PlayerCall) : Player.t :=
  foldl player_call p cs.

(** Repeated [update_parallax] calls, each with its speed and its [dt],
    from the offsets [reset_game] installs. *)
Definition parallax_calls (layers : list Surface) (steps : list (Q * Q)) : list Q :=
  foldl (λ offsets s, update_parallax offsets layers s.1 s.2)
        (replicate (length layers) 0%Q) steps.

Definition parallax_calls_main (layers : list Surface) (steps : list (Q * Q)) : list Q :=
  foldl (λ offsets s, update_parallax_main offsets layers s.1 s.2)
        (replicate (length layers) 0%Q) steps.

(** ** Invariants of the simulation *)

(** The ground invariant of the player. *)
Definition grounded (p : Player.t) : Prop :=
  (Player.action p = running → Player.y p = inject_Z PLAYER_LAND_Y) ∧
  (Player.action p = jumping → (Player.y p <= inject_Z PLAYER_LAND_Y)%Q).

(** What holds of the player of every session: it never moves
    horizontally, its animations are the loaded ones, its mask is the
    mask of one of their frames, its timer is within the invincibility
    duration and its health is at most the starting health. *)
Definition player_ok (a : Assets) (p : Player.t) : Prop :=
  Player.x p = PLAYER_START_X ∧
  Rect.x (Player.rect p) = PLAYER_START_X ∧
  Player.running_sprites p = (Player.sprite_lists a).1 ∧
  Player.jumping_sprites p = (Player.sprite_lists a).2 ∧
  (∃ s, s ∈ (Player.sprite_lists a).1 ++ (Player.sprite_lists a).2 ∧
        Player.mask p = from_surface s) ∧
  0 ≤ Player.invincibility_frame p ≤ PLAYER_INVINCIBILITY_DURATION ∧
  Player.health p ≤ PLAYER_START_HEALTH.

(** A session is set up: there is a player [p], and the tracked
    obstacle, the object [o] behind the reference [r], is the one member
    of the group; it moves at the global speed, which lies between the
    starting speed and the cap. *)
Definition session_at (w : World) (p : Player.t) (r : nat) (o : Obstacle.t) : Prop :=
  player w = Some p ∧ obstacle w = Some r ∧ obstacles_group w = Some [r] ∧
  sprites w !! r = Some o.

Definition session_ok (a : Assets) (w : World) : Prop :=
  ∃ p r o,
    session_at w p r o ∧
    Obstacle.game_speed o = speed w ∧
    (STARTING_SPEED <= speed w <= MAX_SPEED)%Q ∧
    0 ≤ score w ∧
    player_ok a p.

Definition is_menu (s : GameState) : bool :=
  match s with
  | STATE_MAIN_MENU | STATE_INSTRUCTIONS | STATE_SETTINGS => true
  | _ => false
  end.

(** The least health a world in state [s] can show. *)
Definition min_health (s : GameState) : Z :=
  match s with
  | STATE_PLAYING | STATE_PAUSED => 1
  | _ => 0
  end.

(** Before the first game the program is in a menu with nothing set
    up; afterwards a session is set up, and the player is alive while
    the game is playing or paused. *)
Definition world_ok (a : Assets) (w : World) : Prop :=
  (player w = None ∧ obstacle w = None ∧ is_menu (game_state w) = true ∧
   speed w = 0%Q) ∨
  (session_ok a w ∧
   ∀ p, player w = Some p → min_health (game_state w) ≤ Player.health p).

(** Every frame of the player's animations is narrower than the
    distance from the player's left edge to the right edge of the
    screen. *)
Definition sprites_narrow (a : Assets) : Prop :=
  Forall (λ s, get_width s < GAME_WIDTH - PLAYER_START_X)
         ((Player.sprite_lists a).1 ++ (Player.sprite_lists a).2).

(** A session whose player has health left. *)
Definition alive (a : Assets) (w : World) : Prop :=
  session_ok a w ∧ ∀ p, player w = Some p → 1 ≤ Player.health p.

(** Whether a click of the game-over screen is on Retry or Main Menu. *)
Definition leaves_game_over (a : Assets) (ev : Event) : bool :=
  match ev with
  | MOUSEBUTTONDOWN 1 pos =>
      Rect.collidepoint (GameOver.retry a) pos || Rect.collidepoint (GameOver.menu a) pos
  | _ => false
  end.

(** ** Drawing the background *)

Definition num_bg_tiles : nat := 1.

(** The tiles of one layer in [draw_layered_background]: the positions
    it blits the layer at.  [None] is the [ZeroDivisionError] of a layer
    without width. *)
Definition layer_tiles (offset : Q) (layer : Surface) (num_tiles : nat)
  : option (list (Z * Z)) :=
  let pos_y := GAME_HEIGHT - get_height layer in
  let layer_width := get_width layer in
  if layer_width =? 0 then None
  else
    let start_x := py_int (py_mod offset layer_width) - layer_width in
    Some (map (λ j, (start_x + Z.of_nat j * layer_width, pos_y))
              (seq 0 (num_tiles + 2))).

(** [draw_layered_background]: for every layer that has an offset, its
    tiles. *)
Definition draw_layered_background (layers : list Surface) (offsets : list Q)
           (num_tiles : nat) : option (list (list (Z * Z))) :=
  mapM (λ il, match offsets !! il.1 with
              | Some offset => layer_tiles offset il.2 num_tiles
              | None => Some []
              end)
       (imap pair layers).

(** ** The settings screen and the music

    The part of [handle_settings] that the world does not hold: the
    volume and the selected track. *)

Definition VOLUME_STEP : Q := 1 # 10.

Record Audio := mkAudio {
  music_volume : Q;
  current_track_index : Z
}.

Definition initial_audio : Audio := mkAudio (7 # 10) 0.

(** [max(a, b)]: the first argument unless the second is larger. *)
Definition py_max (a b : Q) : Q := if Qltb a b then b else a.

Module Settings.
Definition box_y : Q :=
  ((inject_Z GAME_HEIGHT - inject_Z GAME_HEIGHT * (6 # 10)) / 2)%Q.
Definition volume_y (a : Assets) : Q :=
  (box_y + inject_Z BOX_PADDING_Y + inject_Z (menu_font_height a)
   + inject_Z BOX_PADDING_Y)%Q.
Definition volume_minus (a : Assets) : Rect.t :=
  Rect.of_floats (half GAME_WIDTH - 120) (volume_y a + 20) 50 40.
Definition volume_plus (a : Assets) : Rect.t :=
  Rect.of_floats (half GAME_WIDTH + 70) (volume_y a + 20) 50 40.
Definition track_y (a : Assets) : Q := (volume_y a + 80)%Q.
Definition track_0 (a : Assets) : Rect.t :=
  Rect.of_floats (half GAME_WIDTH + (-100)) (track_y a + 20) 100 40.
Definition track_1 (a : Assets) : Rect.t :=
  Rect.of_floats (half GAME_WIDTH + 50) (track_y a + 20) 100 40.
End Settings.

(** [switch_music_track(track_index)]; [have_music] tells whether
    [music_paths] is non-empty. *)
Definition switch_music_track (have_music : bool) (au : Audio) (track_index : Z)
  : Audio :=
  if negb (track_index =? current_track_index au) && have_music
  then mkAudio (music_volume au) track_index
  else au.

(** One event of [handle_settings], on the game state and the audio
    settings together. *)
Definition settings_audio_event (a : Assets) (have_music : bool)
           (st : GameState * Audio) (ev : Event) : GameState * Audio :=
  match ev with
  | MOUSEBUTTONDOWN 1 mouse_pos =>
      if Rect.collidepoint settings_back mouse_pos
      then (STATE_MAIN_MENU, st.2)
      else if Rect.collidepoint (Settings.volume_minus a) mouse_pos
      then (st.1, mkAudio (py_max 0 (music_volume st.2 - VOLUME_STEP))
                          (current_track_index st.2))
      else if Rect.collidepoint (Settings.volume_plus a) mouse_pos
      then (st.1, mkAudio (py_min 1 (music_volume st.2 + VOLUME_STEP))
                          (current_track_index st.2))
      else if Rect.collidepoint (Settings.track_0 a) mouse_pos
      then (st.1, switch_music_track have_music st.2 0)
      else if Rect.collidepoint (Settings.track_1 a) mouse_pos
      then (st.1, switch_music_track have_music st.2 1)
      else st
  | KEYDOWN K_ESCAPE => (STATE_MAIN_MENU, st.2)
  | _ => st
  end.

Definition handle_settings_audio (a : Assets) (have_music : bool)
           (st : GameState * Audio) (events : list Event) : GameState * Audio :=
  foldl (settings_audio_event a have_music) st events.

(** ** Relations between worlds *)

(** The simulation is where it was: nothing but the game state and the
    quit flag may differ. *)
Definition same_session (w w' : World) : Prop :=
  score w' = score w ∧ speed w' = speed w ∧ player w' = player w ∧
  obstacle w' = obstacle w ∧ obstacles_group w' = obstacles_group w ∧
  sprites w' = sprites w ∧ parallax_offsets w' = parallax_offsets w ∧
  heart_sprite_index w' = heart_sprite_index w ∧ rng w' = rng w.

(** The game states one iteration of the main loop can lead to. *)
Definition may_follow (s s' : GameState) : bool :=
  match s, s' with
  | STATE_MAIN_MENU,
    (STATE_MAIN_MENU | STATE_PLAYING | STATE_INSTRUCTIONS | STATE_SETTINGS) => true
  | STATE_INSTRUCTIONS, (STATE_INSTRUCTIONS | STATE_MAIN_MENU) => true
  | STATE_SETTINGS, (STATE_SETTINGS | STATE_MAIN_MENU) => true
  | STATE_PLAYING, (STATE_PLAYING | STATE_PAUSED | STATE_GAME_OVER) => true
  | STATE_PAUSED, (STATE_PAUSED | STATE_PLAYING | STATE_MAIN_MENU) => true
  | STATE_GAME_OVER, (STATE_GAME_OVER | STATE_PLAYING | STATE_MAIN_MENU) => true
  | _, _ => false
  end.

(** Whether an event is a left click inside the rectangle. *)
Definition clicks (r : Rect.t) (ev : Event) : bool :=
  match ev with
  | MOUSEBUTTONDOWN 1 pos => Rect.collidepoint r pos
  | _ => false
  end.

(** The animation indices are valid indices of their sprite lists. *)
Definition indices_in_range (p : Player.t) : Prop :=
  (0 <= Player.running_sprite_index p
   < inject_Z (Z.of_nat (length (Player.running_sprites p))))%Q ∧
  (0 <= Player.jumping_sprite_index p
   < inject_Z (Z.of_nat (length (Player.jumping_sprites p))))%Q ∧
  (0 <= Player.current_sprite_index p
   < inject_Z (Z.of_nat (length (Player.current_sprite_list p))))%Q.

(** Whether [Player.draw] blits the player. *)
Definition drawn (p : Player.t) : bool :=
  match Player.draw p with Some _ => true | None => false end.

(** ** Further predicates *)

(** A session as [reset_game()] leaves it. *)
Definition fresh_session (a : Assets) (w : World) : Prop :=
  score w = 0 ∧ speed w = STARTING_SPEED ∧ heart_sprite_index w = 0%Q ∧
  parallax_offsets w = replicate (length (background_layers a)) 0%Q ∧
  player w = Some (Player.set_invincibility_frame (Player.init a) 0) ∧
  ∃ r o, obstacle w = Some r ∧ obstacles_group w = Some [r] ∧
         sprites w !! r = Some o ∧
         Obstacle.x o = inject_Z GAME_WIDTH ∧ Obstacle.game_speed o = STARTING_SPEED.

(** What the rectangle, the mask and the height of an obstacle are
    tied to: its image and its [x]. *)
Definition obstacle_shape (a : Assets) (o : Obstacle.t) : Prop :=
  Obstacle.image o ∈ Obstacle.images_or_placeholder (loaded_obstacle_images a) ∧
  Obstacle.mask o = from_surface (Obstacle.image o) ∧
  Rect.x (Obstacle.rect o) = py_int (Obstacle.x o) ∧
  Rect.y (Obstacle.rect o) = Obstacle.y o ∧
  Rect.w (Obstacle.rect o) = get_width (Obstacle.image o) ∧
  Rect.h (Obstacle.rect o) = get_height (Obstacle.image o) ∧
  Obstacle.y o + get_height (Obstacle.image o) = GAME_HEIGHT.

(** What the rectangle and the mask of the player are tied to. *)
Definition player_shape (a : Assets) (p : Player.t) : Prop :=
  Rect.y (Player.rect p) = py_round (Player.y p) ∧
  Rect.w (Player.rect p) = get_width (hd Player.dummy_surf (Player.sprite_lists a).1) ∧
  Rect.h (Player.rect p) = get_height (hd Player.dummy_surf (Player.sprite_lists a).1) ∧
  Player.mask p = from_surface (Player.image p) ∧
  Player.current_sprite_list p ≠ [] ∧
  Player.image p = nth (Z.to_nat (Player.frame_index p)) (Player.current_sprite_list p)
                       (Player.image p).

(** What the settings screen keeps of the audio settings. *)
Definition audio_ok (au : Audio) : Prop :=
  (0 <= music_volume au <= 1)%Q ∧
  (current_track_index au = 0 ∨ current_track_index au = 1).

(** Whether an event is a press of the Escape key. *)
Definition is_escape (ev : Event) : bool :=
  match ev with KEYDOWN K_ESCAPE => true | _ => false end.

(** The number of the rectangles that hold the point. *)
Definition hits (rects : list Rect.t) (pos : Z * Z) : nat :=
  length (List.filter (λ r, Rect.collidepoint r pos) rects).

(** ** The methods that compute with floats, in double precision

    The simulation above computes with exact rationals.  Where a
    property depends on the rounding of Python's floats, the method is
    given here once more, with every float operation rounded to
    double. *)

(** [clock.tick(FPS) / 1000.0] *)
Definition frame_dt (tick : Z) : Q := double (inject_Z tick / 1000).

(** Whether an int fits the C [int] of a [pygame.Rect] coordinate. *)
Definition fits_c_int (z : Z) : bool := (- 2 ^ 31 <=? z) && (z <? 2 ^ 31).

(** The displacement [game_speed * dt * FPS] of [Obstacle.update]. *)
Definition displacement_double (game_speed dt : Q) : Q :=
  double (double (game_speed * dt) * inject_Z FPS).

(** [Obstacle.update(dt)] in double precision.  [None] is the
    [TypeError] of [rect.x = int(self.x)] for an int that does not fit
    a C [int]. *)
Definition Obstacle_update_double (self : Obstacle.t) (dt : Q) : option Obstacle.t :=
  let x' := double (Obstacle.x self
                    - displacement_double (Obstacle.game_speed self) dt) in
  if fits_c_int (py_int x')
  then Some (Obstacle.mk (Obstacle.obstacle_images self) (Obstacle.image self)
                         (Obstacle.game_speed self) x' (Obstacle.y self)
                         (Rect.set_x (Obstacle.rect self) (py_int x'))
                         (Obstacle.mask self))
  else None.

(** The speed after one more multiple of the interval, as the ratchet
    of [handle_playing] computes it. *)
Definition ratchet_double (s : Q) : Q :=
  if Qltb s MAX_SPEED
  then py_min MAX_SPEED (double (s + double SPEED_INCREASE_AMOUNT))
  else s.

(** [score += 1] and the speed ratchet, on the score and the speed. *)
Definition award_double (st : Z * Q) : Z * Q :=
  let sc := st.1 + 1 in
  (sc, if (sc mod SPEED_INCREASE_INTERVAL =? 0) && Qltb st.2 MAX_SPEED
       then py_min MAX_SPEED (double (st.2 + double SPEED_INCREASE_AMOUNT))
       else st.2).

(** Score and speed after [n] pass-throughs of a new game. *)
Definition awards_double (n : nat) : Z * Q :=
  Nat.iter n award_double (0, STARTING_SPEED).

(** The physics part of [Player.update] in double precision. *)
Definition Player_update_physics_double (self : Player.t) : Player.t :=
  match Player.action self with
  | jumping =>
      let self := Player.set_y self (double (Player.y self + Player.vel_y self)) in
      let self :=
        Player.set_vel_y self (double (Player.vel_y self + double PLAYER_GRAVITY)) in
      if Qle_bool (inject_Z PLAYER_LAND_Y) (Player.y self) then
        Player.set_vel_y
          (Player.set_action (Player.set_y self (inject_Z PLAYER_LAND_Y)) running) 0
      else self
  | running =>
      if Qltb (Player.y self) (inject_Z PLAYER_LAND_Y)
      then Player.set_y self (inject_Z PLAYER_LAND_Y)
      else self
  end.

(** The animation part of [Player.update] in double precision: the sum
    is rounded, the remainder of a float by an int is exact. *)
Definition Player_update_animation_double (self : Player.t) : Player.t :=
  match Player.action self with
  | running =>
      let i := py_mod (double (Player.running_sprite_index self
                               + double PLAYER_ANIMATION_SPEED))
                      (Z.of_nat (length (Player.running_sprites self))) in
      Player.set_current (Player.set_running_sprite_index self i)
                         (Player.running_sprites self) i
  | jumping =>
      let i := py_mod (double (Player.jumping_sprite_index self
                               + double PLAYER_ANIMATION_SPEED))
                      (Z.of_nat (length (Player.jumping_sprites self))) in
      Player.set_current (Player.set_jumping_sprite_index self i)
                         (Player.jumping_sprites self) i
  end.

(** [Player.update(dt)] in double precision. *)
Definition Player_update_double (self : Player.t) (dt : Q) : Player.t :=
  if Player.is_nil (Player.running_sprites self)
     || Player.is_nil (Player.jumping_sprites self)
  then self
  else Player.update_invincibility
         (Player.update_image
            (Player_update_animation_double (Player_update_physics_double self))).

Definition player_call_double (p : Player.t) (c : PlayerCall) : Player.t :=
  match c with
  | Jump => Player.jump p
  | Update dt => Player_update_double p dt
  end.

Definition player_calls_double (p : Player.t) (cs : list PlayerCall) : Player.t :=
  foldl player_call_double p cs.

(** One update of a jump, on [y] and [vel_y], before the landing test. *)
Definition flight_step (s : Q * Q) : Q * Q :=
  (double (s.1 + s.2), double (s.2 + double PLAYER_GRAVITY)).

(** [y] and [vel_y] after [k] updates of a jump from the ground. *)
Definition flight (k : nat) : Q * Q :=
  Nat.iter k flight_step (inject_Z PLAYER_LAND_Y, PLAYER_JUMP_VELOCITY).

(** Whether [P] holds of the [n] steps of a jump that begin with the
    step [k], whose [y] and [vel_y] are [s]. *)
Fixpoint flight_all (P : nat → Q * Q → bool) (k n : nat) (s : Q * Q) : bool :=
  match n with
  | O => true
  | S n' => P k s && flight_all P (S k) n' (flight_step s)
  end.

(** The player is in the air, [k] updates into a jump. *)
Definition in_flight (k : nat) (p : Player.t) : Prop :=
  Player.action p = jumping ∧ (Player.y p, Player.vel_y p) = flight k.

(** ** Sample data *)

(** A fully opaque image of the given size. *)
Definition block (w h : Z) : Surface := filled_surface w h.

(** Assets with a 40 x 150 runner, two rocks, two background layers. *)
Definition sample_assets : Assets :=
  mkAssets (λ _, Some (block 40 150)) (λ _, Some (block 40 150))
           [block 50 40; block 50 30]
           [block 600 432; block 700 432]
           [block 30 30]
           60 40 30.

Definition click_start : Event := MOUSEBUTTONDOWN 1 (400, 200).

(** A frame in which no time passes, and a frame of 1.25 s, long enough
    at the starting speed to carry a new obstacle onto the runner. *)
Definition still_frame : Frame := mkFrame 0 [].
Definition long_frame : Frame := mkFrame 1250 [].

(** Start, then three hits, each as soon as the invincibility window of
    the previous one has run out. *)
Definition two_hits : list Frame :=
  mkFrame 16 [click_start] :: long_frame :: replicate 59 still_frame
  ++ long_frame :: replicate 59 still_frame.
Definition three_hits : list Frame := two_hits ++ [long_frame].

Definition start_only : list Frame := [mkFrame 16 [click_start]].

(** The world and the player after the given frames, from the initial
    world with the draws 1, 2, 3. *)
Definition world_after (fs : list Frame) : World :=
  default (initial_world [])
          (main_loop sample_assets (initial_world [1; 2; 3]%nat) fs).
Definition the_player (w : World) : Player.t :=
  default (Player.init sample_assets) (player w).
Definition player_after (fs : list Frame) : Player.t := the_player (world_after fs).

(** Start, then one frame of 2 s: the obstacle leaves the screen. *)
Definition start_and_pass : list Frame := [mkFrame 16 [click_start]; mkFrame 2000 []].

(** Start, then one hit. *)
Definition one_hit : list Frame := [mkFrame 16 [click_start]; long_frame].

(** The tracked obstacle after the given frames. *)
Definition obstacle_after (fs : list Frame) : Obstacle.t :=
  default (Obstacle.init sample_assets 0 []).1
          (r ← obstacle (world_after fs); sprites (world_after fs) !! r).

(** Start, then [n] frames of 2 s, in each of which the obstacle leaves
    the screen. *)
Definition passes (n : nat) : list Frame :=
  mkFrame 16 [click_start] :: replicate n (mkFrame 2000 []).

(** A new game at the moment of its first collision check, one long
    frame after the start, and just after that check. *)
Definition at_collision : World :=
  default (initial_world [])
          (frame_before_collision sample_assets (world_after start_only) [] (5 # 4)).
Definition checked (w : World) : World :=
  default (initial_world []) (collision_detection sample_assets w).
Definition after_collision : World := checked at_collision.

(** One hit, then a second long frame: the new obstacle is on the runner
    again, inside the invincibility window, when the collision
    detection runs. *)
Definition in_window : World :=
  default (initial_world [])
          (frame_before_collision sample_assets (world_after one_hit) [] (5 # 4)).

(** A jump followed by [n] updates at 16 ms. *)
Definition jump_then_update (n : nat) : list PlayerCall :=
  Jump :: replicate n (Update (16 # 1000)).

(** Start, then a frame with a press of the space bar. *)
Definition start_and_jump : list Frame :=
  [mkFrame 16 [click_start]; mkFrame 16 [KEYDOWN K_SPACE]].

(** An obstacle at [x] with the given speed, for the sample runs. *)
Definition obstacle_at (x game_speed : Q) : Obstacle.t :=
  Obstacle.mk [block 50 40] (block 50 40) game_speed x 392
              (Rect.mk (py_int x) 392 50 40) (from_surface (block 50 40)).

(** * Properties *)

(** ** Comparisons on floats *)

Lemma Qltb_lt (a b : Q) : Qltb a b = true ↔ (a < b)%Q.
Proof.
  unfold Qltb. rewrite negb_true_iff. split.
  - intros H. apply Qnot_le_lt. intros Hle.
    apply Qle_bool_iff in Hle. congruence.
  - intros H. destruct (Qle_bool b a) eqn:E; [|done].
    apply Qle_bool_iff in E. lra.
Qed.

Lemma Qltb_ge (a b : Q) : Qltb a b = false ↔ (b <= a)%Q.
Proof.
  unfold Qltb. rewrite negb_false_iff. apply Qle_bool_iff.
Qed.

Lemma Qle_bool_gt (a b : Q) : Qle_bool a b = false ↔ (b < a)%Q.
Proof.
  split.
  - intros H. apply Qnot_le_lt. intros Hle.
    apply Qle_bool_iff in Hle. congruence.
  - intros H. destruct (Qle_bool a b) eqn:E; [|done].
    apply Qle_bool_iff in E. lra.
Qed.

Lemma py_min_le_l (a b : Q) : (py_min a b <= a)%Q.
Proof.
  unfold py_min. destruct (Qltb b a) eqn:E.
  - apply Qltb_lt in E. lra.
  - lra.
Qed.

Lemma py_min_glb (a b c : Q) : (c <= a)%Q → (c <= b)%Q → (c <= py_min a b)%Q.
Proof. unfold py_min. destruct (Qltb b a); auto. Qed.

Lemma py_min_glb_lt (a b c : Q) : (c < a)%Q → (c < b)%Q → (c < py_min a b)%Q.
Proof. unfold py_min. destruct (Qltb b a); auto. Qed.

Lemma py_int_inject_Z (z : Z) : py_int (inject_Z z) = z.
Proof. unfold py_int. simpl. apply Z.quot_1_r. Qed.

Lemma py_round_err (q : Q) : (Qabs (inject_Z (py_round q) - q) <= 1 # 2)%Q.
Proof.
  apply Qabs_Qle_condition. unfold py_round.
  destruct (Qle_bool 0 q).
  - pose proof (Qfloor_le (q + (1 # 2))) as Hlo.
    pose proof (Qlt_floor (q + (1 # 2))) as Hhi.
    rewrite inject_Z_plus in Hhi. change (inject_Z 1) with 1%Q in Hhi. lra.
  - pose proof (Qfloor_le (- q + (1 # 2))) as Hlo.
    pose proof (Qlt_floor (- q + (1 # 2))) as Hhi.
    rewrite inject_Z_plus in Hhi. change (inject_Z 1) with 1%Q in Hhi.
    rewrite inject_Z_opp. lra.
Qed.

Lemma py_round_inject_Z (z : Z) : py_round (inject_Z z) = z.
Proof.
  unfold py_round.
  assert (∀ y, Qfloor (inject_Z y + (1 # 2)) = y) as Hfl.
  { intros y. unfold Qfloor, Qplus, inject_Z. cbn.
    rewrite Z.mul_1_r. symmetry. apply (Z.div_unique _ 2 y 1); lia. }
  destruct (Qle_bool 0 (inject_Z z)); [apply Hfl|].
  rewrite <- inject_Z_opp, Hfl. lia.
Qed.

(** ** Player.jump *)

(** C9.  [jump()] while the action is jumping changes nothing at all,
    so neither the vertical velocity nor the animation phase; while the
    action is running it switches to jumping, sets the vertical velocity
    to the jump velocity, which is negative (upward), and resets the
    jump animation phase to 0, leaving position, health and timer as
    they were. *)
Theorem jump_contract (p : Player.t) :
  (Player.action p = jumping → Player.jump p = p) ∧
  (Player.action p = running →
     Player.action (Player.jump p) = jumping ∧
     Player.vel_y (Player.jump p) = PLAYER_JUMP_VELOCITY ∧
     (PLAYER_JUMP_VELOCITY < 0)%Q ∧
     Player.jumping_sprite_index (Player.jump p) = 0%Q ∧
     Player.y (Player.jump p) = Player.y p ∧
     Player.health (Player.jump p) = Player.health p ∧
     Player.invincibility_frame (Player.jump p) = Player.invincibility_frame p).
Proof.
  split; intros Ha; unfold Player.jump; rewrite Ha; [done|].
  repeat split.
Qed.

Lemma jump_contract_witness :
  let p := Player.init sample_assets in
  Player.jump (Player.jump p) = Player.jump p ∧
  Player.action (Player.jump p) = jumping ∧
  Player.vel_y (Player.jump p) = PLAYER_JUMP_VELOCITY.
Proof.
  intros p.
  split; [|split].
  - apply (proj1 (jump_contract (Player.jump p))). reflexivity.
  - apply (proj2 (jump_contract p)). reflexivity.
  - apply (proj2 (jump_contract p)). reflexivity.
Defined.

(** ** Parallax scroller *)

Section Parallax.
Variable layers : list Surface.

Lemma update_parallax_length offsets s dt :
  length (update_parallax offsets layers s dt) = length layers.
Proof. unfold update_parallax. apply length_imap. Qed.

Lemma update_parallax_main_length offsets s dt :
  length (update_parallax_main offsets layers s dt) = length layers.
Proof. unfold update_parallax_main. apply length_imap. Qed.

Lemma parallax_calls_length steps :
  length (parallax_calls layers steps) = length layers.
Proof.
  unfold parallax_calls.
  destruct steps as [|s steps _] using rev_ind.
  - apply length_replicate.
  - rewrite foldl_snoc. apply update_parallax_length.
Qed.

Lemma parallax_calls_main_length steps :
  length (parallax_calls_main layers steps) = length layers.
Proof.
  unfold parallax_calls_main.
  destruct steps as [|s steps _] using rev_ind.
  - apply length_replicate.
  - rewrite foldl_snoc. apply update_parallax_main_length.
Qed.

(** One call on one layer, 05-13-25: from [[-w, 0]] a scroll of at most
    [w] lands in [[-w, 0]] again. *)
Lemma parallax_layer_step offsets s dt i layer off :
  offsets !! i = Some off →
  (- inject_Z (get_width layer) <= off <= 0)%Q →
  (0 <= scroll_amount i s dt <= inject_Z (get_width layer))%Q →
  (- inject_Z (get_width layer) <= parallax_layer offsets s dt i layer <= 0)%Q.
Proof.
  intros Hoff Hb Hs. unfold parallax_layer. rewrite Hoff. cbv zeta.
  destruct (Qle_bool _ _) eqn:E.
  - apply Qle_bool_iff in E. lra.
  - apply Qle_bool_gt in E. lra.
Qed.

(** One call on one layer, older variant: the result is in [[-w, w]]
    whatever the offset, the speed and [dt] were. *)
Lemma parallax_layer_main_step offsets s dt i layer :
  0 ≤ get_width layer →
  (- inject_Z (get_width layer) <= parallax_layer_main offsets s dt i layer
   <= inject_Z (get_width layer))%Q.
Proof.
  intros Hw. unfold parallax_layer_main.
  assert (0 <= inject_Z (get_width layer))%Q as Hw'.
  { change 0%Q with (inject_Z 0). rewrite <- Zle_Qle. done. }
  destruct (offsets !! i) as [off|]; [|lra]. cbv zeta.
  destruct (Qltb _ _) eqn:E; [lra|].
  apply Qltb_ge in E. revert E. unfold py_abs.
  destruct (Qltb _ 0) eqn:E0; intros E.
  - apply Qltb_lt in E0. lra.
  - apply Qltb_ge in E0. lra.
Qed.
End Parallax.

(** C7, as amended.  From the offsets 0 that [reset_game] installs, and
    for a layer of width [w]: in the 05-13-25 variant the offset stays
    within [[-w, 0]] after any number of [update_parallax] calls each of
    which scrolls that layer by an amount between 0 and [w]; in the
    older variant it stays within [[-w, w]] after any number of calls,
    whatever their speeds and [dt]. *)
Theorem parallax_offset_bounded (layers : list Surface) (steps : list (Q * Q))
        (i : nat) (layer : Surface) :
  layers !! i = Some layer →
  0 ≤ get_width layer →
  ((∀ s, s ∈ steps →
      (0 <= scroll_amount i s.1 s.2 <= inject_Z (get_width layer))%Q) →
   ∃ off, parallax_calls layers steps !! i = Some off ∧
          (- inject_Z (get_width layer) <= off <= 0)%Q) ∧
  (∃ off, parallax_calls_main layers steps !! i = Some off ∧
          (- inject_Z (get_width layer) <= off <= inject_Z (get_width layer))%Q).
Proof.
  intros Hl Hw.
  assert (0 <= inject_Z (get_width layer))%Q as Hw'.
  { change 0%Q with (inject_Z 0). rewrite <- Zle_Qle. done. }
  assert (i < length layers)%nat as Hi by (by eapply lookup_lt_Some).
  split.
  - induction steps as [|s steps IH] using rev_ind; intros Hs.
    + exists 0%Q. split; [|lra].
      unfold parallax_calls. simpl. by apply lookup_replicate_2.
    + destruct IH as (off & Hoff & Hb).
      { intros s' Hs'. apply Hs. apply elem_of_app. by left. }
      unfold parallax_calls in *. rewrite foldl_snoc.
      unfold update_parallax at 1. rewrite list_lookup_imap, Hl. simpl.
      eexists. split; [reflexivity|].
      eapply parallax_layer_step; [exact Hoff|exact Hb|].
      apply Hs. apply elem_of_app. right. by apply list_elem_of_singleton.
  - destruct steps as [|s steps _] using rev_ind.
    + exists 0%Q. split; [|lra].
      unfold parallax_calls_main. simpl. by apply lookup_replicate_2.
    + unfold parallax_calls_main. rewrite foldl_snoc.
      unfold update_parallax_main at 1. rewrite list_lookup_imap, Hl. simpl.
      eexists. split; [reflexivity|].
      by apply parallax_layer_main_step.
Qed.

Lemma parallax_offset_bounded_witness :
  (∃ off, parallax_calls [block 600 432] [(5 # 1, 16 # 1000); (13 # 1, 1 # 1)]%Q !! 0%nat
          = Some off ∧
          (- inject_Z 600 <= off <= 0)%Q) ∧
  (∃ off, parallax_calls_main [block 600 432] [(5 # 1, 16 # 1000); (13 # 1, 1 # 1)]%Q
          !! 0%nat = Some off ∧
          (- inject_Z 600 <= off <= inject_Z 600)%Q).
Proof.
  pose proof (parallax_offset_bounded [block 600 432]
                [(5 # 1, 16 # 1000); (13 # 1, 1 # 1)]%Q 0%nat (block 600 432)
                eq_refl) as H.
  destruct H as [H1 H2]; [simpl; lia|].
  split; [|exact H2].
  apply H1. intros s Hs.
  apply elem_of_cons in Hs as [->|Hs]; [vm_compute; split; discriminate|].
  apply list_elem_of_singleton in Hs as ->. vm_compute; split; discriminate.
Defined.

(** C7, the claim as stated fails in the 05-13-25 variant: one call with
    [dt] = 10 s at the starting speed scrolls the first layer by 1500
    pixels, and the single wrap leaves its offset at -900, below the
    negated layer width -600. *)
Lemma parallax_offset_unbounded :
  ∃ off, parallax_calls [block 600 432] [(STARTING_SPEED, 10 # 1)%Q] !! 0%nat = Some off ∧
         (0 <= 10 # 1)%Q ∧
         (off == - (900 # 1))%Q ∧
         ¬ (- inject_Z (get_width (block 600 432)) <= off)%Q.
Proof.
  eexists. split; [reflexivity|].
  split; [discriminate|]. split; [reflexivity|].
  vm_compute. intros H. apply H. reflexivity.
Qed.

(** The same in the game: a frame that took 10 s, right after the start,
    leaves the two layers of the sample game, 600 and 700 wide, at the
    offsets -900 and -950. *)
Example parallax_offset_unbounded_in_game :
  Forall2 Qeq
          (parallax_offsets (world_after [mkFrame 16 [click_start]; mkFrame 10000 []]))
          [- (900 # 1); - (950 # 1)]%Q.
Proof. vm_compute. repeat constructor. Qed.

(** ** Player physics *)

Lemma sprite_lists_nonempty (a : Assets) :
  (Player.sprite_lists a).1 ≠ [] ∧ (Player.sprite_lists a).2 ≠ [].
Proof.
  unfold Player.sprite_lists, load_animation_frames.
  destruct (mapM (load_running a) _) as [rs|] eqn:Er; [|done].
  destruct (mapM (load_jumping a) _) as [js|] eqn:Ej; [|done].
  apply length_mapM in Er, Ej. rewrite length_seq in Er, Ej.
  destruct rs, js; done.
Qed.

Lemma is_nil_false {A} (l : list A) : l ≠ [] → Player.is_nil l = false.
Proof. by destruct l. Qed.

(** With both animations present, [update] is its four parts in a row. *)
Lemma update_unfold (p : Player.t) (dt : Q) :
  Player.running_sprites p ≠ [] → Player.jumping_sprites p ≠ [] →
  Player.update p dt =
  Player.update_invincibility
    (Player.update_image (Player.update_animation (Player.update_physics p))).
Proof.
  intros Hr Hj. unfold Player.update.
  by rewrite (is_nil_false _ Hr), (is_nil_false _ Hj).
Qed.

(** What the parts after the physics leave alone. *)
Lemma update_tail_fields (q : Player.t) :
  let q' := Player.update_invincibility
              (Player.update_image (Player.update_animation q)) in
  Player.y q' = Player.y q ∧ Player.action q' = Player.action q ∧
  Player.vel_y q' = Player.vel_y q ∧ Player.health q' = Player.health q ∧
  Player.x q' = Player.x q ∧
  Player.running_sprites q' = Player.running_sprites q ∧
  Player.jumping_sprites q' = Player.jumping_sprites q.
Proof.
  unfold Player.update_invincibility, Player.update_image, Player.update_animation.
  destruct (Player.action q) eqn:Ea; simpl;
    destruct (0 <? _); simpl; rewrite ?Ea; done.
Qed.

Lemma update_physics_fields (p : Player.t) :
  Player.health (Player.update_physics p) = Player.health p ∧
  Player.invincibility_frame (Player.update_physics p) = Player.invincibility_frame p ∧
  Player.x (Player.update_physics p) = Player.x p ∧
  Player.running_sprites (Player.update_physics p) = Player.running_sprites p ∧
  Player.jumping_sprites (Player.update_physics p) = Player.jumping_sprites p ∧
  Player.rect (Player.update_physics p) = Player.rect p ∧
  Player.mask (Player.update_physics p) = Player.mask p ∧
  Player.image (Player.update_physics p) = Player.image p.
Proof.
  unfold Player.update_physics.
  destruct (Player.action p); simpl.
  - destruct (Qltb _ _); done.
  - destruct (Qle_bool _ _); done.
Qed.

Lemma update_physics_grounded (p : Player.t) :
  grounded p → grounded (Player.update_physics p).
Proof.
  intros [Hr Hj]. unfold grounded, Player.update_physics.
  destruct (Player.action p) eqn:Ea.
  - rewrite (Hr eq_refl).
    destruct (Qltb _ _) eqn:E; simpl; rewrite ?Ea; split; try done.
  - simpl. destruct (Qle_bool _ _) eqn:E; simpl; rewrite ?Ea; split; try done.
    intros _. apply Qle_bool_gt in E. simpl in E. lra.
Qed.

Lemma update_grounded (p : Player.t) (dt : Q) :
  grounded p → grounded (Player.update p dt).
Proof.
  intros Hg. unfold Player.update.
  destruct (_ || _); [done|].
  destruct (update_tail_fields (Player.update_physics p)) as (Hy & Ha & _).
  apply update_physics_grounded in Hg.
  unfold grounded in *. rewrite Hy, Ha. done.
Qed.

Lemma jump_grounded (p : Player.t) : grounded p → grounded (Player.jump p).
Proof.
  intros [Hr Hj]. unfold grounded, Player.jump.
  destruct (Player.action p) eqn:Ea; simpl; rewrite ?Ea; split; try done.
  intros _. rewrite (Hr eq_refl). lra.
Qed.

Lemma jump_sprites (p : Player.t) :
  Player.running_sprites (Player.jump p) = Player.running_sprites p ∧
  Player.jumping_sprites (Player.jump p) = Player.jumping_sprites p.
Proof. unfold Player.jump. by destruct (Player.action p). Qed.

Lemma update_sprites (p : Player.t) (dt : Q) :
  Player.running_sprites (Player.update p dt) = Player.running_sprites p ∧
  Player.jumping_sprites (Player.update p dt) = Player.jumping_sprites p.
Proof.
  unfold Player.update. destruct (_ || _); [done|].
  destruct (update_tail_fields (Player.update_physics p)) as (_&_&_&_&_&->&->).
  destruct (update_physics_fields p) as (_&_&_&->&->&_). done.
Qed.

Lemma init_sprites (a : Assets) :
  Player.running_sprites (Player.init a) = (Player.sprite_lists a).1 ∧
  Player.jumping_sprites (Player.init a) = (Player.sprite_lists a).2.
Proof. unfold Player.init. by destruct (Player.sprite_lists a). Qed.

Lemma init_grounded (a : Assets) : grounded (Player.init a).
Proof.
  unfold grounded, Player.init. destruct (Player.sprite_lists a). simpl.
  split; [done|]. intros _. lra.
Qed.

Lemma player_calls_sprites (a : Assets) (cs : list PlayerCall) :
  Player.running_sprites (player_calls (Player.init a) cs) = (Player.sprite_lists a).1 ∧
  Player.jumping_sprites (player_calls (Player.init a) cs) = (Player.sprite_lists a).2.
Proof.
  unfold player_calls.
  induction cs as [|c cs IH] using rev_ind; [apply init_sprites|].
  rewrite foldl_snoc. destruct c; simpl.
  - destruct (jump_sprites (foldl player_call (Player.init a) cs)) as [-> ->]. done.
  - destruct (update_sprites (foldl player_call (Player.init a) cs) dt) as [-> ->]. done.
Qed.

(** A jump update that reaches the ground lands. *)
Lemma update_lands (p : Player.t) (dt : Q) :
  Player.running_sprites p ≠ [] → Player.jumping_sprites p ≠ [] →
  Player.action p = jumping →
  (inject_Z PLAYER_LAND_Y <= Player.y p + Player.vel_y p)%Q →
  Player.y (Player.update p dt) = inject_Z PLAYER_LAND_Y ∧
  Player.action (Player.update p dt) = running ∧
  Player.vel_y (Player.update p dt) = 0%Q.
Proof.
  intros Hr Hj Ha Hy. rewrite update_unfold by done.
  destruct (update_tail_fields (Player.update_physics p)) as (-> & -> & -> & _).
  unfold Player.update_physics. rewrite Ha. simpl.
  apply Qle_bool_iff in Hy. rewrite Hy. done.
Qed.

(** C8.  In every player state reached from [Player()] by calls of
    [jump()] and [update(dt)]: a running player stands at ground level;
    a jumping player is at or above it ([y] at most the ground's); and
    a jump update whose move [y + vel_y] reaches or passes the ground
    puts [y] at ground level, the action back to running and the
    vertical velocity to 0. *)
Theorem player_ground_invariant (a : Assets) (cs : list PlayerCall) :
  let p := player_calls (Player.init a) cs in
  (Player.action p = running → Player.y p = inject_Z PLAYER_LAND_Y) ∧
  (Player.action p = jumping → (Player.y p <= inject_Z PLAYER_LAND_Y)%Q) ∧
  (∀ dt, Player.action p = jumping →
         (inject_Z PLAYER_LAND_Y <= Player.y p + Player.vel_y p)%Q →
         Player.y (Player.update p dt) = inject_Z PLAYER_LAND_Y ∧
         Player.action (Player.update p dt) = running ∧
         Player.vel_y (Player.update p dt) = 0%Q).
Proof.
  intros p.
  assert (grounded p) as [Hr Hj].
  { subst p. unfold player_calls.
    induction cs as [|c cs IH] using rev_ind; [apply init_grounded|].
    rewrite foldl_snoc. destruct c; simpl.
    - by apply jump_grounded.
    - by apply update_grounded. }
  split; [done|]. split; [done|].
  intros dt Ha Hy.
  destruct (player_calls_sprites a cs) as [Hrs Hjs].
  destruct (sprite_lists_nonempty a) as [Hn1 Hn2].
  apply update_lands; try done; subst p; congruence.
Qed.

Lemma player_ground_invariant_witness :
  Player.y (player_calls (Player.init sample_assets) (jump_then_update 41))
  = inject_Z PLAYER_LAND_Y ∧
  (Player.y (player_calls (Player.init sample_assets) (jump_then_update 40))
   <= inject_Z PLAYER_LAND_Y)%Q ∧
  Player.action
    (Player.update (player_calls (Player.init sample_assets) (jump_then_update 40))
                   (16 # 1000)) = running.
Proof.
  pose proof (player_ground_invariant sample_assets (jump_then_update 41)) as H41.
  pose proof (player_ground_invariant sample_assets (jump_then_update 40)) as H40.
  cbv zeta in H41, H40.
  destruct H41 as (Hr & _). destruct H40 as (_ & Hj & Hl).
  split; [|split].
  - apply Hr. vm_compute. reflexivity.
  - apply Hj. vm_compute. reflexivity.
  - apply (Hl (16 # 1000)).
    + vm_compute. reflexivity.
    + vm_compute. discriminate.
Defined.

(** ** Groups and respawn *)

Lemma group_replace (r r' : nat) : Group.add (Group.remove [r] r) r' = [r'].
Proof. unfold Group.remove, Group.add. simpl. by rewrite Nat.eqb_refl. Qed.

Lemma group_update_single (r : nat) (dt : Q) (st : gmap nat Obstacle.t) (o : Obstacle.t) :
  Group.update [r] dt (<[r := o]> st) = <[r := Obstacle.update o dt]> st.
Proof. unfold Group.update. simpl.
  apply (alter_insert_eq st r (λ o', Obstacle.update o' dt) o).
Qed.

Lemma spritecollide_single (p : Player.t) (r : nat) (st : gmap nat Obstacle.t)
      (o : Obstacle.t) :
  st !! r = Some o →
  spritecollide p [r] st = if collide_mask p o then [r] else [].
Proof. intros H. unfold spritecollide. simpl. rewrite H. done. Qed.

Lemma obstacle_init_fields (a : Assets) (s : Q) (g : Rng) :
  let o := (Obstacle.init a s g).1 in
  Obstacle.game_speed o = s ∧
  Obstacle.x o = inject_Z GAME_WIDTH ∧
  Rect.x (Obstacle.rect o) = GAME_WIDTH ∧
  Obstacle.mask o = from_surface (Obstacle.image o) ∧
  Obstacle.image o =
    nth (hd 0%nat g `mod` length (Obstacle.images_or_placeholder (loaded_obstacle_images a)))%nat
        (Obstacle.images_or_placeholder (loaded_obstacle_images a))
        Obstacle.placeholder.
Proof.
  unfold Obstacle.init, choice, randbelow.
  destruct g as [|k g]; simpl; repeat split.
  destruct (Obstacle.images_or_placeholder _) as [|s0 l]; [done|].
  simpl. by rewrite Nat.sub_diag.
Qed.

Lemma respawn_at (a : Assets) (w : World) (p : Player.t) (r : nat) (o : Obstacle.t) :
  session_at w p r o →
  session_at (respawn a w [r] r) p (next_ref w) (Obstacle.init a (speed w) (rng w)).1.
Proof.
  intros (Hp & Hr & Hg & Ho). unfold respawn, session_at.
  rewrite group_replace.
  destruct (Obstacle.init a (speed w) (rng w)) as [o' g']. cbn [fst].
  cbn [player obstacle obstacles_group sprites].
  rewrite lookup_insert_eq. done.
Qed.

Lemma respawn_fields (a : Assets) (w : World) (g : Group) (old : nat) :
  game_state (respawn a w g old) = game_state w ∧
  score (respawn a w g old) = score w ∧
  speed (respawn a w g old) = speed w ∧
  player (respawn a w g old) = player w ∧
  parallax_offsets (respawn a w g old) = parallax_offsets w ∧
  quit_game (respawn a w g old) = quit_game w.
Proof.
  unfold respawn. by destruct (Obstacle.init a (speed w) (rng w)).
Qed.

(** ** The phases of a playing frame *)

Lemma playing_events_ind (P : Player.t → Prop) :
  (∀ p, P p → P (Player.jump p)) →
  ∀ events p gs, P p → P (foldl playing_event (p, gs) events).1.
Proof.
  intros HJ events. induction events as [|ev events IH]; intros p gs HP; [done|].
  simpl. destruct ev as [|k|b pos|]; simpl; try (by apply IH).
  destruct k; apply IH; auto.
Qed.

Lemma playing_input_at (w : World) (events : list Event) p r o :
  session_at w p r o →
  let st := foldl playing_event (p, game_state w) events in
  playing_input w events = Some (set_game_state (set_player w st.1) st.2) ∧
  session_at (set_game_state (set_player w st.1) st.2) st.1 r o.
Proof.
  intros (Hp & Hr & Hg & Ho) st. unfold playing_input, session_at.
  rewrite Hp. simpl. done.
Qed.

Lemma playing_updates_at (a : Assets) (w : World) (dt : Q) p r o :
  session_at w p r o →
  let w1 := set_parallax_offsets
              (set_sprites (set_player w (Player.update p dt))
                 (<[r := Obstacle.update (Obstacle.update o dt) dt]> (sprites w)))
              (update_parallax (parallax_offsets w) (background_layers a) (speed w) dt) in
  playing_updates a w dt = Some w1 ∧
  session_at w1 (Player.update p dt) r (Obstacle.update (Obstacle.update o dt) dt).
Proof.
  intros (Hp & Hr & Hg & Ho) w1. unfold playing_updates, session_at.
  rewrite Hp, Hr, Hg. cbn [mbind option_bind]. rewrite Ho. cbn [mbind option_bind].
  rewrite group_update_single.
  split; [done|]. subst w1. cbn [player obstacle obstacles_group sprites
    set_parallax_offsets set_sprites set_player].
  rewrite lookup_insert_eq. done.
Qed.

Lemma obstacle_management_at (a : Assets) (w : World) p r o :
  session_at w p r o →
  obstacle_management a w = Some (if passed o then respawn a (award w) [r] r else w).
Proof.
  intros (Hp & Hr & Hg & Ho). unfold obstacle_management.
  rewrite Hr, Hg. cbn [mbind option_bind]. rewrite Ho. cbn [mbind option_bind].
  by destruct (passed o).
Qed.

Lemma collision_detection_at (a : Assets) (w : World) p r o :
  session_at w p r o →
  collision_detection a w =
  Some (if (Player.invincibility_frame p <=? 0) && collide_mask p o
        then let w1 := respawn a (set_player w (hit p)) [r] r in
             if Player.health (hit p) <=? 0
             then set_game_state w1 STATE_GAME_OVER else w1
        else w).
Proof.
  intros (Hp & Hr & Hg & Ho). unfold collision_detection.
  rewrite Hp, Hg. cbn [mbind option_bind].
  destruct (Player.invincibility_frame p <=? 0); [|done].
  rewrite (spritecollide_single p r _ o Ho).
  by destruct (collide_mask p o).
Qed.

Lemma draw_hud_fields (a : Assets) (w : World) :
  game_state (draw_hud a w) = game_state w ∧
  score (draw_hud a w) = score w ∧
  speed (draw_hud a w) = speed w ∧
  player (draw_hud a w) = player w ∧
  obstacle (draw_hud a w) = obstacle w ∧
  obstacles_group (draw_hud a w) = obstacles_group w ∧
  sprites (draw_hud a w) = sprites w ∧
  parallax_offsets (draw_hud a w) = parallax_offsets w ∧
  quit_game (draw_hud a w) = quit_game w.
Proof. unfold draw_hud. by destruct (heart_sprites a). Qed.

Lemma draw_hud_at (a : Assets) (w : World) p r o :
  session_at w p r o → session_at (draw_hud a w) p r o.
Proof.
  unfold session_at.
  destruct (draw_hud_fields a w) as (_&_&_&->&->&->&->&_). done.
Qed.

(** The anatomy of a playing frame of a session: [p1] is the player
    and [o1] the tracked obstacle after the update calls, [w2] the world
    and [o2] the tracked obstacle when the collision detection runs. *)
Lemma handle_playing_at (a : Assets) (w : World) (events : list Event) (dt : Q) p r o :
  session_at w p r o →
  let st := foldl playing_event (p, game_state w) events in
  let p1 := Player.update st.1 dt in
  let o1 := Obstacle.update (Obstacle.update o dt) dt in
  ∃ w1 w2 w3 r2 o2,
    frame_updates a w events dt = Some w1 ∧
    session_at w1 p1 r o1 ∧
    score w1 = score w ∧ speed w1 = speed w ∧ game_state w1 = st.2 ∧
    quit_game w1 = quit_game w ∧
    frame_before_collision a w events dt = Some w2 ∧
    w2 = (if passed o1 then respawn a (award w1) [r] r else w1) ∧
    session_at w2 p1 r2 o2 ∧
    o2 = (if passed o1 then (Obstacle.init a (speed (award w1)) (rng w1)).1 else o1) ∧
    collision_detection a w2 = Some w3 ∧
    w3 = (if (Player.invincibility_frame p1 <=? 0) && collide_mask p1 o2
          then let w' := respawn a (set_player w2 (hit p1)) [r2] r2 in
               if Player.health (hit p1) <=? 0
               then set_game_state w' STATE_GAME_OVER else w'
          else w2) ∧
    handle_playing a w events dt = Some (draw_hud a w3).
Proof.
  intros Hat st p1 o1.
  destruct (playing_input_at w events p r o Hat) as [Hin Hat0]. fold st in Hin, Hat0.
  destruct (playing_updates_at a _ dt _ _ _ Hat0) as [Hup Hat1].
  fold p1 o1 in Hup, Hat1.
  set (w1 := set_parallax_offsets _ _) in Hup, Hat1.
  pose proof (obstacle_management_at a w1 _ _ _ Hat1) as Hom.
  set (w2 := if passed o1 then respawn a (award w1) [r] r else w1) in Hom.
  set (r2 := if passed o1 then next_ref w1 else r).
  set (o2 := if passed o1 then (Obstacle.init a (speed (award w1)) (rng w1)).1 else o1).
  assert (session_at w2 p1 r2 o2) as Hat2.
  { subst w2 r2 o2. destruct (passed o1); [|done].
    apply (respawn_at a (award w1) p1 r o1). exact Hat1. }
  pose proof (collision_detection_at a w2 _ _ _ Hat2) as Hcd.
  eexists w1, w2, _, r2, o2.
  assert (frame_updates a w events dt = Some w1) as Hfu.
  { unfold frame_updates. rewrite Hin. exact Hup. }
  assert (frame_before_collision a w events dt = Some w2) as Hfb.
  { unfold frame_before_collision. rewrite Hfu. exact Hom. }
  split; [exact Hfu|]. split; [exact Hat1|].
  split; [done|]. split; [done|]. split; [done|]. split; [done|].
  split; [exact Hfb|]. split; [done|]. split; [exact Hat2|]. split; [done|].
  split; [exact Hcd|]. split; [reflexivity|].
  unfold handle_playing. rewrite Hfb. cbn [mbind option_bind]. rewrite Hcd. done.
Qed.

(** ** The player of a session *)

Lemma clamped_frame_in_list (l : list Surface) (i : Z) (d : Surface) :
  l ≠ [] →
  nth (Z.to_nat (Z.max 0 (Z.min i (Z.of_nat (length l) - 1)))) l d ∈ l.
Proof.
  intros Hl.
  assert (Z.to_nat (Z.max 0 (Z.min i (Z.of_nat (length l) - 1))) < length l)%nat as Hlt.
  { destruct l; [done|]. simpl length. lia. }
  apply lookup_lt_is_Some_2 in Hlt as [s Hs].
  rewrite (nth_lookup_Some _ _ _ _ Hs). by eapply list_elem_of_lookup_2.
Qed.

Lemma update_health (p : Player.t) (dt : Q) :
  Player.health (Player.update p dt) = Player.health p.
Proof.
  unfold Player.update. destruct (_ || _); [done|].
  destruct (update_tail_fields (Player.update_physics p)) as (_&_&_&->&_).
  by destruct (update_physics_fields p) as (->&_).
Qed.

Lemma update_timer (p : Player.t) (dt : Q) :
  Player.running_sprites p ≠ [] → Player.jumping_sprites p ≠ [] →
  Player.invincibility_frame (Player.update p dt) =
  if 0 <? Player.invincibility_frame p
  then Player.invincibility_frame p - 1
  else Player.invincibility_frame p.
Proof.
  intros Hr Hj. rewrite update_unfold by done.
  destruct (update_physics_fields p) as (_&Ht&_).
  unfold Player.update_invincibility, Player.update_image, Player.update_animation.
  destruct (Player.action (Player.update_physics p)); simpl; rewrite Ht;
    destruct (0 <? _); simpl; rewrite ?Ht; done.
Qed.

Lemma jump_ok (a : Assets) (p : Player.t) : player_ok a p → player_ok a (Player.jump p).
Proof. unfold player_ok, Player.jump. by destruct (Player.action p). Qed.

Lemma jump_health_timer (p : Player.t) :
  Player.health (Player.jump p) = Player.health p ∧
  Player.invincibility_frame (Player.jump p) = Player.invincibility_frame p.
Proof. unfold Player.jump. by destruct (Player.action p). Qed.

Lemma hit_ok (a : Assets) (p : Player.t) : player_ok a p → player_ok a (hit p).
Proof.
  unfold player_ok, hit. simpl. intros (?&?&?&?&?&?&?).
  repeat split; try done; unfold PLAYER_INVINCIBILITY_DURATION; lia.
Qed.

Lemma update_ok (a : Assets) (p : Player.t) (dt : Q) :
  player_ok a p → player_ok a (Player.update p dt).
Proof.
  intros Hok.
  destruct (sprite_lists_nonempty a) as [Hn1 Hn2].
  pose proof Hok as (Hx & Hrx & Hrs & Hjs & Hm & Ht & Hh).
  assert (Player.running_sprites p ≠ []) as Hr by congruence.
  assert (Player.jumping_sprites p ≠ []) as Hj by congruence.
  unfold player_ok.
  destruct (update_sprites p dt) as [-> ->].
  rewrite update_health, (update_timer p dt Hr Hj).
  split; [|split; [|split; [done|split; [done|split; [|split; [|done]]]]]].
  - rewrite update_unfold by done.
    destruct (update_tail_fields (Player.update_physics p)) as (_&_&_&_&->&_).
    by destruct (update_physics_fields p) as (_&_&->&_).
  - rewrite update_unfold by done.
    destruct (update_physics_fields p) as (_&_&Hx'&_).
    unfold Player.update_invincibility, Player.update_image, Player.update_animation.
    destruct (Player.action _); simpl; destruct (0 <? _); simpl;
      rewrite Hx', Hx; apply py_round_inject_Z.
  - rewrite update_unfold by done.
    destruct (update_physics_fields p) as (_&_&_&Hrs'&Hjs'&_).
    unfold Player.update_invincibility, Player.update_image, Player.frame_index,
      Player.update_animation.
    destruct (Player.action _); simpl; destruct (0 <? _); simpl;
      eexists; (split; [|reflexivity]); apply elem_of_app.
    + left. rewrite Hrs', Hrs. apply clamped_frame_in_list. done.
    + left. rewrite Hrs', Hrs. apply clamped_frame_in_list. done.
    + right. rewrite Hjs', Hjs. apply clamped_frame_in_list. done.
    + right. rewrite Hjs', Hjs. apply clamped_frame_in_list. done.
  - destruct (0 <? Player.invincibility_frame p) eqn:E; lia.
Qed.

Lemma init_ok (a : Assets) : player_ok a (Player.set_invincibility_frame (Player.init a) 0).
Proof.
  destruct (sprite_lists_nonempty a) as [Hn1 Hn2].
  unfold player_ok, Player.init.
  destruct (Player.sprite_lists a) as [rs js]. simpl in *.
  repeat split; try done.
  exists (hd Player.dummy_surf rs). split; [|done].
  apply elem_of_app. left. destruct rs; [done|]. simpl. apply list_elem_of_here.
Qed.

(** ** Score and speed *)

Lemma award_score (w : World) : score (award w) = score w + 1.
Proof. done. Qed.

Lemma award_speed (w : World) :
  speed (award w) =
  if (((score w + 1) `mod` SPEED_INCREASE_INTERVAL =? 0) && Qltb (speed w) MAX_SPEED)%Z
  then py_min MAX_SPEED (speed w + SPEED_INCREASE_AMOUNT)%Q
  else speed w.
Proof. done. Qed.

Lemma award_speed_mono (w : World) : (speed w <= speed (award w))%Q.
Proof.
  rewrite award_speed. destruct (_ && _) eqn:E; [|lra].
  apply andb_true_iff in E as [_ E]. apply Qltb_lt in E.
  apply py_min_glb; [lra|]. unfold SPEED_INCREASE_AMOUNT. lra.
Qed.

Lemma award_speed_cap (w : World) :
  (speed w <= MAX_SPEED)%Q → (speed (award w) <= MAX_SPEED)%Q.
Proof.
  intros H. rewrite award_speed. destruct (_ && _); [|done]. apply py_min_le_l.
Qed.

Lemma award_at (w : World) p r o : session_at w p r o → session_at (award w) p r o.
Proof. done. Qed.

(** ** A playing frame keeps the session *)

Lemma session_ok_respawn (a : Assets) (w : World) p r o :
  session_at w p r o →
  (STARTING_SPEED <= speed w <= MAX_SPEED)%Q → 0 ≤ score w → player_ok a p →
  session_ok a (respawn a w [r] r).
Proof.
  intros Hat Hs Hsc Hp.
  exists p, (next_ref w), (Obstacle.init a (speed w) (rng w)).1.
  destruct (respawn_fields a w [r] r) as (_ & -> & -> & _).
  split; [by apply (respawn_at a w p r o)|].
  split; [apply obstacle_init_fields|]. done.
Qed.

Lemma handle_playing_ok (a : Assets) (w : World) (events : list Event) (dt : Q) :
  session_ok a w →
  ∃ w', handle_playing a w events dt = Some w' ∧ session_ok a w'.
Proof.
  intros (p & r & o & Hat & Hgs & Hs & Hsc & Hp).
  destruct (handle_playing_at a w events dt p r o Hat)
    as (w1 & w2 & w3 & r2 & o2 & _ & Hat1 & Hsc1 & Hs1 & _ & _ & _ & Hw2 & Hat2 & Ho2
        & _ & Hw3 & Hhp).
  set (p1 := Player.update (foldl playing_event (p, game_state w) events).1 dt) in *.
  set (o1 := Obstacle.update (Obstacle.update o dt) dt) in *.
  assert (player_ok a p1) as Hp1.
  { apply update_ok. by apply playing_events_ind; [apply jump_ok|]. }
  assert (Obstacle.game_speed o2 = speed w2 ∧
          (STARTING_SPEED <= speed w2 <= MAX_SPEED)%Q ∧ 0 ≤ score w2) as (Hgs2 & Hs2 & Hsc2).
  { rewrite Ho2, Hw2. destruct (passed o1).
    - destruct (respawn_fields a (award w1) [r] r) as (_ & -> & -> & _).
      split; [apply obstacle_init_fields|].
      pose proof (award_speed_mono w1). pose proof (award_speed_cap w1).
      rewrite award_score. rewrite Hs1 in *. split; [lra|lia].
    - rewrite Hs1, Hsc1. subst o1. simpl. done. }
  exists (draw_hud a w3). split; [exact Hhp|].
  assert (session_ok a w3) as (p3 & r3 & o3 & Hat3 & Hrest).
  { rewrite Hw3. destruct (_ && _).
    - cbv zeta.
      assert (session_ok a (respawn a (set_player w2 (hit p1)) [r2] r2)) as Hok.
      { apply (session_ok_respawn a _ (hit p1) r2 o2); try done.
        - destruct Hat2 as (?&?&?&?). done.
        - by apply hit_ok. }
      destruct (Player.health (hit p1) <=? 0); [|done].
      destruct Hok as (p3 & r3 & o3 & Hat3 & Hrest). by exists p3, r3, o3.
    - by exists p1, r2, o2. }
  exists p3, r3, o3. split; [by apply draw_hud_at|].
  destruct (draw_hud_fields a w3) as (_ & -> & -> & _). done.
Qed.

(** ** What a playing frame does to health, timer and game state *)

Lemma playing_events_state (events : list Event) (p : Player.t) (gs : GameState) :
  (foldl playing_event (p, gs) events).2 = gs ∨
  (foldl playing_event (p, gs) events).2 = STATE_PAUSED.
Proof.
  revert p gs. induction events as [|ev events IH]; intros p gs; [by left|].
  simpl. destruct ev as [|k|b pos|]; simpl; try apply IH.
  destruct k; try apply IH.
  destruct (IH p STATE_PAUSED) as [H|H]; by right.
Qed.

Lemma handle_playing_outcome (a : Assets) (w : World) (events : list Event) (dt : Q)
      p r o :
  session_at w p r o → player_ok a p →
  let st := foldl playing_event (p, game_state w) events in
  let t1 := if 0 <? Player.invincibility_frame p
            then Player.invincibility_frame p - 1
            else Player.invincibility_frame p in
  ∃ w' p',
    handle_playing a w events dt = Some w' ∧ player w' = Some p' ∧
    quit_game w' = quit_game w ∧
    ((Player.health p' = Player.health p ∧ Player.invincibility_frame p' = t1 ∧
      game_state w' = st.2) ∨
     (t1 ≤ 0 ∧ Player.health p' = Player.health p - 1 ∧
      Player.invincibility_frame p' = PLAYER_INVINCIBILITY_DURATION ∧
      game_state w' = if Player.health p - 1 <=? 0 then STATE_GAME_OVER else st.2)).
Proof.
  intros Hat Hp st t1.
  destruct (handle_playing_at a w events dt p r o Hat)
    as (w1 & w2 & w3 & r2 & o2 & _ & Hat1 & _ & _ & Hgs1 & Hq1 & _ & Hw2 & Hat2 & _
        & _ & Hw3 & Hhp).
  fold st in Hat1, Hat2, Hw3, Hgs1.
  set (p1 := Player.update st.1 dt) in *.
  assert (player_ok a st.1) as Hp0 by (by apply playing_events_ind; [apply jump_ok|]).
  assert (Player.health p1 = Player.health p) as Hh1.
  { subst p1. rewrite update_health.
    apply (playing_events_ind (λ q, Player.health q = Player.health p)); [|done].
    intros q <-. apply jump_health_timer. }
  assert (Player.invincibility_frame p1 = t1) as Ht1.
  { destruct (sprite_lists_nonempty a) as [Hn1 Hn2].
    destruct Hp0 as (_ & _ & Hrs & Hjs & _).
    subst p1. rewrite update_timer by congruence.
    assert (Player.invincibility_frame st.1 = Player.invincibility_frame p) as ->; [|done].
    apply (playing_events_ind
             (λ q, Player.invincibility_frame q = Player.invincibility_frame p)); [|done].
    intros q <-. apply jump_health_timer. }
  assert (game_state w2 = st.2 ∧ quit_game w2 = quit_game w) as [Hgs2 Hq2].
  { rewrite Hw2. destruct (passed _); [|done].
    destruct (respawn_fields a (award w1) [r] r) as (-> & _ & _ & _ & _ & ->). done. }
  subst w3.
  destruct (Player.invincibility_frame p1 <=? 0) eqn:Et;
    [destruct (collide_mask p1 o2) eqn:Ec|]; cbn [andb] in Hhp; cbv zeta in Hhp;
    (eexists; eexists; split; [exact Hhp|]);
    match goal with
    | |- context [draw_hud a ?X] =>
        destruct (draw_hud_fields a X) as (-> & _ & _ & -> & _ & _ & _ & _ & ->)
    end.
  - destruct (respawn_fields a (set_player w2 (hit p1)) [r2] r2)
      as (Hr1 & _ & _ & Hr2 & _ & Hr3).
    assert (Player.health (hit p1) = Player.health p - 1) as Hhit
        by (unfold hit; simpl; lia).
    rewrite Hhit.
    destruct (Player.health p - 1 <=? 0);
      cbn [player game_state quit_game set_game_state]; rewrite ?Hr1, Hr2, Hr3;
      (split; [reflexivity|]); (split; [done|]);
      right; (split; [lia|]); rewrite Hhit; done.
  - destruct Hat2 as (-> & _). split; [done|]. split; [congruence|]. by left.
  - destruct Hat2 as (-> & _). split; [done|]. split; [congruence|]. by left.
Qed.

(** ** reset_game *)

Lemma reset_game_fields (a : Assets) (w : World) :
  score (reset_game a w) = 0 ∧
  speed (reset_game a w) = STARTING_SPEED ∧
  player (reset_game a w) = Some (Player.set_invincibility_frame (Player.init a) 0) ∧
  game_state (reset_game a w) = game_state w ∧
  quit_game (reset_game a w) = quit_game w ∧
  parallax_offsets (reset_game a w) = replicate (length (background_layers a)) 0%Q ∧
  session_at (reset_game a w)
             (Player.set_invincibility_frame (Player.init a) 0)
             (next_ref w)
             (Obstacle.init a STARTING_SPEED (rng w)).1.
Proof.
  unfold reset_game, session_at.
  destruct (Obstacle.init a STARTING_SPEED (rng w)) as [o g].
  cbn [score speed player game_state quit_game parallax_offsets obstacle
       obstacles_group sprites fst].
  rewrite lookup_insert_eq. done.
Qed.

Lemma init_health (a : Assets) :
  Player.health (Player.set_invincibility_frame (Player.init a) 0) = PLAYER_START_HEALTH.
Proof. unfold Player.init. by destruct (Player.sprite_lists a). Qed.

Lemma reset_game_alive (a : Assets) (w : World) : alive a (reset_game a w).
Proof.
  destruct (reset_game_fields a w) as (Hsc & Hsp & Hp & _ & _ & _ & Hat).
  split.
  - eexists _, _, _. split; [exact Hat|]. rewrite Hsc, Hsp.
    split; [apply obstacle_init_fields|].
    split; [unfold STARTING_SPEED, MAX_SPEED; lra|].
    split; [done|]. apply init_ok.
  - intros p. rewrite Hp. intros [= <-]. rewrite init_health. done.
Qed.

(** ** The invariant of the main loop *)

Lemma session_ok_set_game_state (a : Assets) (w : World) (s : GameState) :
  session_ok a w → session_ok a (set_game_state w s).
Proof. done. Qed.

Lemma session_ok_set_quit_game (a : Assets) (w : World) (b : bool) :
  session_ok a w → session_ok a (set_quit_game w b).
Proof. done. Qed.

Lemma alive_world_ok (a : Assets) (w : World) : alive a w → world_ok a w.
Proof.
  intros [Hs Hh]. right. split; [done|]. intros p Hp. specialize (Hh p Hp).
  destruct (game_state w); simpl; lia.
Qed.

Lemma alive_set_game_state (a : Assets) (w : World) (s : GameState) :
  alive a w → alive a (set_game_state w s).
Proof. done. Qed.

Lemma world_ok_set_quit_game (a : Assets) (w : World) (b : bool) :
  world_ok a w → world_ok a (set_quit_game w b).
Proof. done. Qed.

Lemma world_ok_health_nonneg (a : Assets) (w : World) (p : Player.t) :
  world_ok a w → player w = Some p → 0 ≤ Player.health p.
Proof.
  intros [(Hn & _)|[_ Hh]] Hp; [congruence|].
  specialize (Hh p Hp). destruct (game_state w); simpl in Hh; lia.
Qed.

Lemma world_ok_to_menu (a : Assets) (w : World) (s : GameState) :
  is_menu s = true → world_ok a w → world_ok a (set_game_state w s).
Proof.
  intros Hm Hok. pose proof (world_ok_health_nonneg a w) as Hnn.
  destruct Hok as [(Hn & Ho & _ & Hs)|[Hs Hh]]; [by left|].
  right. split; [done|]. intros p Hp. simpl in *.
  specialize (Hnn p (or_intror (conj Hs Hh)) Hp).
  destruct s; simpl; done.
Qed.

Lemma main_menu_event_ok (a : Assets) (w : World) (ev : Event) :
  world_ok a w → world_ok a (main_menu_event a w ev).
Proof.
  intros Hok. unfold main_menu_event.
  destruct ev as [|k|b pos|]; try done.
  destruct b as [|[| |]|]; try done.
  destruct (Rect.collidepoint MainMenu.start pos).
  { apply alive_world_ok, alive_set_game_state, reset_game_alive. }
  destruct (Rect.collidepoint MainMenu.how_to_play pos); [by apply world_ok_to_menu|].
  destruct (Rect.collidepoint MainMenu.settings pos); [by apply world_ok_to_menu|].
  destruct (Rect.collidepoint MainMenu.quit pos); done.
Qed.

Lemma instructions_event_ok (a : Assets) (w : World) (ev : Event) :
  world_ok a w → world_ok a (instructions_event w ev).
Proof.
  intros Hok. unfold instructions_event.
  destruct ev as [|k|b pos|]; try done.
  - destruct k; try done. by apply world_ok_to_menu.
  - destruct b as [|[| |]|]; try done.
    destruct (Rect.collidepoint _ _); [by apply world_ok_to_menu|done].
Qed.

Lemma settings_event_ok (a : Assets) (w : World) (ev : Event) :
  world_ok a w → world_ok a (settings_event w ev).
Proof.
  intros Hok. unfold settings_event.
  destruct ev as [|k|b pos|]; try done.
  - destruct k; try done. by apply world_ok_to_menu.
  - destruct b as [|[| |]|]; try done.
    destruct (Rect.collidepoint _ _); [by apply world_ok_to_menu|done].
Qed.

Lemma game_over_event_ok (a : Assets) (w : World) (ev : Event) :
  world_ok a w → world_ok a (game_over_event a w ev).
Proof.
  intros Hok. unfold game_over_event.
  destruct ev as [|k|b pos|]; try done.
  destruct b as [|[| |]|]; try done.
  destruct (Rect.collidepoint (GameOver.retry a) pos).
  { apply alive_world_ok, alive_set_game_state, reset_game_alive. }
  destruct (Rect.collidepoint (GameOver.menu a) pos); [by apply world_ok_to_menu|done].
Qed.

Lemma pause_event_alive (a : Assets) (w : World) (ev : Event) :
  alive a w → alive a (pause_event a w ev).
Proof.
  intros Hok. unfold pause_event.
  destruct ev as [|k|b pos|]; try done.
  - by destruct k.
  - destruct b as [|[| |]|]; try done.
    destruct (first_hit _ _) as [[]|]; done.
Qed.

Lemma foldl_invariant {A B} (P : A → Prop) (f : A → B → A) (l : list B) (x : A) :
  (∀ y b, P y → P (f y b)) → P x → P (foldl f x l).
Proof. intros Hf. revert x. induction l; simpl; auto. Qed.

Lemma world_ok_alive (a : Assets) (w : World) :
  world_ok a w → min_health (game_state w) = 1 → alive a w.
Proof.
  intros [(_ & _ & Hm & _)|[Hs Hh]] Hg.
  - destruct (game_state w); done.
  - split; [done|]. intros p Hp. specialize (Hh p Hp). lia.
Qed.

Lemma handle_playing_world_ok (a : Assets) (w : World) (events : list Event) (dt : Q) :
  alive a w →
  ∃ w', handle_playing a w events dt = Some w' ∧ world_ok a w'.
Proof.
  intros [Hs Hh].
  destruct (handle_playing_ok a w events dt Hs) as (w' & Hw' & Hs').
  exists w'. split; [done|]. right. split; [done|].
  destruct Hs as (p & r & o & Hat & _ & _ & _ & Hp).
  destruct (handle_playing_outcome a w events dt p r o Hat Hp)
    as (w'' & p' & Hw'' & Hp' & _ & Hcase).
  rewrite Hw' in Hw''. injection Hw'' as <-.
  intros q Hq. rewrite Hp' in Hq. injection Hq as <-.
  specialize (Hh p (proj1 Hat)).
  destruct Hcase as [(-> & _ & ->)|(_ & -> & _ & ->)].
  - destruct (foldl _ _ _).2; simpl; lia.
  - destruct (Player.health p - 1 <=? 0) eqn:E; simpl; [lia|].
    destruct (foldl _ _ _).2; simpl; lia.
Qed.

Lemma iteration_ok (a : Assets) (w : World) (f : Frame) :
  world_ok a w → ∃ w', iteration a w f = Some w' ∧ world_ok a w'.
Proof.
  intros Hok. unfold iteration.
  set (w0 := if existsb is_quit (events f) then set_quit_game w true else w).
  assert (world_ok a w0) as Hok0 by (subst w0; by destruct (existsb _ _)).
  clearbody w0. clear w Hok.
  destruct (game_state w0) eqn:Hg.
  - eexists. split; [reflexivity|].
    apply (foldl_invariant (world_ok a)); [|done].
    intros. by apply main_menu_event_ok.
  - apply handle_playing_world_ok. apply world_ok_alive; [done|by rewrite Hg].
  - eexists. split; [reflexivity|].
    apply alive_world_ok. apply (foldl_invariant (alive a)).
    + intros. by apply pause_event_alive.
    + apply world_ok_alive; [done|by rewrite Hg].
  - eexists. split; [reflexivity|].
    apply (foldl_invariant (world_ok a)); [|done].
    intros. by apply instructions_event_ok.
  - eexists. split; [reflexivity|].
    apply (foldl_invariant (world_ok a)); [|done].
    intros. by apply settings_event_ok.
  - eexists. split; [reflexivity|].
    apply (foldl_invariant (world_ok a)); [|done].
    intros. by apply game_over_event_ok.
Qed.

(** The main loop never raises, and keeps the invariant. *)
Lemma main_loop_ok (a : Assets) (fs : list Frame) (w : World) :
  world_ok a w → ∃ w', main_loop a w fs = Some w' ∧ world_ok a w'.
Proof.
  revert w. induction fs as [|f fs IH]; intros w Hok; simpl.
  - by exists w.
  - destruct (quit_game w); [by exists w|].
    destruct (iteration_ok a w f Hok) as (w1 & -> & Hok1). simpl.
    by apply IH.
Qed.

Lemma initial_world_ok (a : Assets) (g : Rng) : world_ok a (initial_world g).
Proof. by left. Qed.

Lemma reachable_ok (a : Assets) (w : World) : reachable a w → world_ok a w.
Proof.
  intros (g & fs & H).
  destruct (main_loop_ok a fs _ (initial_world_ok a g)) as (w' & H' & Hok).
  congruence.
Qed.

(** ** Health and game over *)

Lemma handle_game_over_stays (a : Assets) (w : World) (l : list Event) :
  Forall (λ ev, leaves_game_over a ev = false) l →
  handle_game_over a w l = w.
Proof.
  unfold handle_game_over. induction 1 as [|ev l Hev _ IH]; [done|].
  simpl. rewrite <- IH at 2. f_equal.
  unfold game_over_event, leaves_game_over in *.
  destruct ev as [|k|b pos|]; try done.
  destruct b as [|[| |]|]; try done.
  apply orb_false_iff in Hev as [-> ->]. done.
Qed.

(** C1.  In every world the main loop reaches, the player's health is
    between 0 and the starting health, and at least 1 while the game is
    playing or paused.  A playing frame of such a world returns, and it
    leaves the game in the game-over state exactly when it leaves the
    health at 0.  In the game-over state an iteration whose events hold
    no click on Retry or Main Menu changes nothing but the quit flag:
    no playing update runs. *)
Theorem health_bounded_and_game_over (a : Assets) :
  (∀ w p, reachable a w → player w = Some p →
     (0 ≤ Player.health p ≤ PLAYER_START_HEALTH) ∧
     (game_state w = STATE_PLAYING ∨ game_state w = STATE_PAUSED →
      1 ≤ Player.health p) ∧
     (game_state w = STATE_PLAYING →
      ∀ events dt, ∃ w' p',
        handle_playing a w events dt = Some w' ∧ player w' = Some p' ∧
        (Player.health p' = 0 ↔ game_state w' = STATE_GAME_OVER))) ∧
  (∀ w f, game_state w = STATE_GAME_OVER →
     Forall (λ ev, leaves_game_over a ev = false) (events f) →
     iteration a w f =
     Some (if existsb is_quit (events f) then set_quit_game w true else w)).
Proof.
  split.
  - intros w p Hr Hp. apply reachable_ok in Hr.
    pose proof (world_ok_health_nonneg a w p Hr Hp) as Hnn.
    destruct Hr as [(Hn & _)|[Hs Hh]]; [congruence|].
    pose proof (Hh p Hp) as Hmin.
    destruct Hs as (p0 & r & o & Hat & Hgs & Hsp & Hsc & Hok).
    assert (p0 = p) as -> by (destruct Hat as (Hp0 & _); congruence).
    split; [|split].
    + destruct Hok as (_&_&_&_&_&_&?). lia.
    + intros [Hg|Hg]; rewrite Hg in Hmin; exact Hmin.
    + intros Hg events dt. rewrite Hg in Hmin. simpl in Hmin.
      destruct (handle_playing_outcome a w events dt p r o Hat Hok)
        as (w' & p' & Hw' & Hp' & _ & Hcase).
      exists w', p'. split; [done|]. split; [done|].
      pose proof (playing_events_state events p (game_state w)) as Hst.
      rewrite Hg in Hst, Hcase.
      destruct Hcase as [(-> & _ & ->)|(_ & -> & _ & ->)].
      * split; [lia|]. destruct Hst as [-> | ->]; done.
      * destruct (Player.health p - 1 <=? 0) eqn:E.
        -- split; [done|]. lia.
        -- split; [lia|]. destruct Hst as [-> | ->]; done.
  - intros w f Hg Hev. unfold iteration.
    destruct (existsb is_quit (events f)); cbn [game_state set_quit_game];
      rewrite Hg; by rewrite handle_game_over_stays.
Qed.

Lemma health_bounded_and_game_over_witness :
  (0 ≤ Player.health (player_after start_only) ≤ PLAYER_START_HEALTH) ∧
  (1 ≤ Player.health (player_after start_only)) ∧
  (∃ w' p',
     handle_playing sample_assets (world_after start_only) [] (1250 # 1000) = Some w' ∧
     player w' = Some p' ∧
     (Player.health p' = 0 ↔ game_state w' = STATE_GAME_OVER)) ∧
  iteration sample_assets (world_after three_hits) (mkFrame 16 [KEYDOWN K_SPACE])
  = Some (world_after three_hits).
Proof.
  assert (reachable sample_assets (world_after start_only)) as R.
  { exists [1; 2; 3]%nat, start_only. vm_compute. reflexivity. }
  assert (player (world_after start_only) = Some (player_after start_only)) as P.
  { vm_compute. reflexivity. }
  destruct (health_bounded_and_game_over sample_assets) as [Hlive Hover].
  destruct (Hlive _ _ R P) as (H1 & H2 & H3).
  split; [exact H1|]. split; [|split].
  - apply H2. left. vm_compute. reflexivity.
  - apply H3. vm_compute. reflexivity.
  - apply (Hover (world_after three_hits) (mkFrame 16 [KEYDOWN K_SPACE])).
    + vm_compute. reflexivity.
    + repeat constructor.
Defined.

(** The run [three_hits] ends the game: three collisions, the last of
    which leaves the health at 0 and the game in the game-over state. *)
Example three_hits_end_the_game :
  (game_state (world_after three_hits), Player.health (player_after three_hits),
   Player.health (player_after two_hits))
  = (STATE_GAME_OVER, 0, 1).
Proof. vm_compute. reflexivity. Qed.

(** ** Obstacle motion *)

Lemma reachable_session (a : Assets) (w : World) (r : nat) :
  reachable a w → obstacle w = Some r → session_ok a w.
Proof.
  intros Hr Ho. apply reachable_ok in Hr as [(_ & Hn & _)|[Hs _]]; [congruence|done].
Qed.

Lemma reachable_playing (a : Assets) (w : World) :
  reachable a w → game_state w = STATE_PLAYING → alive a w.
Proof.
  intros Hr Hg. apply world_ok_alive; [by apply reachable_ok|]. by rewrite Hg.
Qed.

(** ** Rounding to double *)




Lemma pow2_lt (a b : Z) : a < b → (pow2 a < pow2 b)%Q.
Proof. intros H. apply Qpower_lt_compat_l; [done|reflexivity]. Qed.































(** ** Obstacle.update in double precision *)








(** C6, the rounding behind the amendment: a displacement that is
    positive but below half the spacing of the doubles at [x] is
    absorbed.  At [x = 800] and speed 5, [update(1e-18)] leaves [x] at
    800; two updates of a millisecond take it to 799.4000000000001
    and a frame of 17 ms to 794.9. *)
Example obstacle_update_absorbed :
  (0 < double (1 # 10 ^ 18))%Q ∧
  (0 < displacement_double 5 (double (1 # 10 ^ 18)))%Q ∧
  Obstacle.x <$> Obstacle_update_double (obstacle_at 800 5) (double (1 # 10 ^ 18))
  = Some 800%Q ∧
  Obstacle.x <$> (Obstacle_update_double (obstacle_at 800 5) (frame_dt 1)
                  ≫= λ o, Obstacle_update_double o (frame_dt 1))
  = Some (1757899190488269 # 2199023255552)%Q ∧
  Obstacle.x <$> Obstacle_update_double (obstacle_at 800 5) (frame_dt 17)
  = Some (6992014343353139 # 8796093022208)%Q.
Proof. vm_compute. repeat split. Qed.

(** ** Score and speed in a playing frame *)

Lemma handle_playing_score_speed (a : Assets) (w : World) (events : list Event)
      (dt : Q) p r o :
  session_at w p r o →
  ∃ w1 w',
    frame_updates a w events dt = Some w1 ∧
    score w1 = score w ∧
    session_at w1 (Player.update (foldl playing_event (p, game_state w) events).1 dt) r
               (Obstacle.update (Obstacle.update o dt) dt) ∧
    handle_playing a w events dt = Some w' ∧
    score w' = score w +
               (if passed (Obstacle.update (Obstacle.update o dt) dt) then 1 else 0) ∧
    speed w' = if passed (Obstacle.update (Obstacle.update o dt) dt)
               then speed (award w) else speed w.
Proof.
  intros Hat.
  destruct (handle_playing_at a w events dt p r o Hat)
    as (w1 & w2 & w3 & r2 & o2 & Hfu & Hat1 & Hsc1 & Hs1 & _ & _ & _ & Hw2 & _ & _
        & _ & Hw3 & Hhp).
  exists w1, (draw_hud a w3).
  split; [done|]. split; [done|]. split; [done|]. split; [done|].
  destruct (draw_hud_fields a w3) as (_ & -> & -> & _).
  assert (score w3 = score w2 ∧ speed w3 = speed w2) as [-> ->].
  { rewrite Hw3. destruct (_ && _); [|done]. cbv zeta.
    destruct (respawn_fields a (set_player w2 (hit (Player.update
               (foldl playing_event (p, game_state w) events).1 dt))) [r2] r2)
      as (_ & Hsc & Hsp & _).
    destruct (_ <=? 0); cbn [score speed set_game_state]; rewrite Hsc, Hsp; done. }
  rewrite Hw2. destruct (passed _).
  - destruct (respawn_fields a (award w1) [r] r) as (_ & -> & -> & _).
    rewrite award_score, !award_speed, Hsc1, Hs1. done.
  - split; [lia|done].
Qed.

Lemma session_of_alive (a : Assets) (w : World) :
  alive a w → ∃ p r o, session_at w p r o ∧ player_ok a p ∧
                       (speed w <= MAX_SPEED)%Q.
Proof.
  intros [(p & r & o & Hat & _ & [_ Hs] & _ & Hok) _]. by exists p, r, o.
Qed.

(** C2.  [reset_game()] sets the speed to the starting speed; the speed
    of every world the main loop reaches is at most the cap; and a
    playing frame of such a world returns a world whose speed is not
    smaller.  The speed grows in the frame exactly when the frame
    raises the score to a multiple of the interval while the speed is
    below the cap, and it is then the smaller of the cap and the old
    speed plus the increment; in every other frame it is unchanged. *)
Theorem speed_ratchet (a : Assets) :
  (∀ w, speed (reset_game a w) = STARTING_SPEED) ∧
  (∀ w, reachable a w → (speed w <= MAX_SPEED)%Q) ∧
  (∀ w events dt,
     reachable a w → game_state w = STATE_PLAYING →
     ∃ w', handle_playing a w events dt = Some w' ∧
           (speed w <= speed w')%Q ∧ (speed w' <= MAX_SPEED)%Q ∧
           ((speed w < speed w')%Q ↔
            (score w' = score w + 1 ∧ score w' `mod` SPEED_INCREASE_INTERVAL = 0 ∧
             (speed w < MAX_SPEED)%Q)) ∧
           ((speed w < speed w')%Q →
            speed w' = py_min MAX_SPEED (speed w + SPEED_INCREASE_AMOUNT)%Q) ∧
           (¬ (speed w < speed w')%Q → speed w' = speed w)).
Proof.
  split; [|split].
  - intros w. apply reset_game_fields.
  - intros w Hr. apply reachable_ok in Hr as [(_ & _ & _ & ->)|[Hs _]].
    + discriminate.
    + destruct Hs as (_ & _ & _ & _ & _ & [_ H] & _). exact H.
  - intros w events dt Hr Hg.
    destruct (session_of_alive a w (reachable_playing a w Hr Hg))
      as (p & r & o & Hat & _ & Hcap).
    destruct (handle_playing_score_speed a w events dt p r o Hat)
      as (w1 & w' & _ & _ & _ & Hw' & Hsc & Hsp).
    exists w'. split; [done|]. rewrite Hsc, Hsp.
    pose proof (award_speed_mono w) as Hmono.
    pose proof (award_speed_cap w Hcap) as Hcap'.
    destruct (passed _).
    + rewrite award_speed in *.
      destruct ((score w + 1) `mod` SPEED_INCREASE_INTERVAL =? 0) eqn:Em;
        destruct (Qltb (speed w) MAX_SPEED) eqn:El; cbn [andb] in *;
        [apply Z.eqb_eq in Em; apply Qltb_lt in El;
         assert (speed w < py_min MAX_SPEED (speed w + SPEED_INCREASE_AMOUNT))%Q
           by (apply py_min_glb_lt; [done|]; unfold SPEED_INCREASE_AMOUNT; lra)
        |apply Z.eqb_eq in Em; apply Qltb_ge in El
        |apply Z.eqb_neq in Em; apply Qltb_lt in El
        |apply Z.eqb_neq in Em; apply Qltb_ge in El];
        repeat split; intros; destruct_and?;
          first [done | lra | lia | tauto | (exfalso; lra)].
    + repeat split; intros; destruct_and?;
        first [done | lra | lia | tauto | (exfalso; lra)].
Qed.

Lemma speed_ratchet_witness :
  (speed (world_after (passes 3)) <= MAX_SPEED)%Q ∧
  ∃ w', handle_playing sample_assets (world_after (passes 3)) [] (2 # 1) = Some w' ∧
        (speed (world_after (passes 3)) <= speed w')%Q.
Proof.
  assert (reachable sample_assets (world_after (passes 3))) as R.
  { exists [1; 2; 3]%nat, (passes 3). vm_compute. reflexivity. }
  destruct (speed_ratchet sample_assets) as (_ & Hcap & Hstep).
  split; [exact (Hcap _ R)|].
  destruct (Hstep (world_after (passes 3)) [] (2 # 1)%Q R) as (w' & Hw' & Hle & _).
  - vm_compute. reflexivity.
  - exists w'. split; [exact Hw'|exact Hle].
Defined.

(** The scenario of four passes without a collision: the score is 4 and
    the speed has grown once, from 5 to 5.4; one pass earlier it was
    still 5. *)
Example four_passes :
  score (world_after (passes 3)) = 3 ∧
  (speed (world_after (passes 3)) == 5 # 1)%Q ∧
  score (world_after (passes 4)) = 4 ∧
  (speed (world_after (passes 4)) == 54 # 10)%Q.
Proof. vm_compute. repeat split. Qed.

(** ** Award and damage in one frame *)

Lemma reachable_player_session (a : Assets) (w : World) (p : Player.t) :
  reachable a w → player w = Some p → session_ok a w.
Proof.
  intros Hr Hp. apply reachable_ok in Hr as [(Hn & _)|[Hs _]]; [congruence|done].
Qed.

(** A mask placed at or beyond the right edge of another overlaps none
    of its bits. *)
Lemma overlap_far (m1 m2 : Mask) (off : Z * Z) :
  mask_w m1 ≤ off.1 → overlap m1 m2 off = false.
Proof.
  intros Hfar. unfold overlap.
  destruct (existsb _ _) eqn:E; [|done].
  apply existsb_exists in E as (i & Hi & E).
  apply existsb_exists in E as (j & _ & E).
  apply list_elem_of_In, elem_of_seqZ in Hi.
  apply andb_true_iff in E as [_ E]. unfold mask_bit in E.
  repeat (apply andb_true_iff in E as [E _]).
  apply Z.leb_le in E. lia.
Qed.

Lemma narrow_player_misses (a : Assets) (p : Player.t) (o : Obstacle.t) :
  sprites_narrow a → player_ok a p →
  GAME_WIDTH ≤ Rect.x (Obstacle.rect o) → collide_mask p o = false.
Proof.
  intros Hn (_ & Hx & _ & _ & (s & Hs & Hm) & _) Hfar.
  unfold collide_mask. apply overlap_far. cbn [fst].
  rewrite Hm, Hx. cbn [mask_w from_surface].
  unfold sprites_narrow in Hn. rewrite Forall_forall in Hn.
  specialize (Hn s Hs). lia.
Qed.

Lemma frame_player (a : Assets) (p : Player.t) (gs : GameState)
      (events : list Event) (dt : Q) :
  player_ok a p →
  player_ok a (Player.update (foldl playing_event (p, gs) events).1 dt) ∧
  Player.health (Player.update (foldl playing_event (p, gs) events).1 dt)
  = Player.health p.
Proof.
  intros Hok. split.
  - apply update_ok. by apply playing_events_ind; [apply jump_ok|].
  - rewrite update_health.
    apply (playing_events_ind (λ q, Player.health q = Player.health p)); [|done].
    intros q <-. apply jump_health_timer.
Qed.

(** With narrow sprites a playing frame awards a point or deals damage,
    never both. *)
Lemma frame_award_or_damage (a : Assets) (w : World) (p : Player.t)
      (events : list Event) (dt : Q) :
  sprites_narrow a →
  reachable a w → game_state w = STATE_PLAYING → player w = Some p →
  ∃ w' p',
    handle_playing a w events dt = Some w' ∧ player w' = Some p' ∧
    ((score w' = score w + 1 ∧ Player.health p' = Player.health p) ∨
     (score w' = score w ∧
      (Player.health p' = Player.health p ∨
       Player.health p' = Player.health p - 1))).
Proof.
  intros Hn Hr Hg Hp.
  destruct (reachable_player_session a w p Hr Hp)
    as (p0 & r & o & Hat & _ & _ & _ & Hok).
  assert (p0 = p) as -> by (destruct Hat as (Hp0 & _); congruence).
  destruct (handle_playing_at a w events dt p r o Hat)
    as (w1 & w2 & w3 & r2 & o2 & _ & _ & _ & _ & _ & _ & _ & _ & Hat2 & Ho2
        & _ & Hw3 & Hhp).
  destruct (handle_playing_score_speed a w events dt p r o Hat)
    as (w1' & w' & _ & _ & _ & Hw' & Hsc & _).
  rewrite Hhp in Hw'. injection Hw' as <-.
  destruct (handle_playing_outcome a w events dt p r o Hat Hok)
    as (w'' & p' & Hw'' & Hp' & _ & Hcase).
  rewrite Hhp in Hw''. injection Hw'' as <-.
  exists (draw_hud a w3), p'. split; [done|]. split; [done|].
  rewrite Hsc.
  destruct (frame_player a p (game_state w) events dt Hok) as [Hok1 Hh1].
  set (p1 := Player.update (foldl playing_event (p, game_state w) events).1 dt) in *.
  destruct (passed _).
  + left. split; [done|].
    assert (collide_mask p1 o2 = false) as Hmiss.
    { apply (narrow_player_misses a); [done|done|]. rewrite Ho2.
      destruct (obstacle_init_fields a (speed (award w1)) (rng w1))
        as (_ & _ & -> & _). done. }
    rewrite Hmiss, andb_false_r in Hw3. subst w3.
    destruct (draw_hud_fields a w2) as (_ & _ & _ & Hpl & _).
    rewrite Hpl in Hp'. destruct Hat2 as (Hp2 & _). congruence.
  + right. split; [lia|].
    destruct Hcase as [(-> & _)|(_ & -> & _)]; [by left|by right].
Qed.

(** ** Score *)

Lemma collision_detection_score (a : Assets) (w2 w3 : World) :
  collision_detection a w2 = Some w3 → score w3 = score w2.
Proof.
  unfold collision_detection.
  destruct (player w2) as [p|]; [|done].
  destruct (obstacles_group w2) as [g|]; [|done]. cbn [mbind option_bind].
  destruct (_ <=? 0); [|by intros [= <-]].
  destruct (spritecollide p g (sprites w2)) as [|c l]; [by intros [= <-]|].
  destruct (respawn_fields a (set_player w2 (hit p)) g c) as (_ & Hsc & _).
  destruct (_ <=? 0); intros [= <-]; cbn [score set_game_state]; rewrite Hsc; done.
Qed.

(** C4.  A playing frame of a world the main loop reaches returns, and
    its score is the old score plus 1 if the tracked obstacle, after
    the update calls of the frame, is off-screen left
    ([rect.right < 0]) and plus 0 otherwise; the update calls leave the
    score alone, and so does the collision detection, whether or not it
    deals damage.  With player sprites narrower than
    [GAME_WIDTH - PLAYER_START_X], a frame in which the health drops
    leaves the score as it was. *)
Theorem score_counts_passes (a : Assets) :
  (∀ w events dt,
     reachable a w → game_state w = STATE_PLAYING →
     ∃ w1 r o1 w',
       frame_updates a w events dt = Some w1 ∧ score w1 = score w ∧
       obstacle w1 = Some r ∧ sprites w1 !! r = Some o1 ∧
       handle_playing a w events dt = Some w' ∧
       score w' = score w + (if passed o1 then 1 else 0)) ∧
  (∀ w2 w3, collision_detection a w2 = Some w3 → score w3 = score w2) ∧
  (sprites_narrow a →
   ∀ w p events dt,
     reachable a w → game_state w = STATE_PLAYING → player w = Some p →
     ∃ w' p',
       handle_playing a w events dt = Some w' ∧ player w' = Some p' ∧
       (Player.health p' < Player.health p → score w' = score w)).
Proof.
  split; [|split; [apply collision_detection_score|]].
  - intros w events dt Hr Hg.
    destruct (session_of_alive a w (reachable_playing a w Hr Hg))
      as (p & r & o & Hat & _ & _).
    destruct (handle_playing_score_speed a w events dt p r o Hat)
      as (w1 & w' & Hfu & Hsc1 & (_ & Hr1 & _ & Ho1) & Hw' & Hsc & _).
    by exists w1, r, (Obstacle.update (Obstacle.update o dt) dt), w'.
  - intros Hn w p events dt Hr Hg Hp.
    destruct (frame_award_or_damage a w p events dt Hn Hr Hg Hp)
      as (w' & p' & Hw' & Hp' & Hcase).
    exists w', p'. split; [done|]. split; [done|].
    destruct Hcase as [[_ Hh]|[Hs _]]; [lia|done].
Qed.

Lemma score_counts_passes_witness :
  (∃ w1 r o1 w',
     frame_updates sample_assets (world_after start_only) [] (2 # 1) = Some w1 ∧
     score w1 = score (world_after start_only) ∧
     obstacle w1 = Some r ∧ sprites w1 !! r = Some o1 ∧
     handle_playing sample_assets (world_after start_only) [] (2 # 1) = Some w' ∧
     score w' = score (world_after start_only) + (if passed o1 then 1 else 0)) ∧
  score after_collision = score at_collision ∧
  (∃ w' p',
     handle_playing sample_assets (world_after start_only) [] (5 # 4) = Some w' ∧
     player w' = Some p' ∧
     (Player.health p' < Player.health (player_after start_only) →
      score w' = score (world_after start_only))).
Proof.
  assert (reachable sample_assets (world_after start_only)) as R.
  { exists [1; 2; 3]%nat, start_only. vm_compute. reflexivity. }
  destruct (score_counts_passes sample_assets) as (Hframe & Hcoll & Hdmg).
  split; [|split].
  - apply (Hframe (world_after start_only) [] (2 # 1)%Q R).
    vm_compute. reflexivity.
  - apply Hcoll. vm_compute. reflexivity.
  - apply (Hdmg ltac:(unfold sprites_narrow; vm_compute; repeat constructor)
                (world_after start_only) (player_after start_only) [] (5 # 4)%Q R).
    + vm_compute. reflexivity.
    + vm_compute. reflexivity.
Defined.

(** In the frame of the first collision the health drops and the score
    stays: the check dealt damage and awarded nothing. *)
Example collision_awards_nothing :
  (Player.health <$> player at_collision, Player.health <$> player after_collision,
   score at_collision, score after_collision)
  = (Some 3, Some 2, 0, 0).
Proof. vm_compute. reflexivity. Qed.

(** ** The invincibility window *)

Lemma window_frames (a : Assets) (fs : list (list Event * Q)) (w : World) (p : Player.t) :
  session_ok a w → player w = Some p →
  Z.of_nat (length fs) < Player.invincibility_frame p →
  ∃ w' p', play_frames a w fs = Some w' ∧ player w' = Some p' ∧
           Player.health p' = Player.health p ∧
           Player.invincibility_frame p' =
           Player.invincibility_frame p - Z.of_nat (length fs).
Proof.
  revert w p. induction fs as [|f fs IH]; intros w p Hs Hp Hlen.
  - exists w, p. simpl. repeat split; try done. lia.
  - simpl length in *. cbn [play_frames].
    destruct (handle_playing_ok a w f.1 f.2 Hs) as (w1 & Hw1 & Hs1).
    destruct Hs as (p0 & r & o & Hat & _ & _ & _ & Hok).
    assert (p0 = p) as -> by (destruct Hat as (Hp0 & _); congruence).
    destruct (handle_playing_outcome a w f.1 f.2 p r o Hat Hok)
      as (w1' & p1 & Hw1' & Hp1 & _ & Hcase).
    rewrite Hw1 in Hw1'. injection Hw1' as <-.
    rewrite Hw1. cbn [mbind option_bind].
    assert ((0 <? Player.invincibility_frame p) = true) as E by lia.
    rewrite E in Hcase.
    destruct Hcase as [(Hh & Ht & _)|(Ht & _)]; [|lia].
    destruct (IH w1 p1 Hs1 Hp1) as (w' & p' & Hw' & Hp' & Hh' & Ht'); [lia|].
    exists w', p'. repeat split; try done; lia.
Qed.

(** C3.  The collision detection leaves the world as it is when the
    player's timer is above 0, whatever the masks; when the timer is 0
    and the mask of a group member overlaps the player's, it takes
    exactly 1 from the health and sets the timer to the invincibility
    duration; these are the only changes of health it makes.  And in a
    world the main loop reaches, any run of fewer consecutive playing
    frames than the timer's value leaves the health as it was, the
    timer counting down by one per frame. *)
Theorem invincibility_window (a : Assets) :
  (∀ w2 w3 p,
     collision_detection a w2 = Some w3 → player w2 = Some p →
     (0 < Player.invincibility_frame p → w3 = w2) ∧
     (∀ p', player w3 = Some p' → Player.health p' ≠ Player.health p →
            Player.invincibility_frame p ≤ 0 ∧
            Player.health p' = Player.health p - 1 ∧
            Player.invincibility_frame p' = PLAYER_INVINCIBILITY_DURATION)) ∧
  (∀ w2 p g,
     player w2 = Some p → obstacles_group w2 = Some g →
     Player.invincibility_frame p ≤ 0 → spritecollide p g (sprites w2) ≠ [] →
     ∃ w3 p', collision_detection a w2 = Some w3 ∧ player w3 = Some p' ∧
              Player.health p' = Player.health p - 1 ∧
              Player.invincibility_frame p' = PLAYER_INVINCIBILITY_DURATION) ∧
  (∀ w p fs,
     reachable a w → player w = Some p →
     Z.of_nat (length fs) < Player.invincibility_frame p →
     ∃ w' p', play_frames a w fs = Some w' ∧ player w' = Some p' ∧
              Player.health p' = Player.health p ∧
              Player.invincibility_frame p' =
              Player.invincibility_frame p - Z.of_nat (length fs)).
Proof.
  split; [|split].
  - intros w2 w3 p. unfold collision_detection. intros H Hp. rewrite Hp in H.
    destruct (obstacles_group w2) as [g|]; [|done]. cbn [mbind option_bind] in H.
    destruct (Player.invincibility_frame p <=? 0) eqn:Et.
    + split; [lia|].
      destruct (spritecollide p g (sprites w2)) as [|c l].
      { injection H as <-. intros p'. rewrite Hp. intros [= <-]. done. }
      destruct (respawn_fields a (set_player w2 (hit p)) g c) as (_ & _ & _ & Hpl & _).
      intros p' Hp' _.
      assert (p' = hit p) as ->.
      { destruct (Player.health (hit p) <=? 0); injection H as <-;
          cbn [player set_game_state] in Hp'; rewrite Hpl in Hp'; simpl in Hp';
          congruence. }
      split; [lia|]. done.
    + injection H as <-. split; [done|].
      intros p'. rewrite Hp. intros [= <-]. done.
  - intros w2 p g Hp Hg Ht Hc. unfold collision_detection. rewrite Hp, Hg.
    cbn [mbind option_bind].
    assert ((Player.invincibility_frame p <=? 0) = true) as -> by lia.
    destruct (spritecollide p g (sprites w2)) as [|c l]; [done|].
    destruct (respawn_fields a (set_player w2 (hit p)) g c) as (_ & _ & _ & Hpl & _).
    eexists _, (hit p). split; [reflexivity|].
    split; [|done].
    destruct (Player.health (hit p) <=? 0); cbn [player set_game_state];
      by rewrite Hpl.
  - intros w p fs Hr Hp Hlen.
    apply (window_frames a fs w p); try done.
    by apply (reachable_player_session a w p).
Qed.

Lemma invincibility_window_witness :
  checked in_window = in_window ∧
  (∃ w3 p', collision_detection sample_assets at_collision = Some w3 ∧
            player w3 = Some p' ∧
            Player.health p' = Player.health (the_player at_collision) - 1 ∧
            Player.invincibility_frame p' = PLAYER_INVINCIBILITY_DURATION) ∧
  (∃ w' p', play_frames sample_assets (world_after one_hit)
                        (replicate 59 ([], 5 # 4)%Q) = Some w' ∧
            player w' = Some p' ∧
            Player.health p' = Player.health (player_after one_hit) ∧
            Player.invincibility_frame p' =
            Player.invincibility_frame (player_after one_hit) - 59).
Proof.
  destruct (invincibility_window sample_assets) as (Hskip & Hhit & Hwin).
  split; [|split].
  - destruct (Hskip in_window (checked in_window) (the_player in_window))
      as [Hsame _]; [vm_compute; reflexivity|vm_compute; reflexivity|].
    apply Hsame. vm_compute. reflexivity.
  - apply (Hhit at_collision (the_player at_collision) [0%nat]).
    + vm_compute. reflexivity.
    + vm_compute. reflexivity.
    + vm_compute. discriminate.
    + vm_compute. discriminate.
  - apply (Hwin (world_after one_hit) (player_after one_hit)
                (replicate 59 ([], 5 # 4)%Q)).
    + exists [1; 2; 3]%nat, one_hit. vm_compute. reflexivity.
    + vm_compute. reflexivity.
    + vm_compute. reflexivity.
Defined.

(** Inside the window the masks can overlap without damage: one long
    frame after the first hit the new obstacle is on the runner, and
    the collision detection leaves the world, health 2 included, as it
    is. *)
Example overlap_ignored_in_window :
  (Player.health <$> player in_window,
   Player.invincibility_frame <$> player in_window,
   (λ p, spritecollide p [1%nat] (sprites in_window)) <$> player in_window,
   Player.health <$> (collision_detection sample_assets in_window ≫= player))
  = (Some 2, Some 59, Some [1%nat], Some 2).
Proof. vm_compute. reflexivity. Qed.

(** ** Award and damage exclude each other: the claim *)

(** C10.  If every frame of the player's animations is narrower than
    [GAME_WIDTH - PLAYER_START_X], then the player of a world the main
    loop reaches overlaps no obstacle whose rectangle starts at
    [GAME_WIDTH] or beyond, and a playing frame of such a world either
    raises the score by 1 and leaves the health as it was, or leaves
    the score as it was and takes at most 1 from the health: no frame
    does both. *)
Theorem award_excludes_damage (a : Assets) :
  sprites_narrow a →
  (∀ w p o, reachable a w → player w = Some p →
            GAME_WIDTH ≤ Rect.x (Obstacle.rect o) → collide_mask p o = false) ∧
  (∀ w p events dt,
     reachable a w → game_state w = STATE_PLAYING → player w = Some p →
     ∃ w' p',
       handle_playing a w events dt = Some w' ∧ player w' = Some p' ∧
       ((score w' = score w + 1 ∧ Player.health p' = Player.health p) ∨
        (score w' = score w ∧
         (Player.health p' = Player.health p ∨
          Player.health p' = Player.health p - 1)))).
Proof.
  intros Hn. split.
  - intros w p o Hr Hp Hfar.
    destruct (reachable_player_session a w p Hr Hp)
      as (p0 & r & o' & (Hp0 & _) & _ & _ & _ & Hok).
    assert (p0 = p) as -> by congruence.
    by apply (narrow_player_misses a).
  - intros w p events dt Hr Hg Hp. by apply frame_award_or_damage.
Qed.

Lemma award_excludes_damage_witness :
  collide_mask (player_after start_only) (obstacle_after start_only) = false ∧
  ∃ w' p',
    handle_playing sample_assets (world_after start_only) [] (2 # 1) = Some w' ∧
    player w' = Some p' ∧
    ((score w' = score (world_after start_only) + 1 ∧
      Player.health p' = Player.health (player_after start_only)) ∨
     (score w' = score (world_after start_only) ∧
      (Player.health p' = Player.health (player_after start_only) ∨
       Player.health p' = Player.health (player_after start_only) - 1))).
Proof.
  assert (sprites_narrow sample_assets) as Hn.
  { unfold sprites_narrow. vm_compute. repeat constructor. }
  assert (reachable sample_assets (world_after start_only)) as R.
  { exists [1; 2; 3]%nat, start_only. vm_compute. reflexivity. }
  assert (player (world_after start_only) = Some (player_after start_only)) as P.
  { vm_compute. reflexivity. }
  destruct (award_excludes_damage sample_assets Hn) as [Hmiss Hframe].
  split.
  - apply (Hmiss (world_after start_only)); [exact R|exact P|].
    vm_compute. discriminate.
  - apply (Hframe (world_after start_only) (player_after start_only) [] (2 # 1)%Q R);
      [|exact P].
    vm_compute. reflexivity.
Defined.

(** ** Respawn *)

(** C5.  Code evaluated at the respawn.  Whatever the random draws, the
    obstacle that replaces a passed or collided one starts at
    [GAME_WIDTH] exactly: the replacement consumes one draw, for the
    variant, copies the global speed, and draws no spawn offset.  In
    the sample game the obstacle that follows the first pass starts at
    800 with the draw 3 unused, where [Obstacle.reset], on the same
    draws, puts it at 803. *)
Theorem respawn_without_spawn_offset :
  (∀ a w g old,
     ∃ r o,
       obstacle (respawn a w g old) = Some r ∧
       sprites (respawn a w g old) !! r = Some o ∧
       Obstacle.x o = inject_Z GAME_WIDTH ∧
       Rect.x (Obstacle.rect o) = GAME_WIDTH ∧
       Obstacle.game_speed o = speed w ∧
       Obstacle.image o =
         nth (hd 0%nat (rng w)
              `mod` length (Obstacle.images_or_placeholder (loaded_obstacle_images a)))%nat
             (Obstacle.images_or_placeholder (loaded_obstacle_images a))
             Obstacle.placeholder ∧
       rng (respawn a w g old) = tl (rng w)) ∧
  (score (world_after start_and_pass) = 1 ∧
   Obstacle.x (obstacle_after start_and_pass) = inject_Z 800 ∧
   rng (world_after start_only) = [2; 3]%nat ∧
   rng (world_after start_and_pass) = [3]%nat ∧
   Obstacle.x (Obstacle.reset (obstacle_after start_only)
                              (speed (world_after start_only))
                              (rng (world_after start_only))).1 = inject_Z 803).
Proof.
  split.
  - intros a w g old.
    pose proof (obstacle_init_fields a (speed w) (rng w)) as (H1 & H2 & H3 & _ & H5).
    unfold respawn.
    assert ((Obstacle.init a (speed w) (rng w)).2 = tl (rng w)) as Hrng.
    { unfold Obstacle.init, choice, randbelow. by destruct (rng w). }
    destruct (Obstacle.init a (speed w) (rng w)) as [o g'].
    exists (next_ref w), o. cbn [obstacle sprites rng fst snd] in *.
    rewrite lookup_insert_eq. done.
  - vm_compute. repeat split.
Qed.

(** * Further properties of the code *)

(** ** A playing frame, whatever the world *)

Lemma handle_playing_inv (a : Assets) (w w' : World) (events : list Event) (dt : Q) :
  handle_playing a w events dt = Some w' →
  ∃ p w1 w2 w3,
    player w = Some p ∧
    playing_updates a
      (set_game_state (set_player w (foldl playing_event (p, game_state w) events).1)
                      (foldl playing_event (p, game_state w) events).2) dt = Some w1 ∧
    obstacle_management a w1 = Some w2 ∧
    collision_detection a w2 = Some w3 ∧
    w' = draw_hud a w3.
Proof.
  unfold handle_playing, frame_before_collision, frame_updates, playing_input.
  destruct (player w) as [p|]; [|done]. cbn [mbind option_bind].
  destruct (playing_updates a _ dt) as [w1|] eqn:E1; [|done].
  cbn [mbind option_bind].
  destruct (obstacle_management a w1) as [w2|] eqn:E2; [|done].
  cbn [mbind option_bind].
  destruct (collision_detection a w2) as [w3|] eqn:E3; [|done].
  cbn [mbind option_bind].
  intros [= <-]. by exists p, w1, w2, w3.
Qed.

Lemma playing_updates_fields (a : Assets) (w w1 : World) (dt : Q) :
  playing_updates a w dt = Some w1 →
  game_state w1 = game_state w ∧ quit_game w1 = quit_game w ∧
  score w1 = score w ∧ speed w1 = speed w.
Proof.
  unfold playing_updates.
  destruct (player w); [|done]. destruct (obstacle w); [|done].
  destruct (obstacles_group w); [|done]. cbn [mbind option_bind].
  destruct (sprites w !! _); [|done]. cbn [mbind option_bind].
  by intros [= <-].
Qed.

Lemma obstacle_management_fields (a : Assets) (w w2 : World) :
  obstacle_management a w = Some w2 →
  game_state w2 = game_state w ∧ quit_game w2 = quit_game w ∧
  (score w2 = score w ∨ score w2 = score w + 1).
Proof.
  unfold obstacle_management.
  destruct (obstacle w) as [r|]; [|done].
  destruct (obstacles_group w) as [g|]; [|done]. cbn [mbind option_bind].
  destruct (sprites w !! r); [|done]. cbn [mbind option_bind].
  destruct (passed _); intros [= <-]; [|by auto].
  destruct (respawn_fields a (award w) g r) as (-> & -> & _ & _ & _ & ->).
  rewrite award_score. by auto.
Qed.

Lemma collision_detection_fields (a : Assets) (w w3 : World) :
  collision_detection a w = Some w3 →
  quit_game w3 = quit_game w ∧
  (game_state w3 = game_state w ∨ game_state w3 = STATE_GAME_OVER).
Proof.
  unfold collision_detection.
  destruct (player w) as [p|]; [|done].
  destruct (obstacles_group w) as [g|]; [|done]. cbn [mbind option_bind].
  destruct (_ <=? 0); [|intros [= <-]; by auto].
  destruct (spritecollide p g (sprites w)) as [|c l]; [intros [= <-]; by auto|].
  destruct (respawn_fields a (set_player w (hit p)) g c) as (Hg & _ & _ & _ & _ & Hq).
  destruct (Player.health (hit p) <=? 0); intros [= <-];
    cbn [quit_game game_state set_game_state]; rewrite ?Hg, Hq; by auto.
Qed.

Lemma handle_playing_state (a : Assets) (w w' : World) (events : list Event) (dt : Q) :
  handle_playing a w events dt = Some w' →
  quit_game w' = quit_game w ∧
  (game_state w' = game_state w ∨ game_state w' = STATE_PAUSED ∨
   game_state w' = STATE_GAME_OVER).
Proof.
  intros H. apply handle_playing_inv in H as (p & w1 & w2 & w3 & Hp & H1 & H2 & H3 & ->).
  apply playing_updates_fields in H1 as (Hg1 & Hq1 & _).
  apply obstacle_management_fields in H2 as (Hg2 & Hq2 & _).
  apply collision_detection_fields in H3 as (Hq3 & Hg3).
  destruct (draw_hud_fields a w3) as (-> & _ & _ & _ & _ & _ & _ & _ & ->).
  split; [by rewrite Hq3, Hq2, Hq1|].
  destruct Hg3 as [-> | ->]; [|by auto].
  rewrite Hg2, Hg1. cbn [game_state set_game_state].
  destruct (playing_events_state events p (game_state w)) as [-> | ->]; by auto.
Qed.

(** ** The main loop as a whole *)

(** X1.  No playing frame before [reset_game()].  Started in the main
    menu with nothing set up, the main loop plays every frame it is
    given, whatever the frames and the random draws: [handle_playing],
    which uses the player and the obstacle unguarded, is never called
    while they are [None], so its [AttributeError] cannot occur. *)
Theorem no_playing_frame_before_reset (a : Assets) (g : Rng) (fs : list Frame) :
  ∃ w, main_loop a (initial_world g) fs = Some w ∧
       (game_state w = STATE_PLAYING → is_Some (player w) ∧ is_Some (obstacle w)).
Proof.
  destruct (main_loop_ok a fs _ (initial_world_ok a g)) as (w & Hw & Hok).
  exists w. split; [done|]. intros Hg.
  destruct Hok as [(_ & _ & Hm & _)|[(p & r & o & (Hp & Hr & _) & _) _]].
  - rewrite Hg in Hm. done.
  - rewrite Hp, Hr. by split.
Qed.

Lemma foldl_game_state {B} (P : GameState → Prop) (f : World → B → World)
      (l : list B) (w : World) :
  (∀ w b, P (game_state w) → P (game_state (f w b))) →
  P (game_state w) → P (game_state (foldl f w l)).
Proof. intros Hf. apply (foldl_invariant (λ w, P (game_state w))). exact Hf. Qed.

(** X2.  One iteration of the main loop moves the game state only along
    the transitions of the state machine: from the main menu to
    playing, instructions or settings; from instructions and settings
    back to the main menu; from playing to paused or game over; from
    paused to playing or the main menu; from game over to playing or
    the main menu; or it stays. *)
Theorem iteration_follows_state_machine (a : Assets) (w w' : World) (f : Frame) :
  iteration a w f = Some w' →
  may_follow (game_state w) (game_state w') = true.
Proof.
  unfold iteration.
  set (w0 := if existsb is_quit (events f) then set_quit_game w true else w).
  assert (game_state w0 = game_state w) as Hg0 by (subst w0; by destruct (existsb _ _)).
  rewrite <- Hg0. clearbody w0. clear w Hg0.
  destruct (game_state w0) eqn:Hg.
  - intros [= <-]. unfold handle_main_menu.
    apply (foldl_game_state (λ s, may_follow STATE_MAIN_MENU s = true)); [|by rewrite Hg].
    intros w b Hw. unfold main_menu_event.
    destruct b as [|k|[|[| |]|] pos|]; try done.
    repeat (destruct (Rect.collidepoint _ _); [done|]). done.
  - intros H. apply handle_playing_state in H as (_ & [->|[->| ->]]); by rewrite ?Hg.
  - intros [= <-]. unfold handle_pause.
    apply (foldl_game_state (λ s, may_follow STATE_PAUSED s = true)); [|by rewrite Hg].
    intros w b Hw. unfold pause_event.
    destruct b as [|[]|[|[| |]|] pos|]; try done.
    destruct (first_hit _ _) as [[]|]; done.
  - intros [= <-]. unfold handle_instructions.
    apply (foldl_game_state (λ s, may_follow STATE_INSTRUCTIONS s = true));
      [|by rewrite Hg].
    intros w b Hw. unfold instructions_event.
    destruct b as [|[]|[|[| |]|] pos|]; try done.
    destruct (Rect.collidepoint _ _); done.
  - intros [= <-]. unfold handle_settings.
    apply (foldl_game_state (λ s, may_follow STATE_SETTINGS s = true)); [|by rewrite Hg].
    intros w b Hw. unfold settings_event.
    destruct b as [|[]|[|[| |]|] pos|]; try done.
    destruct (Rect.collidepoint _ _); done.
  - intros [= <-]. unfold handle_game_over.
    apply (foldl_game_state (λ s, may_follow STATE_GAME_OVER s = true)); [|by rewrite Hg].
    intros w b Hw. unfold game_over_event.
    destruct b as [|k|[|[| |]|] pos|]; try done.
    repeat (destruct (Rect.collidepoint _ _); [done|]). done.
Qed.

Lemma iteration_follows_state_machine_witness :
  may_follow (game_state (initial_world [1; 2; 3]%nat))
             (game_state (world_after start_only)) = true.
Proof.
  apply (iteration_follows_state_machine sample_assets _ _ (mkFrame 16 [click_start])).
  vm_compute. reflexivity.
Defined.

Lemma same_session_refl (w : World) : same_session w w.
Proof. by repeat split. Qed.

Lemma same_session_set_game_state (w w' : World) (s : GameState) :
  same_session w w' → same_session w (set_game_state w' s).
Proof. done. Qed.

Lemma same_session_set_quit_game (w w' : World) (b : bool) :
  same_session w w' → same_session w (set_quit_game w' b).
Proof. done. Qed.

(** X3.  Outside the playing state the simulation stands still.  An
    iteration in the paused state, on the instructions screen or on the
    settings screen leaves score, speed, player, obstacle, group,
    parallax offsets and random supply as they are; so does an
    iteration in the main menu without a click on Start, and one in the
    game-over state without a click on Retry. *)
Theorem menus_keep_session (a : Assets) (w : World) (f : Frame) :
  (game_state w = STATE_PAUSED ∨ game_state w = STATE_INSTRUCTIONS ∨
   game_state w = STATE_SETTINGS ∨
   (game_state w = STATE_MAIN_MENU ∧
    Forall (λ ev, clicks MainMenu.start ev = false) (events f)) ∨
   (game_state w = STATE_GAME_OVER ∧
    Forall (λ ev, clicks (GameOver.retry a) ev = false) (events f))) →
  ∃ w', iteration a w f = Some w' ∧ same_session w w'.
Proof.
  intros Hcase. unfold iteration.
  set (w0 := if existsb is_quit (events f) then set_quit_game w true else w).
  assert (game_state w0 = game_state w) as Hg0 by (subst w0; by destruct (existsb _ _)).
  assert (same_session w w0) as Hs0.
  { subst w0. destruct (existsb _ _); [|apply same_session_refl].
    apply same_session_set_quit_game, same_session_refl. }
  rewrite Hg0. clearbody w0.
  destruct Hcase as [Hg|[Hg|[Hg|[[Hg Hev]|[Hg Hev]]]]]; rewrite Hg;
    (eexists; split; [reflexivity|]).
  - apply (foldl_invariant (same_session w)); [|done].
    intros y b Hy. unfold pause_event.
    destruct b as [|[]|[|[| |]|] pos|]; try done.
    destruct (first_hit _ _) as [[]|]; done.
  - apply (foldl_invariant (same_session w)); [|done].
    intros y b Hy. unfold instructions_event.
    destruct b as [|[]|[|[| |]|] pos|]; try done.
    destruct (Rect.collidepoint _ _); done.
  - apply (foldl_invariant (same_session w)); [|done].
    intros y b Hy. unfold settings_event.
    destruct b as [|[]|[|[| |]|] pos|]; try done.
    destruct (Rect.collidepoint _ _); done.
  - unfold handle_main_menu. clear Hg0. revert w0 Hs0.
    induction Hev as [|ev l Hev _ IH]; intros w0 Hs0; [done|].
    simpl. apply IH.
    unfold main_menu_event, clicks in *.
    destruct ev as [|k|[|[| |]|] pos|]; try done. rewrite Hev.
    repeat (destruct (Rect.collidepoint _ _); [done|]). done.
  - unfold handle_game_over. clear Hg0. revert w0 Hs0.
    induction Hev as [|ev l Hev _ IH]; intros w0 Hs0; [done|].
    simpl. apply IH.
    unfold game_over_event, clicks in *.
    destruct ev as [|k|[|[| |]|] pos|]; try done. rewrite Hev.
    repeat (destruct (Rect.collidepoint _ _); [done|]). done.
Qed.

Lemma menus_keep_session_witness :
  ∃ w', iteration sample_assets
                  (world_after [mkFrame 16 [click_start]; mkFrame 16 [KEYDOWN K_ESCAPE]])
                  (mkFrame 16 [KEYDOWN K_SPACE; MOUSEBUTTONDOWN 1 (0, 0)]) = Some w' ∧
        same_session
          (world_after [mkFrame 16 [click_start]; mkFrame 16 [KEYDOWN K_ESCAPE]]) w'.
Proof.
  apply menus_keep_session. left. vm_compute. reflexivity.
Defined.

(** ** Quitting *)

Lemma reset_game_quit (a : Assets) (w : World) :
  quit_game (reset_game a w) = quit_game w.
Proof. apply reset_game_fields. Qed.

Lemma main_menu_event_quit (a : Assets) (w : World) (ev : Event) :
  quit_game w = true → quit_game (main_menu_event a w ev) = true.
Proof.
  intros Hq. unfold main_menu_event.
  destruct ev as [|k|[|[| |]|] pos|]; try done.
  repeat (destruct (Rect.collidepoint _ _);
          [cbn [quit_game set_game_state set_quit_game];
           rewrite ?reset_game_quit; done|]).
  done.
Qed.

Lemma game_over_event_quit (a : Assets) (w : World) (ev : Event) :
  quit_game w = true → quit_game (game_over_event a w ev) = true.
Proof.
  intros Hq. unfold game_over_event.
  destruct ev as [|k|[|[| |]|] pos|]; try done.
  repeat (destruct (Rect.collidepoint _ _);
          [cbn [quit_game set_game_state set_quit_game];
           rewrite ?reset_game_quit; done|]).
  done.
Qed.

Lemma pause_event_quit (a : Assets) (w : World) (ev : Event) :
  quit_game w = true → quit_game (pause_event a w ev) = true.
Proof.
  intros Hq. unfold pause_event.
  destruct ev as [|[]|[|[| |]|] pos|]; try done.
  destruct (first_hit _ _) as [[]|]; done.
Qed.

Lemma instructions_event_quit (w : World) (ev : Event) :
  quit_game w = true → quit_game (instructions_event w ev) = true.
Proof.
  intros Hq. unfold instructions_event.
  destruct ev as [|[]|[|[| |]|] pos|]; try done.
  destruct (Rect.collidepoint _ _); done.
Qed.

Lemma settings_event_quit (w : World) (ev : Event) :
  quit_game w = true → quit_game (settings_event w ev) = true.
Proof.
  intros Hq. unfold settings_event.
  destruct ev as [|[]|[|[| |]|] pos|]; try done.
  destruct (Rect.collidepoint _ _); done.
Qed.

(** The handlers never take the quit flag back. *)
Lemma iteration_quit_sticky (a : Assets) (w w' : World) (f : Frame) :
  iteration a w f = Some w' →
  quit_game w = true ∨ existsb is_quit (events f) = true →
  quit_game w' = true.
Proof.
  unfold iteration.
  set (w0 := if existsb is_quit (events f) then set_quit_game w true else w).
  intros H Hq.
  assert (quit_game w0 = true) as Hq0.
  { subst w0. destruct (existsb _ _); [done|]. by destruct Hq. }
  clearbody w0. clear w Hq.
  destruct (game_state w0).
  - injection H as <-. apply (foldl_invariant (λ w, quit_game w = true)); [|done].
    intros. by apply main_menu_event_quit.
  - apply handle_playing_state in H as [-> _]. done.
  - injection H as <-. apply (foldl_invariant (λ w, quit_game w = true)); [|done].
    intros. by apply pause_event_quit.
  - injection H as <-. apply (foldl_invariant (λ w, quit_game w = true)); [|done].
    intros. by apply instructions_event_quit.
  - injection H as <-. apply (foldl_invariant (λ w, quit_game w = true)); [|done].
    intros. by apply settings_event_quit.
  - injection H as <-. apply (foldl_invariant (λ w, quit_game w = true)); [|done].
    intros. by apply game_over_event_quit.
Qed.

Lemma main_loop_after_quit (a : Assets) (w : World) (fs : list Frame) :
  quit_game w = true → main_loop a w fs = Some w.
Proof. intros Hq. destruct fs; simpl; by rewrite ?Hq. Qed.

Lemma main_menu_rects :
  MainMenu.start = Rect.mk 300 186 200 50 ∧
  MainMenu.how_to_play = Rect.mk 300 246 200 50 ∧
  MainMenu.settings = Rect.mk 300 306 200 50 ∧
  MainMenu.quit = Rect.mk 300 366 200 50.
Proof. vm_compute. done. Qed.

Lemma collidepoint_spec (r : Rect.t) (px py : Z) :
  Rect.collidepoint r (px, py) = true ↔
  Rect.x r ≤ px < Rect.x r + Rect.w r ∧ Rect.y r ≤ py < Rect.y r + Rect.h r.
Proof.
  unfold Rect.collidepoint. cbn [fst snd].
  rewrite !andb_true_iff, !Z.leb_le, !Z.ltb_lt. lia.
Qed.

Lemma collidepoint_false (r : Rect.t) (px py : Z) :
  ¬ (Rect.x r ≤ px < Rect.x r + Rect.w r ∧ Rect.y r ≤ py < Rect.y r + Rect.h r) →
  Rect.collidepoint r (px, py) = false.
Proof.
  intros H. destruct (Rect.collidepoint r (px, py)) eqn:E; [|done].
  apply collidepoint_spec in E. done.
Qed.

Lemma main_menu_quit_click (a : Assets) (w : World) (ev : Event) :
  clicks MainMenu.quit ev = true → quit_game (main_menu_event a w ev) = true.
Proof.
  unfold clicks, main_menu_event.
  destruct ev as [|k|[|[| |]|] [px py]|]; try done.
  intros H. rewrite H. apply collidepoint_spec in H.
  destruct main_menu_rects as (-> & -> & -> & Hq). rewrite Hq in H. simpl in H.
  rewrite !collidepoint_false by (simpl; lia). done.
Qed.

(** X4.  A frame that holds a [QUIT] event, or, in the main menu, a
    click on the Quit button, is the last one: the frames after it are
    not played. *)
Theorem quit_ends_the_loop (a : Assets) (w : World) (f : Frame) (fs : list Frame) :
  existsb is_quit (events f) = true ∨
  (game_state w = STATE_MAIN_MENU ∧
   Exists (λ ev, clicks MainMenu.quit ev = true) (events f)) →
  main_loop a w (f :: fs) = main_loop a w [f].
Proof.
  intros Hq. cbn [main_loop].
  destruct (quit_game w) eqn:Hqw; [done|].
  destruct (iteration a w f) as [w'|] eqn:Hit; [|done]. cbn [mbind option_bind].
  apply main_loop_after_quit.
  destruct Hq as [Hq|[Hg Hex]].
  { apply (iteration_quit_sticky a w w' f Hit). by right. }
  revert Hit. unfold iteration.
  set (w0 := if existsb is_quit (events f) then set_quit_game w true else w).
  assert (game_state w0 = STATE_MAIN_MENU) as -> by (subst w0; by destruct (existsb _ _)).
  intros [= <-]. clearbody w0. unfold handle_main_menu.
  revert w0. induction Hex as [ev l Hev|ev l _ IH]; intros w0; simpl.
  - apply (foldl_invariant (λ w, quit_game w = true)).
    + intros. by apply main_menu_event_quit.
    + by apply main_menu_quit_click.
  - apply IH.
Qed.

Lemma quit_ends_the_loop_witness :
  main_loop sample_assets (initial_world [])
            [mkFrame 16 [MOUSEBUTTONDOWN 1 (400, 380)]; mkFrame 16 [click_start]]
  = main_loop sample_assets (initial_world []) [mkFrame 16 [MOUSEBUTTONDOWN 1 (400, 380)]].
Proof.
  apply quit_ends_the_loop. right. split; [reflexivity|].
  apply Exists_cons_hd. vm_compute. reflexivity.
Defined.

(** ** Invariants of the worlds the main loop reaches *)

(** Induction over the worlds the main loop reaches: a property that
    holds at the start and is kept by the assignments of the handlers,
    by [reset_game()] and by the playing frames of a live session holds
    in all of them. *)
Lemma reachable_invariant (a : Assets) (P : World → Prop) :
  (∀ g, P (initial_world g)) →
  (∀ w s, P w → P (set_game_state w s)) →
  (∀ w b, P w → P (set_quit_game w b)) →
  (∀ w, P w → P (reset_game a w)) →
  (∀ w events dt w',
     alive a w → P w → handle_playing a w events dt = Some w' → P w') →
  ∀ w, reachable a w → P w.
Proof.
  intros Hinit Hgs Hq Hreset Hplay w (g & fs & Hw).
  assert (∀ fs w w', world_ok a w → P w → main_loop a w fs = Some w' → P w') as Hloop.
  { clear g fs w Hw. intros fs. induction fs as [|f fs IH]; intros w w' Hok HP.
    { by intros [= <-]. }
    cbn [main_loop]. destruct (quit_game w); [by intros [= <-]|].
    destruct (iteration_ok a w f Hok) as (w1 & Hw1 & Hok1).
    rewrite Hw1. cbn [mbind option_bind].
    apply IH; [done|]. revert Hw1. unfold iteration.
    set (w0 := if existsb is_quit (events f) then set_quit_game w true else w).
    assert (world_ok a w0) as Hok0 by (subst w0; by destruct (existsb _ _)).
    assert (P w0) as HP0 by (subst w0; destruct (existsb _ _); auto).
    clearbody w0. clear w Hok HP.
    destruct (game_state w0) eqn:Hg.
    - intros [= <-]. apply (foldl_invariant P); [|done].
      intros y b Hy. unfold main_menu_event.
      destruct b as [|k|[|[| |]|] pos|]; try done.
      repeat (destruct (Rect.collidepoint _ _); [by auto|]). done.
    - intros H. eapply Hplay; [|exact HP0|exact H].
      apply world_ok_alive; [done|by rewrite Hg].
    - intros [= <-]. apply (foldl_invariant P); [|done].
      intros y b Hy. unfold pause_event.
      destruct b as [|[]|[|[| |]|] pos|]; try done; auto.
      destruct (first_hit _ _) as [[]|]; auto.
    - intros [= <-]. apply (foldl_invariant P); [|done].
      intros y b Hy. unfold instructions_event.
      destruct b as [|[]|[|[| |]|] pos|]; try done; auto.
      destruct (Rect.collidepoint _ _); auto.
    - intros [= <-]. apply (foldl_invariant P); [|done].
      intros y b Hy. unfold settings_event.
      destruct b as [|[]|[|[| |]|] pos|]; try done; auto.
      destruct (Rect.collidepoint _ _); auto.
    - intros [= <-]. apply (foldl_invariant P); [|done].
      intros y b Hy. unfold game_over_event.
      destruct b as [|k|[|[| |]|] pos|]; try done.
      repeat (destruct (Rect.collidepoint _ _); [by auto|]). done. }
  apply (Hloop fs (initial_world g) w); auto using initial_world_ok.
Qed.

(** ** Difficulty as a function of the score *)

Lemma awards_double_spec (n : nat) :
  awards_double n
  = (Z.of_nat n, Nat.iter (n / 4) ratchet_double STARTING_SPEED).
Proof.
  induction n as [|n IH]; [done|].
  change (awards_double (S n)) with (award_double (awards_double n)). rewrite IH.
  unfold award_double. cbn [fst snd]. f_equal; [lia|].
  unfold SPEED_INCREASE_INTERVAL.
  replace (Z.of_nat n + 1) with (Z.of_nat (S n)) by lia.
  assert (Z.of_nat (S n) `mod` 4 = Z.of_nat (S n mod 4)) as ->
    by (by rewrite Nat2Z.inj_mod).
  pose proof (Nat.div_mod_eq n 4) as E1. pose proof (Nat.div_mod_eq (S n) 4) as E2.
  pose proof (Nat.mod_upper_bound n 4 ltac:(lia)) as B1.
  pose proof (Nat.mod_upper_bound (S n) 4 ltac:(lia)) as B2.
  destruct (Z.of_nat (S n mod 4) =? 0) eqn:E.
  - apply Z.eqb_eq in E. assert (S n / 4 = S (n / 4))%nat as -> by lia.
    change (Nat.iter (S (n / 4)) ratchet_double STARTING_SPEED)
      with (ratchet_double (Nat.iter (n / 4) ratchet_double STARTING_SPEED)).
    cbn [andb]. unfold ratchet_double. done.
  - apply Z.eqb_neq in E. assert (S n / 4 = n / 4)%nat as -> by lia. done.
Qed.

Lemma ratchet_at_cap (k : nat) :
  (20 ≤ k)%nat → Nat.iter k ratchet_double STARTING_SPEED = MAX_SPEED.
Proof.
  intros Hk. replace k with ((k - 20) + 20)%nat by lia.
  generalize (k - 20)%nat. clear k Hk. intros j.
  induction j as [|j IH]; [vm_compute; reflexivity|].
  change (Nat.iter (S j + 20) ratchet_double STARTING_SPEED)
    with (ratchet_double (Nat.iter (j + 20) ratchet_double STARTING_SPEED)).
  rewrite IH. reflexivity.
Qed.

Lemma ratchet_below_cap (k : nat) :
  (k < 20)%nat →
  (STARTING_SPEED <= Nat.iter k ratchet_double STARTING_SPEED)%Q ∧
  (Nat.iter k ratchet_double STARTING_SPEED < MAX_SPEED)%Q.
Proof.
  intros Hk.
  assert (forallb (λ k, Qle_bool STARTING_SPEED (Nat.iter k ratchet_double STARTING_SPEED)
                        && Qltb (Nat.iter k ratchet_double STARTING_SPEED) MAX_SPEED)
                  (seq 0 20) = true) as H by (vm_compute; reflexivity).
  rewrite forallb_forall in H. specialize (H k). rewrite in_seq in H.
  specialize (H ltac:(lia)). apply andb_true_iff in H as [H1 H2].
  apply Qle_bool_iff in H1. apply Qltb_lt in H2. done.
Qed.

(** X5.  Score and speed after [n] pass-throughs of a new game, in
    double precision: the score is [n]; the speed is the ratchet
    [min(MAX_SPEED, speed + SPEED_INCREASE_AMOUNT)] applied [n // 4]
    times to the starting speed, one rounded sum after the other; it
    lies between the starting speed and the cap, is below the cap up
    to the score 79 and is the cap from the score 80 on. *)
Theorem speed_follows_score (n : nat) :
  (awards_double n).1 = Z.of_nat n ∧
  (awards_double n).2 = Nat.iter (n / 4) ratchet_double STARTING_SPEED ∧
  (STARTING_SPEED <= (awards_double n).2 <= MAX_SPEED)%Q ∧
  ((n < 80)%nat → ((awards_double n).2 < MAX_SPEED)%Q) ∧
  ((80 ≤ n)%nat → (awards_double n).2 = MAX_SPEED).
Proof.
  rewrite awards_double_spec. cbn [fst snd]. split; [done|]. split; [done|].
  pose proof (Nat.div_mod_eq n 4) as E. pose proof (Nat.mod_upper_bound n 4 ltac:(lia)) as B.
  destruct (Nat.lt_ge_cases (n / 4) 20) as [Hlt|Hge].
  - destruct (ratchet_below_cap _ Hlt) as [H1 H2].
    split; [split; [done|lra]|]. split; [done|]. intros Hn. lia.
  - rewrite (ratchet_at_cap _ Hge).
    split; [split; [discriminate|apply Qle_refl]|]. split; [|done]. intros Hn. lia.
Qed.

Lemma speed_follows_score_witness :
  (awards_double 7).2 = double (54 # 10) ∧ ((awards_double 7).2 < MAX_SPEED)%Q ∧
  (awards_double 80).2 = MAX_SPEED.
Proof.
  destruct (speed_follows_score 7) as (_ & _ & _ & H1 & _).
  destruct (speed_follows_score 80) as (_ & _ & _ & _ & H2).
  split; [vm_compute; reflexivity|].
  split; [apply H1; lia|apply H2; lia].
Defined.

(** X5, the values: after 8 pass-throughs the speed is the double
    5.800000000000001, the rounded sum of 5.4 and 0.4, not the 5.8 of
    [5 + 0.4 * 2]. *)
Example speed_after_eight :
  awards_double 8 = (8, (1632554864921805 # 281474976710656)%Q) ∧
  ¬ ((awards_double 8).2 == double (58 # 10))%Q.
Proof. split; [vm_compute; reflexivity|vm_compute; discriminate]. Qed.

(** ** The obstacle of a session *)

(** X6.  Exactly one obstacle.  In every world the main loop reaches,
    outside the menus a session is set up, and whenever there is a
    tracked obstacle it is a live object and the one and only member of
    the sprite group. *)
Theorem one_obstacle (a : Assets) (w : World) :
  reachable a w →
  (is_menu (game_state w) = false → is_Some (player w) ∧ is_Some (obstacle w)) ∧
  (∀ r, obstacle w = Some r →
        obstacles_group w = Some [r] ∧ is_Some (sprites w !! r) ∧ is_Some (player w)).
Proof.
  intros Hr. apply reachable_ok in Hr.
  destruct Hr as [(Hp & Ho & Hm & _)|[(p & r & o & (Hp & Hr & Hg & Ho) & _) _]].
  - split; [by rewrite Hm|]. intros r. by rewrite Ho.
  - rewrite Hp, Hr. split; [done|].
    intros r' [= <-]. rewrite Ho. done.
Qed.

Lemma one_obstacle_witness :
  obstacles_group (world_after start_and_pass) = Some [1%nat] ∧
  is_Some (sprites (world_after start_and_pass) !! 1%nat).
Proof.
  destruct (one_obstacle sample_assets (world_after start_and_pass)) as [_ H].
  - exists [1; 2; 3]%nat, start_and_pass. vm_compute. reflexivity.
  - destruct (H 1%nat) as (H1 & H2 & _); [vm_compute; reflexivity|]. by split.
Defined.

(** X7.  Two moves a frame.  In a playing frame of a world the main loop
    reaches, the update calls move the tracked obstacle once through
    [obstacle.update(dt)] and once more through
    [obstacles_group.update(dt)]; its [rect.x] is [int(x)] of the [x]
    they leave, and with [dt >= 0] neither of them moves it to the
    right. *)
Theorem frame_moves_obstacle_twice (a : Assets) (w : World) (r : nat)
        (o : Obstacle.t) (events : list Event) (dt : Q) :
  reachable a w → obstacle w = Some r → sprites w !! r = Some o →
  ∃ w1 o1,
    frame_updates a w events dt = Some w1 ∧ obstacle w1 = Some r ∧
    sprites w1 !! r = Some o1 ∧
    o1 = Obstacle.update (Obstacle.update o dt) dt ∧
    Rect.x (Obstacle.rect o1) = py_int (Obstacle.x o1) ∧
    ((0 <= dt)%Q →
     (Obstacle.x o1 <= Obstacle.x (Obstacle.update o dt) <= Obstacle.x o)%Q).
Proof.
  intros Hr Hob Ho.
  destruct (reachable_session a w r Hr Hob)
    as (p & r' & o' & Hat & Hgs & [Hs _] & _).
  pose proof Hat as (_ & Hr' & _ & Ho').
  assert (r' = r) as -> by congruence. assert (o' = o) as -> by congruence.
  destruct (handle_playing_score_speed a w events dt p r o Hat)
    as (w1 & w' & Hfu & _ & (_ & Hr1 & _ & Ho1) & _).
  exists w1, (Obstacle.update (Obstacle.update o dt) dt).
  split; [done|]. split; [done|]. split; [done|]. split; [done|].
  split; [done|]. intros Hdt.
  unfold Obstacle.update. simpl. rewrite Hgs.
  unfold STARTING_SPEED, FPS, inject_Z in *.
  assert (0 <= speed w * dt)%Q by (apply Qmult_le_0_compat; lra). lra.
Qed.

Lemma frame_moves_obstacle_twice_witness :
  ∃ w1 o1,
    frame_updates sample_assets (world_after start_only) [] (1 # 60) = Some w1 ∧
    obstacle w1 = Some 0%nat ∧
    sprites w1 !! 0%nat = Some o1 ∧
    o1 = Obstacle.update (Obstacle.update (obstacle_after start_only) (1 # 60)) (1 # 60) ∧
    Rect.x (Obstacle.rect o1) = py_int (Obstacle.x o1) ∧
    (Obstacle.x o1 <= Obstacle.x (obstacle_after start_only))%Q.
Proof.
  destruct (frame_moves_obstacle_twice sample_assets (world_after start_only) 0%nat
              (obstacle_after start_only) [] (1 # 60))
    as (w1 & o1 & H1 & H2 & H3 & H4 & H5 & H6).
  - exists [1; 2; 3]%nat, start_only. vm_compute. reflexivity.
  - vm_compute. reflexivity.
  - vm_compute. reflexivity.
  - exists w1, o1. repeat (split; [assumption|]).
    destruct H6 as [Ha Hb]; [discriminate|]. eapply Qle_trans; eassumption.
Defined.

Lemma nth_mod_in {A} (l : list A) (k : nat) (d : A) :
  l ≠ [] → nth (k `mod` length l)%nat l d ∈ l.
Proof.
  intros Hl.
  assert (k `mod` length l < length l)%nat as Hlt.
  { apply Nat.mod_upper_bound. by destruct l. }
  apply lookup_lt_is_Some_2 in Hlt as [s Hs].
  rewrite (nth_lookup_Some _ _ _ _ Hs). by eapply list_elem_of_lookup_2.
Qed.

Lemma obstacle_init_not_passed (a : Assets) (s : Q) (g : Rng) :
  Forall (λ im, 0 ≤ get_width im) (loaded_obstacle_images a) →
  passed (Obstacle.init a s g).1 = false.
Proof.
  intros Hw.
  assert (Forall (λ im, 0 ≤ get_width im)
                 (Obstacle.images_or_placeholder (loaded_obstacle_images a))) as Hw'.
  { unfold Obstacle.images_or_placeholder.
    destruct (loaded_obstacle_images a); [|done].
    repeat constructor. done. }
  assert (Obstacle.images_or_placeholder (loaded_obstacle_images a) ≠ []) as Hne.
  { unfold Obstacle.images_or_placeholder. by destruct (loaded_obstacle_images a). }
  unfold Obstacle.init, choice, randbelow.
  rewrite Forall_forall in Hw'.
  destruct g as [|k g]; cbn [fst]; unfold passed, Rect.right, get_rect, Rect.of_floats;
    cbn [Obstacle.rect Rect.x Rect.w]; rewrite py_int_inject_Z; apply Z.ltb_ge.
  - pose proof (Hw' _ (nth_mod_in _ 0 Obstacle.placeholder Hne)) as H.
    rewrite Nat.Div0.mod_0_l in H. unfold GAME_WIDTH. lia.
  - pose proof (Hw' _ (nth_mod_in _ k Obstacle.placeholder Hne)) as H.
    unfold GAME_WIDTH. lia.
Qed.

(** X8.  No obstacle is counted twice.  If no obstacle image has a
    negative width, a playing frame of a world the main loop reaches
    ends with a tracked obstacle that is not off-screen left: one that
    has passed has been replaced within the frame. *)
Theorem passed_obstacle_is_replaced (a : Assets) (w : World) (events : list Event)
        (dt : Q) :
  Forall (λ im, 0 ≤ get_width im) (loaded_obstacle_images a) →
  reachable a w → game_state w = STATE_PLAYING →
  ∃ w' r' o',
    handle_playing a w events dt = Some w' ∧
    obstacle w' = Some r' ∧ sprites w' !! r' = Some o' ∧ passed o' = false.
Proof.
  intros Hw Hr Hg.
  destruct (session_of_alive a w (reachable_playing a w Hr Hg))
    as (p & r & o & Hat & _ & _).
  destruct (handle_playing_at a w events dt p r o Hat)
    as (w1 & w2 & w3 & r2 & o2 & _ & _ & _ & _ & _ & _ & _ & _ & Hat2 & Ho2
        & _ & Hw3 & Hhp).
  set (p1 := Player.update (foldl playing_event (p, game_state w) events).1 dt) in *.
  set (o1 := Obstacle.update (Obstacle.update o dt) dt) in *.
  assert (passed o2 = false) as Hp2.
  { rewrite Ho2. destruct (passed o1) eqn:E; [|done].
    by apply obstacle_init_not_passed. }
  assert (∃ p3 r3 o3, session_at w3 p3 r3 o3 ∧ passed o3 = false)
    as (p3 & r3 & o3 & Hat3 & Hp3).
  { rewrite Hw3. destruct (_ && _).
    - cbv zeta.
      pose proof (respawn_at a (set_player w2 (hit p1)) (hit p1) r2 o2) as Hre.
      destruct Hre as (H1 & H2 & H3 & H4).
      { destruct Hat2 as (?&?&?&?). done. }
      eexists _, _, _. split.
      + destruct (Player.health (hit p1) <=? 0); repeat split; eassumption.
      + by apply obstacle_init_not_passed.
    - by exists p1, r2, o2. }
  exists (draw_hud a w3), r3, o3. split; [done|].
  apply (draw_hud_at a) in Hat3 as (_ & -> & _ & ->). done.
Qed.

Lemma passed_obstacle_is_replaced_witness :
  ∃ w' r' o',
    handle_playing sample_assets (world_after start_only) [] (2 # 1) = Some w' ∧
    obstacle w' = Some r' ∧ sprites w' !! r' = Some o' ∧ passed o' = false.
Proof.
  apply passed_obstacle_is_replaced.
  - vm_compute. repeat constructor; discriminate.
  - exists [1; 2; 3]%nat, start_only. vm_compute. reflexivity.
  - vm_compute. reflexivity.
Defined.

(** ** The player of the game *)

Lemma handle_playing_player (a : Assets) (w w' : World) (events : list Event) (dt : Q)
      p r o :
  session_at w p r o → handle_playing a w events dt = Some w' →
  let p1 := Player.update (foldl playing_event (p, game_state w) events).1 dt in
  player w' = Some p1 ∨ player w' = Some (hit p1).
Proof.
  intros Hat Hw' p1.
  destruct (handle_playing_at a w events dt p r o Hat)
    as (w1 & w2 & w3 & r2 & o2 & _ & _ & _ & _ & _ & _ & _ & _ & Hat2 & _
        & _ & Hw3 & Hhp).
  fold p1 in Hat2, Hw3. rewrite Hhp in Hw'. injection Hw' as <-.
  destruct (draw_hud_fields a w3) as (_ & _ & _ & -> & _).
  rewrite Hw3. destruct (_ && _).
  - right. cbv zeta.
    destruct (respawn_fields a (set_player w2 (hit p1)) [r2] r2) as (_ & _ & _ & Hpl & _).
    destruct (Player.health (hit p1) <=? 0); cbn [player set_game_state]; by rewrite Hpl.
  - left. by destruct Hat2 as (-> & _).
Qed.

(** A property of players that holds of a new player and is kept by
    [jump()], [update(dt)] and a hit holds of the player of every world
    the main loop reaches. *)
Lemma reachable_player_invariant (a : Assets) (Q : Player.t → Prop) :
  Q (Player.set_invincibility_frame (Player.init a) 0) →
  (∀ p, Q p → Q (Player.jump p)) →
  (∀ p dt, player_ok a p → Q p → Q (Player.update p dt)) →
  (∀ p, Q p → Q (hit p)) →
  ∀ w p, reachable a w → player w = Some p → Q p.
Proof.
  intros Hinit Hjump Hupd Hhit w p Hr. revert p. revert w Hr.
  apply (reachable_invariant a (λ w, ∀ p, player w = Some p → Q p)); try done.
  - intros w _ p. destruct (reset_game_fields a w) as (_ & _ & -> & _).
    by intros [= <-].
  - intros w events dt w' [Hs _] HP Hw' p' Hp'.
    destruct Hs as (p & r & o & Hat & _ & _ & _ & Hok).
    pose proof (HP p (proj1 Hat)) as HQ.
    assert (Q (Player.update (foldl playing_event (p, game_state w) events).1 dt)) as HQ1.
    { apply Hupd.
      - by apply playing_events_ind; [apply jump_ok|].
      - by apply playing_events_ind. }
    destruct (handle_playing_player a w w' events dt p r o Hat Hw') as [H|H];
      rewrite H in Hp'; injection Hp' as <-; auto.
Qed.

(** X9.  The player of every world the main loop reaches stands at
    [PLAYER_START_X], with its rectangle there too, has both animations
    loaded, and has a timer between 0 and the invincibility duration. *)
Theorem player_stays_in_place (a : Assets) (w : World) (p : Player.t) :
  reachable a w → player w = Some p →
  Player.x p = PLAYER_START_X ∧ Rect.x (Player.rect p) = PLAYER_START_X ∧
  Player.running_sprites p ≠ [] ∧ Player.jumping_sprites p ≠ [] ∧
  0 ≤ Player.invincibility_frame p ≤ PLAYER_INVINCIBILITY_DURATION.
Proof.
  intros Hr Hp.
  destruct (reachable_player_session a w p Hr Hp)
    as (p0 & r & o & (Hp0 & _) & _ & _ & _ & Hok).
  assert (p0 = p) as -> by congruence.
  destruct Hok as (Hx & Hrx & Hrs & Hjs & _ & Ht & _).
  destruct (sprite_lists_nonempty a) as [Hn1 Hn2].
  split; [done|]. split; [done|]. rewrite Hrs, Hjs. done.
Qed.

Lemma player_stays_in_place_witness :
  Player.x (player_after one_hit) = PLAYER_START_X ∧
  0 ≤ Player.invincibility_frame (player_after one_hit) ≤ PLAYER_INVINCIBILITY_DURATION.
Proof.
  destruct (player_stays_in_place sample_assets (world_after one_hit)
                                  (player_after one_hit)) as (H1 & _ & _ & _ & H2).
  - exists [1; 2; 3]%nat, one_hit. vm_compute. reflexivity.
  - vm_compute. reflexivity.
  - split; [exact H1|exact H2].
Defined.

(** ** Float modulo and truncation *)

Lemma py_mod_range (q : Q) (n : Z) :
  0 < n → (0 <= py_mod q n < inject_Z n)%Q.
Proof.
  intros Hn. unfold py_mod.
  assert (0 < inject_Z n)%Q as HN by (change 0%Q with (inject_Z 0); by rewrite <- Zlt_Qlt).
  pose proof (Qfloor_le (q / inject_Z n)) as Hlo.
  pose proof (Qlt_floor (q / inject_Z n)) as Hhi.
  rewrite inject_Z_plus in Hhi. change (inject_Z 1) with 1%Q in Hhi.
  rewrite inject_Z_mult.
  assert (q == inject_Z n * (q / inject_Z n))%Q as Hq.
  { rewrite Qmult_div_r; [reflexivity|]. intros H. rewrite H in HN. by apply Qlt_irrefl in HN. }
  set (N := inject_Z n) in *. set (x := (q / N)%Q) in *.
  set (F := inject_Z (Qfloor x)) in *. clearbody F x N.
  assert (q - N * F == N * (x - F))%Q as Heq.
  { transitivity (N * x - N * F)%Q; [|ring].
    apply Qplus_comp; [exact Hq|reflexivity]. }
  rewrite Heq. split.
  - apply Qmult_le_0_compat; lra.
  - rewrite <- (Qmult_1_r N) at 2. apply Qmult_lt_l; lra.
Qed.

Lemma py_int_range (q : Q) (n : Z) :
  (0 <= q < inject_Z n)%Q → 0 ≤ py_int q < n.
Proof.
  destruct q as [num den]. unfold py_int, Qle, Qlt. simpl.
  intros [Hlo Hhi].
  assert (0 ≤ num) as Hnum by lia.
  rewrite Z.quot_div_nonneg by lia. split.
  - apply Z.div_pos; lia.
  - apply Z.div_lt_upper_bound; lia.
Qed.

(** ** Animation indices *)

Lemma length_pos_of_nonempty {A} (l : list A) : l ≠ [] → 0 < Z.of_nat (length l).
Proof. destruct l; [done|]. simpl length. lia. Qed.

Lemma update_indices (a : Assets) (p : Player.t) (dt : Q) :
  player_ok a p → indices_in_range p → indices_in_range (Player.update p dt).
Proof.
  intros Hok (Hr & Hj & Hc).
  destruct (sprite_lists_nonempty a) as [Hn1 Hn2].
  destruct Hok as (_ & _ & Hrs & Hjs & _).
  assert (Player.running_sprites p ≠ []) as Hrn by congruence.
  assert (Player.jumping_sprites p ≠ []) as Hjn by congruence.
  rewrite update_unfold by done.
  destruct (update_physics_fields p) as (_ & _ & _ & Hrs' & Hjs' & _).
  assert (Player.running_sprite_index (Player.update_physics p)
          = Player.running_sprite_index p ∧
          Player.jumping_sprite_index (Player.update_physics p)
          = Player.jumping_sprite_index p) as [Hri Hji].
  { unfold Player.update_physics. destruct (Player.action p); simpl.
    - by destruct (Qltb _ _).
    - by destruct (Qle_bool _ _). }
  pose proof (py_mod_range (Player.running_sprite_index p + PLAYER_ANIMATION_SPEED)
                _ (length_pos_of_nonempty _ Hrn)) as Hrm.
  pose proof (py_mod_range (Player.jumping_sprite_index p + PLAYER_ANIMATION_SPEED)
                _ (length_pos_of_nonempty _ Hjn)) as Hjm.
  unfold indices_in_range, Player.update_invincibility, Player.update_image,
    Player.update_animation.
  destruct (Player.action (Player.update_physics p)); simpl;
    destruct (0 <? _); simpl; rewrite ?Hrs', ?Hjs', ?Hri, ?Hji; done.
Qed.

Lemma jump_indices (p : Player.t) :
  Player.jumping_sprites p ≠ [] → indices_in_range p → indices_in_range (Player.jump p).
Proof.
  intros Hjn (Hr & Hj & Hc). unfold indices_in_range, Player.jump.
  destruct (Player.action p); simpl; [|done].
  split; [done|]. split; [|done].
  pose proof (length_pos_of_nonempty _ Hjn) as Hlen.
  rewrite Zlt_Qlt in Hlen. change (inject_Z 0) with 0%Q in Hlen. lra.
Qed.

Lemma init_indices (a : Assets) :
  indices_in_range (Player.set_invincibility_frame (Player.init a) 0).
Proof.
  destruct (sprite_lists_nonempty a) as [Hn1 Hn2].
  unfold indices_in_range, Player.init.
  destruct (Player.sprite_lists a) as [rs js]. simpl in *.
  pose proof (length_pos_of_nonempty _ Hn1) as H1.
  pose proof (length_pos_of_nonempty _ Hn2) as H2.
  rewrite Zlt_Qlt in H1, H2. change (inject_Z 0) with 0%Q in H1, H2. lra.
Qed.

(** X10.  The animation never runs off its sprites.  For the player of
    every world the main loop reaches, the running, jumping and current
    sprite indices are at least 0 and below the length of their lists,
    so [int(current_sprite_index)] is a valid index of
    [current_sprite_list] and the clamp in [update] and [draw] changes
    nothing. *)
Theorem sprite_index_in_range (a : Assets) (w : World) (p : Player.t) :
  reachable a w → player w = Some p →
  indices_in_range p ∧
  0 ≤ py_int (Player.current_sprite_index p)
    < Z.of_nat (length (Player.current_sprite_list p)) ∧
  Player.frame_index p = py_int (Player.current_sprite_index p).
Proof.
  intros Hr Hp.
  assert (indices_in_range p ∧ Player.jumping_sprites p ≠ []) as [Hin _].
  { revert w p Hr Hp.
    apply (reachable_player_invariant a
             (λ p, indices_in_range p ∧ Player.jumping_sprites p ≠ [])).
    - split; [apply init_indices|].
      destruct (sprite_lists_nonempty a) as [_ Hn].
      unfold Player.init. by destruct (Player.sprite_lists a).
    - intros p [Hi Hn]. split; [by apply jump_indices|].
      by destruct (jump_sprites p) as [_ ->].
    - intros p dt Hok [Hi Hn]. split; [by apply (update_indices a)|].
      by destruct (update_sprites p dt) as [_ ->].
    - done. }
  split; [done|].
  destruct Hin as (_ & _ & Hc). apply py_int_range in Hc.
  split; [done|]. unfold Player.frame_index. lia.
Qed.

Lemma sprite_index_in_range_witness :
  indices_in_range (player_after one_hit) ∧
  Player.frame_index (player_after one_hit)
  = py_int (Player.current_sprite_index (player_after one_hit)).
Proof.
  destruct (sprite_index_in_range sample_assets (world_after one_hit)
                                  (player_after one_hit)) as (H1 & _ & H2).
  - exists [1; 2; 3]%nat, one_hit. vm_compute. reflexivity.
  - vm_compute. reflexivity.
  - split; [exact H1|exact H2].
Defined.

(** X11.  The heart animation never runs off its sprites: in every
    world the main loop reaches, if there are heart sprites the heart
    index is at least 0 and below their number, so
    [heart_sprites[int(heart_sprite_index)]] is a valid access. *)
Theorem heart_index_in_range (a : Assets) (w : World) :
  reachable a w → heart_sprites a ≠ [] →
  (0 <= heart_sprite_index w < inject_Z (Z.of_nat (length (heart_sprites a))))%Q ∧
  0 ≤ py_int (heart_sprite_index w) < Z.of_nat (length (heart_sprites a)).
Proof.
  intros Hr Hne.
  assert (0 <= heart_sprite_index w
          < inject_Z (Z.of_nat (length (heart_sprites a))))%Q as H.
  { pose proof (length_pos_of_nonempty _ Hne) as Hlen.
    revert w Hr. apply (reachable_invariant a); try done.
    - intros g. simpl. rewrite Zlt_Qlt in Hlen. change (inject_Z 0) with 0%Q in Hlen. lra.
    - intros w _. unfold reset_game. destruct (Obstacle.init _ _ _). simpl.
      rewrite Zlt_Qlt in Hlen. change (inject_Z 0) with 0%Q in Hlen. lra.
    - intros w events dt w' _ _ Hw'.
      apply handle_playing_inv in Hw' as (p & w1 & w2 & w3 & _ & _ & _ & _ & ->).
      unfold draw_hud. destruct (heart_sprites a) eqn:E; [done|].
      cbn [heart_sprite_index set_heart_sprite_index].
      by apply py_mod_range. }
  split; [done|]. by apply py_int_range.
Qed.

Lemma heart_index_in_range_witness :
  0 ≤ py_int (heart_sprite_index (world_after one_hit))
    < Z.of_nat (length (heart_sprites sample_assets)).
Proof.
  apply heart_index_in_range.
  - exists [1; 2; 3]%nat, one_hit. vm_compute. reflexivity.
  - discriminate.
Defined.

(** ** The blink of the invincibility window *)

Lemma drawn_blink (p : Player.t) (k : Z) :
  Player.current_sprite_list p ≠ [] → 0 < k →
  drawn (Player.set_invincibility_frame p k) = (k `mod` 10 <? 5).
Proof.
  intros Hne Hk. unfold drawn, Player.draw. cbn.
  rewrite (is_nil_false _ Hne).
  assert ((0 <? k) = true) as -> by lia.
  by destruct (k `mod` 10 <? 5).
Qed.

Lemma mod10_shift (c q : Z) : (c + 10 * q) `mod` 10 = c `mod` 10.
Proof. rewrite (Z.mul_comm 10 q). apply Z_mod_plus_full. Qed.

Lemma length_filter_fmap {A B} (f : B → bool) (g : A → B) (l : list A) :
  length (List.filter f (g <$> l)) = length (List.filter (λ x, f (g x)) l).
Proof.
  induction l as [|x l IH]; [done|]. cbn. destruct (f (g x)); simpl; by rewrite IH.
Qed.

Lemma half_of_ten_pass (t : Z) :
  length (List.filter (λ k, k `mod` 10 <? 5) (seqZ t 10)) = 5%nat.
Proof.
  assert (∃ q r, t = 10 * q + r ∧ 0 ≤ r < 10) as (q & r & -> & Hr).
  { exists (t `div` 10), (t `mod` 10).
    pose proof (Z.div_mod t 10). pose proof (Z.mod_pos_bound t 10). lia. }
  rewrite <- fmap_add_seqZ, length_filter_fmap.
  rewrite (filter_ext _ (λ k, k `mod` 10 <? 5)).
  - assert (r = 0 ∨ r = 1 ∨ r = 2 ∨ r = 3 ∨ r = 4 ∨ r = 5 ∨ r = 6 ∨ r = 7 ∨ r = 8 ∨ r = 9)
      as Hcases by lia.
    repeat (destruct Hcases as [->|Hcases]; [reflexivity|]).
    subst r. reflexivity.
  - intros k. by rewrite Z.add_comm, mod10_shift.
Qed.

(** X12.  The blink.  A player with sprites is drawn when its timer is
    0; while the timer is above 0 it is drawn exactly when the timer
    modulo 10 is below 5, which is in 5 of any 10 consecutive timer
    values. *)
Theorem blink_half_of_the_time (p : Player.t) (t : Z) :
  Player.current_sprite_list p ≠ [] → 0 < t →
  drawn (Player.set_invincibility_frame p 0) = true ∧
  drawn (Player.set_invincibility_frame p t) = (t `mod` 10 <? 5) ∧
  length (List.filter (λ k, drawn (Player.set_invincibility_frame p k)) (seqZ t 10))
  = 5%nat.
Proof.
  intros Hne Ht. split; [|split].
  - unfold drawn, Player.draw. cbn. by rewrite (is_nil_false _ Hne).
  - by apply drawn_blink.
  - rewrite <- (half_of_ten_pass t). f_equal.
    apply filter_ext_in_iff. intros k Hk.
    apply list_elem_of_In, elem_of_seqZ in Hk. apply drawn_blink; [done|lia].
Qed.

Lemma blink_half_of_the_time_witness :
  drawn (Player.set_invincibility_frame (player_after one_hit) 60) = (60 `mod` 10 <? 5) ∧
  length (List.filter
            (λ k, drawn (Player.set_invincibility_frame (player_after one_hit) k))
            (seqZ 51 10)) = 5%nat.
Proof.
  destruct (blink_half_of_the_time (player_after one_hit) 60) as (_ & H1 & _);
    [vm_compute; discriminate|reflexivity|].
  destruct (blink_half_of_the_time (player_after one_hit) 51) as (_ & _ & H2);
    [vm_compute; discriminate|reflexivity|].
  split; [exact H1|exact H2].
Defined.

(** ** The arc of a jump *)

Lemma update_double_fields (p : Player.t) (dt : Q) :
  Player.running_sprites p ≠ [] → Player.jumping_sprites p ≠ [] →
  Player.action (Player_update_double p dt)
  = Player.action (Player_update_physics_double p) ∧
  Player.y (Player_update_double p dt) = Player.y (Player_update_physics_double p) ∧
  Player.vel_y (Player_update_double p dt)
  = Player.vel_y (Player_update_physics_double p).
Proof.
  intros Hr Hj. unfold Player_update_double.
  rewrite (is_nil_false _ Hr), (is_nil_false _ Hj). cbn [orb].
  unfold Player.update_invincibility, Player.update_image, Player_update_animation_double.
  destruct (Player.action (Player_update_physics_double p)) eqn:Ea; cbn;
    destruct (0 <? _); cbn; by rewrite ?Ea.
Qed.

Lemma update_double_sprites (p : Player.t) (dt : Q) :
  Player.running_sprites (Player_update_double p dt) = Player.running_sprites p ∧
  Player.jumping_sprites (Player_update_double p dt) = Player.jumping_sprites p.
Proof.
  unfold Player_update_double. destruct (_ || _); [done|].
  unfold Player.update_invincibility, Player.update_image, Player_update_animation_double,
    Player_update_physics_double.
  destruct (Player.action p) eqn:Ea; cbn.
  - destruct (Qltb _ _); cbn; rewrite Ea; cbn; destruct (0 <? _); done.
  - destruct (Qle_bool _ _); cbn; rewrite ?Ea; cbn; destruct (0 <? _); done.
Qed.

Lemma player_calls_double_snoc (p : Player.t) (cs : list PlayerCall) (c : PlayerCall) :
  player_calls_double p (cs ++ [c]) = player_call_double (player_calls_double p cs) c.
Proof. unfold player_calls_double. apply foldl_snoc. Qed.

Lemma player_calls_double_sprites (p : Player.t) (cs : list PlayerCall) :
  Player.running_sprites (player_calls_double p cs) = Player.running_sprites p ∧
  Player.jumping_sprites (player_calls_double p cs) = Player.jumping_sprites p.
Proof.
  induction cs as [|c cs IH] using rev_ind; [done|].
  rewrite player_calls_double_snoc. destruct IH as [<- <-].
  destruct c; [apply jump_sprites|apply update_double_sprites].
Qed.

(** The heights of a jump, by evaluation of the 41 steps: in the air
    through the updates 1 to 40, never more than 42 pixels up, and at
    the ground again with the step 41. *)
Lemma flight_all_spec (P : nat → Q * Q → bool) (n k j : nat) :
  flight_all P k n (flight k) = true → (k ≤ j < k + n)%nat → P j (flight j) = true.
Proof.
  revert k. induction n as [|n IH]; intros k H Hj; [lia|].
  cbn [flight_all] in H. apply andb_true_iff in H as [H1 H2].
  destruct (Nat.eq_dec j k) as [->|Hne]; [done|].
  apply (IH (S k)); [exact H2|lia].
Qed.

Lemma flight_heights (k : nat) :
  (k ≤ 40)%nat →
  (inject_Z (PLAYER_LAND_Y - 42) <= (flight k).1 <= inject_Z PLAYER_LAND_Y)%Q ∧
  ((1 ≤ k)%nat → Qle_bool (inject_Z PLAYER_LAND_Y) (flight k).1 = false).
Proof.
  intros Hk.
  assert (flight_all (λ k s, Qle_bool (inject_Z (PLAYER_LAND_Y - 42)) s.1
                             && Qle_bool s.1 (inject_Z PLAYER_LAND_Y)
                             && ((k =? 0)%nat
                                 || negb (Qle_bool (inject_Z PLAYER_LAND_Y) s.1)))
                     0 41 (flight 0) = true) as H by (vm_compute; reflexivity).
  apply (flight_all_spec _ 41 0 k) in H; [|lia]. apply andb_true_iff in H as [H H3].
  apply andb_true_iff in H as [H1 H2].
  apply Qle_bool_iff in H1. apply Qle_bool_iff in H2. split; [done|].
  intros Hk1. apply orb_true_iff in H3 as [H3|H3].
  - apply Nat.eqb_eq in H3. lia.
  - by apply negb_true_iff in H3.
Qed.

Lemma flight_lands : Qle_bool (inject_Z PLAYER_LAND_Y) (flight 41).1 = true.
Proof. vm_compute. reflexivity. Qed.

Lemma flight_next (k : nat) (p : Player.t) (dt : Q) :
  Player.running_sprites p ≠ [] → Player.jumping_sprites p ≠ [] →
  in_flight k p →
  if Qle_bool (inject_Z PLAYER_LAND_Y) (flight (S k)).1
  then Player.action (Player_update_double p dt) = running ∧
       Player.y (Player_update_double p dt) = inject_Z PLAYER_LAND_Y ∧
       Player.vel_y (Player_update_double p dt) = 0%Q
  else in_flight (S k) (Player_update_double p dt).
Proof.
  intros Hr Hj [Ha Hf]. unfold in_flight.
  destruct (update_double_fields p dt Hr Hj) as (-> & -> & ->).
  change (flight (S k)) with (flight_step (flight k)). rewrite <- Hf.
  unfold flight_step, Player_update_physics_double. rewrite Ha.
  cbn [fst snd Player.y Player.vel_y Player.set_y Player.set_vel_y].
  destruct (Qle_bool _ _); cbn; [done|]. done.
Qed.

Lemma jump_in_flight (p : Player.t) :
  Player.action p = running → Player.y p = inject_Z PLAYER_LAND_Y →
  in_flight 0 (Player.jump p).
Proof.
  intros Ha Hy. unfold in_flight, Player.jump. rewrite Ha. cbn. by rewrite Hy.
Qed.

Lemma flight_after_updates (p : Player.t) (dts : list Q) :
  Player.running_sprites p ≠ [] → Player.jumping_sprites p ≠ [] →
  in_flight 0 p → (length dts ≤ 40)%nat →
  in_flight (length dts) (player_calls_double p (Update <$> dts)).
Proof.
  intros Hr Hj H0. induction dts as [|dt dts IH] using rev_ind; [done|].
  rewrite length_app, fmap_app. change (Update <$> [dt]) with [Update dt].
  rewrite player_calls_double_snoc. cbn [length player_call_double].
  intros Hlen. replace (length dts + 1)%nat with (S (length dts)) by lia.
  destruct (player_calls_double_sprites p (Update <$> dts)) as [Hr' Hj'].
  pose proof (flight_next (length dts) _ dt ltac:(by rewrite Hr') ltac:(by rewrite Hj')
                (IH ltac:(lia))) as Hn.
  destruct (flight_heights (S (length dts)) ltac:(lia)) as [_ Hair].
  by rewrite (Hair ltac:(lia)) in Hn.
Qed.

(** X14.  A jump lasts 41 updates, in double precision.  After [jump()]
    on the ground the player is in the air through the next 40 calls
    of [update], whatever their [dt], below the ground line after the
    first and never more than 42 pixels up; the 41st puts it back on
    the ground, running, with no velocity. *)
Theorem jump_lasts_41_updates (p : Player.t) (dts : list Q) :
  Player.running_sprites p ≠ [] → Player.jumping_sprites p ≠ [] →
  Player.action p = running → Player.y p = inject_Z PLAYER_LAND_Y →
  ((length dts ≤ 40)%nat →
   in_flight (length dts) (player_calls_double p (Jump :: (Update <$> dts))) ∧
   (inject_Z (PLAYER_LAND_Y - 42)
    <= Player.y (player_calls_double p (Jump :: (Update <$> dts)))
    <= inject_Z PLAYER_LAND_Y)%Q ∧
   ((1 ≤ length dts)%nat →
    (Player.y (player_calls_double p (Jump :: (Update <$> dts)))
     < inject_Z PLAYER_LAND_Y)%Q)) ∧
  (length dts = 41%nat →
   Player.action (player_calls_double p (Jump :: (Update <$> dts))) = running ∧
   Player.y (player_calls_double p (Jump :: (Update <$> dts))) = inject_Z PLAYER_LAND_Y ∧
   Player.vel_y (player_calls_double p (Jump :: (Update <$> dts))) = 0%Q).
Proof.
  intros Hr Hj Ha Hy.
  change (player_calls_double p (Jump :: (Update <$> dts)))
    with (player_calls_double (Player.jump p) (Update <$> dts)).
  destruct (jump_sprites p) as [Hr' Hj'].
  pose proof (jump_in_flight p Ha Hy) as H0.
  split.
  - intros Hlen.
    pose proof (flight_after_updates (Player.jump p) dts ltac:(by rewrite Hr')
                  ltac:(by rewrite Hj') H0 Hlen) as Hf.
    split; [done|]. destruct Hf as [_ Hf].
    destruct (flight_heights (length dts) Hlen) as [Hb Hair].
    rewrite <- Hf in Hb, Hair. cbn [fst] in Hb, Hair. split; [done|].
    intros H1. apply Qle_bool_gt. by apply Hair.
  - intros Hlen. destruct dts as [|dt dts _] using rev_ind; [done|].
    rewrite length_app in Hlen. cbn in Hlen.
    rewrite fmap_app. change (Update <$> [dt]) with [Update dt].
    rewrite player_calls_double_snoc. cbn [player_call_double].
    destruct (player_calls_double_sprites (Player.jump p) (Update <$> dts)) as [Hr2 Hj2].
    pose proof (flight_after_updates (Player.jump p) dts ltac:(by rewrite Hr')
                  ltac:(by rewrite Hj') H0 ltac:(lia)) as Hf.
    replace (length dts) with 40%nat in Hf by lia.
    pose proof (flight_next 40 _ dt ltac:(by rewrite Hr2, Hr') ltac:(by rewrite Hj2, Hj')
                  Hf) as Hn.
    by rewrite flight_lands in Hn.
Qed.

Lemma jump_lasts_41_updates_witness :
  Player.action (player_calls_double (Player.init sample_assets)
                                     (Jump :: (Update <$> replicate 41 (frame_dt 16))))
  = running.
Proof.
  destruct (jump_lasts_41_updates (Player.init sample_assets)
                                  (replicate 41 (frame_dt 16))) as [_ H].
  - vm_compute. discriminate.
  - vm_compute. discriminate.
  - reflexivity.
  - reflexivity.
  - apply H. reflexivity.
Defined.

(** X14, the values: the velocity after two updates of a jump is the
    double -3.5999999999999996, the height after three is
    270.59999999999997, the velocity after 40 is 4.000000000000003,
    and the highest point is 240 exactly. *)
Example flight_values :
  (flight 2).2 = (-2026619832316723 # 562949953421312)%Q ∧
  (flight 3).1 = (4760445543618969 # 17592186044416)%Q ∧
  (flight 40).2 = (4503599627370499 # 1125899906842624)%Q ∧
  (flight 20).1 = 240%Q.
Proof. vm_compute. repeat split. Qed.

Lemma calls_double_on_flight (a : Assets) (cs : list PlayerCall) :
  (Player.action (player_calls_double (Player.init a) cs) = running ∧
   Player.y (player_calls_double (Player.init a) cs) = inject_Z PLAYER_LAND_Y) ∨
  (∃ k, (k ≤ 40)%nat ∧ in_flight k (player_calls_double (Player.init a) cs)).
Proof.
  destruct (sprite_lists_nonempty a) as [Hn1 Hn2].
  destruct (init_sprites a) as [Hi1 Hi2].
  induction cs as [|c cs IH] using rev_ind.
  { left. unfold player_calls_double, Player.init. cbn.
    by destruct (Player.sprite_lists a). }
  rewrite player_calls_double_snoc.
  destruct (player_calls_double_sprites (Player.init a) cs) as [Hr Hj].
  set (q := player_calls_double (Player.init a) cs) in *.
  assert (Player.running_sprites q ≠ []) as Hrq by (by rewrite Hr, Hi1).
  assert (Player.jumping_sprites q ≠ []) as Hjq by (by rewrite Hj, Hi2).
  destruct c as [|dt]; cbn [player_call_double].
  - destruct IH as [[Ha Hy]|(k & Hk & Ha & Hf)].
    + right. exists 0%nat. split; [lia|]. by apply jump_in_flight.
    + right. exists k. split; [done|]. unfold in_flight, Player.jump. by rewrite Ha.
  - destruct IH as [[Ha Hy]|(k & Hk & Hf)].
    + left. destruct (update_double_fields q dt Hrq Hjq) as (-> & -> & _).
      unfold Player_update_physics_double. rewrite Ha, Hy.
      replace (Qltb _ _) with false by done. done.
    + pose proof (flight_next k q dt Hrq Hjq Hf) as Hn.
      destruct (Qle_bool _ _) eqn:E.
      * left. by destruct Hn as (? & ? & _).
      * right. exists (S k). split; [|done].
        destruct (Nat.eq_dec k 40%nat) as [->|]; [|lia].
        rewrite flight_lands in E. done.
Qed.

(** X13.  The height of the player, in double precision.  After any
    sequence of [jump()] and [update(dt)] calls on a new player, the
    player is on the ground at [PLAYER_LAND_Y], running, or in the air,
    at most 40 updates into a jump, with the height and the velocity
    those updates give; its [y] is never more than 42 pixels above the
    ground line and never below it. *)
Theorem jump_stays_on_arc (a : Assets) (cs : list PlayerCall) :
  ((Player.action (player_calls_double (Player.init a) cs) = running ∧
    Player.y (player_calls_double (Player.init a) cs) = inject_Z PLAYER_LAND_Y) ∨
   (∃ k, (k ≤ 40)%nat ∧ in_flight k (player_calls_double (Player.init a) cs))) ∧
  (inject_Z (PLAYER_LAND_Y - 42)
   <= Player.y (player_calls_double (Player.init a) cs)
   <= inject_Z PLAYER_LAND_Y)%Q.
Proof.
  pose proof (calls_double_on_flight a cs) as H. split; [done|].
  destruct H as [[_ ->]|(k & Hk & _ & Hf)].
  - split; [by vm_compute|apply Qle_refl].
  - destruct (flight_heights k Hk) as [Hb _]. rewrite <- Hf in Hb. done.
Qed.

(** ** The background *)

Lemma layer_tiles_spec (offset : Q) (layer : Surface) (n : nat) :
  0 < get_width layer →
  ∃ start_x,
    - get_width layer ≤ start_x < 0 ∧
    layer_tiles offset layer n =
    Some (map (λ j, (start_x + Z.of_nat j * get_width layer,
                     GAME_HEIGHT - get_height layer))
              (seq 0 (n + 2))).
Proof.
  intros Hw. unfold layer_tiles.
  assert ((get_width layer =? 0) = false) as -> by lia.
  pose proof (py_int_range _ _ (py_mod_range offset _ Hw)) as Hm.
  eexists. split; [|reflexivity]. lia.
Qed.

(** X15.  The tiles of a layer cover the screen.  For a layer of
    positive width and any offset, [draw_layered_background] blits the
    layer [num_tiles + 2] times, side by side on the bottom edge of the
    screen, and every column from 0 up to [(num_tiles + 1)] layer widths
    lies in one of the tiles. *)
Theorem background_tiles_cover (offset : Q) (layer : Surface) (n : nat) (px : Z) :
  0 < get_width layer → 0 ≤ px < (Z.of_nat n + 1) * get_width layer →
  ∃ tiles,
    layer_tiles offset layer n = Some tiles ∧
    length tiles = (n + 2)%nat ∧
    (∀ t, In t tiles → t.2 + get_height layer = GAME_HEIGHT) ∧
    (∃ t, In t tiles ∧ t.1 ≤ px < t.1 + get_width layer).
Proof.
  intros Hw Hpx.
  destruct (layer_tiles_spec offset layer n Hw) as (sx & Hsx & ->).
  eexists. split; [reflexivity|]. split; [by rewrite length_map, length_seq|]. split.
  - intros t (j & <- & _)%in_map_iff. cbn. lia.
  - set (j := (px - sx) `div` get_width layer).
    assert (0 ≤ j < Z.of_nat n + 2) as Hj.
    { subst j. split; [apply Z.div_pos; lia|apply Z.div_lt_upper_bound; lia]. }
    exists (sx + Z.of_nat (Z.to_nat j) * get_width layer, GAME_HEIGHT - get_height layer).
    split.
    + apply in_map_iff. exists (Z.to_nat j). split; [done|]. apply in_seq. lia.
    + cbn. rewrite Z2Nat.id by lia. subst j.
      pose proof (Z.div_mod (px - sx) (get_width layer) ltac:(lia)).
      pose proof (Z.mod_pos_bound (px - sx) (get_width layer) Hw). lia.
Qed.

Lemma background_tiles_cover_witness :
  ∃ tiles,
    layer_tiles (-(950)) (block 600 432) num_bg_tiles = Some tiles ∧
    length tiles = 3%nat ∧
    (∀ t, In t tiles → t.2 + 432 = GAME_HEIGHT) ∧
    (∃ t, In t tiles ∧ t.1 ≤ 799 < t.1 + 600).
Proof.
  apply (background_tiles_cover (-(950)) (block 600 432) num_bg_tiles 799).
  - reflexivity.
  - vm_compute. split; [discriminate|reflexivity].
Defined.

Lemma mapM_Forall {A B} (f : A → option B) (P : B → Prop) (l : list A) :
  Forall (λ x, ∃ y, f x = Some y ∧ P y) l →
  ∃ k, mapM f l = Some k ∧ length k = length l ∧ Forall P k.
Proof.
  induction 1 as [|x l (y & Hy & HP) _ (k & Hk & Hlen & HPk)].
  - by exists [].
  - exists (y :: k). cbn. rewrite Hy. cbn. rewrite Hk. cbn.
    split; [done|]. split; [by rewrite Hlen|by constructor].
Qed.

Lemma handle_playing_offsets (a : Assets) (w w' : World) (events : list Event) (dt : Q) :
  handle_playing a w events dt = Some w' →
  parallax_offsets w' =
  update_parallax (parallax_offsets w) (background_layers a) (speed w) dt.
Proof.
  intros H. apply handle_playing_inv in H as (p & w1 & w2 & w3 & Hp & H1 & H2 & H3 & ->).
  destruct (draw_hud_fields a w3) as (_ & _ & _ & _ & _ & _ & _ & -> & _).
  assert (parallax_offsets w3 = parallax_offsets w2) as ->.
  { revert H3. unfold collision_detection.
    destruct (player w2) as [p2|]; [|done].
    destruct (obstacles_group w2) as [g|]; [|done]. cbn [mbind option_bind].
    destruct (_ <=? 0); [|by intros [= <-]].
    destruct (spritecollide _ _ _) as [|c l]; [by intros [= <-]|].
    destruct (respawn_fields a (set_player w2 (hit p2)) g c) as (_ & _ & _ & _ & Hpo & _).
    destruct (_ <=? 0); intros [= <-]; cbn [parallax_offsets set_game_state];
      by rewrite Hpo. }
  assert (parallax_offsets w2 = parallax_offsets w1) as ->.
  { revert H2. unfold obstacle_management.
    destruct (obstacle w1) as [r|]; [|done].
    destruct (obstacles_group w1) as [g|]; [|done]. cbn [mbind option_bind].
    destruct (sprites w1 !! r); [|done]. cbn [mbind option_bind].
    destruct (passed _); intros [= <-]; [|done].
    by destruct (respawn_fields a (award w1) g r) as (_ & _ & _ & _ & -> & _). }
  revert H1. unfold playing_updates.
  cbn [player obstacle obstacles_group sprites set_game_state set_player].
  destruct (obstacle w); [|done].
  destruct (obstacles_group w); [|done]. cbn [mbind option_bind].
  destruct (sprites w !! _); [|done]. cbn [mbind option_bind].
  by intros [= <-].
Qed.

Lemma session_offsets_length (a : Assets) (w : World) :
  reachable a w → is_Some (player w) →
  length (parallax_offsets w) = length (background_layers a).
Proof.
  revert w.
  apply (reachable_invariant a
           (λ w, is_Some (player w) →
                 length (parallax_offsets w) = length (background_layers a))).
  - intros g [p Hp]. done.
  - done.
  - done.
  - intros w _ _. destruct (reset_game_fields a w) as (_ & _ & _ & _ & _ & -> & _).
    apply length_replicate.
  - intros w events dt w' _ _ Hw' _.
    rewrite (handle_playing_offsets a w w' events dt Hw').
    apply update_parallax_length.
Qed.

(** X16.  Every layer is drawn in every frame of a session.  In a world
    the main loop reaches with a player, there is one parallax offset
    per background layer, and, no layer being of width 0, drawing the
    background with them divides by no zero and blits each layer three
    times; a playing frame replaces the offsets by those of one
    [update_parallax] call at the speed the frame began with. *)
Theorem background_is_drawn (a : Assets) (w : World) :
  reachable a w → is_Some (player w) →
  Forall (λ layer, 0 < get_width layer) (background_layers a) →
  length (parallax_offsets w) = length (background_layers a) ∧
  (∃ tiles,
     draw_layered_background (background_layers a) (parallax_offsets w) num_bg_tiles
     = Some tiles ∧
     length tiles = length (background_layers a) ∧
     Forall (λ ts, length ts = 3%nat) tiles) ∧
  (∀ events dt w',
     handle_playing a w events dt = Some w' →
     parallax_offsets w' =
     update_parallax (parallax_offsets w) (background_layers a) (speed w) dt).
Proof.
  intros Hr Hp Hpos.
  pose proof (session_offsets_length a w Hr Hp) as Hlen.
  split; [done|]. split; [|intros events dt w'; apply handle_playing_offsets].
  unfold draw_layered_background.
  destruct (mapM_Forall
              (λ il : nat * Surface,
                 match parallax_offsets w !! il.1 with
                 | Some offset => layer_tiles offset il.2 num_bg_tiles
                 | None => Some []
                 end)
              (λ ts, length ts = 3%nat) (imap pair (background_layers a)))
    as (tiles & Ht & Hl & HF).
  - apply Forall_forall. intros [i layer] (i' & layer' & [= -> ->] & Hi)%elem_of_lookup_imap.
    cbn [fst snd].
    destruct (lookup_lt_is_Some_2 (parallax_offsets w) i') as [off ->].
    { rewrite Hlen. by apply lookup_lt_Some in Hi. }
    assert (0 < get_width layer') as Hw.
    { rewrite Forall_forall in Hpos. apply Hpos. by apply list_elem_of_lookup_2 in Hi. }
    destruct (layer_tiles_spec off layer' num_bg_tiles Hw) as (sx & _ & ->).
    eexists. split; [reflexivity|]. by rewrite length_map, length_seq.
  - exists tiles. split; [done|]. split; [|done]. by rewrite Hl, length_imap.
Qed.

Lemma background_is_drawn_witness :
  length (parallax_offsets (world_after one_hit)) = 2%nat ∧
  ∃ tiles,
    draw_layered_background (background_layers sample_assets)
                            (parallax_offsets (world_after one_hit)) num_bg_tiles
    = Some tiles ∧
    length tiles = 2%nat ∧ Forall (λ ts, length ts = 3%nat) tiles.
Proof.
  destruct (background_is_drawn sample_assets (world_after one_hit)) as (H1 & H2 & _).
  - exists [1; 2; 3]%nat, one_hit. vm_compute. reflexivity.
  - vm_compute. eexists. reflexivity.
  - repeat constructor.
  - split; [exact H1|exact H2].
Defined.

(** ** Obstacle.reset *)

Lemma randbelow_lt (n : nat) (g : Rng) : (0 < n)%nat → ((randbelow n g).1 < n)%nat.
Proof.
  intros Hn. unfold randbelow. destruct g as [|r g]; cbn [fst]; [done|].
  apply Nat.mod_upper_bound. lia.
Qed.

Lemma randbelow_rest (n : nat) (g : Rng) : (randbelow n g).2 = tl g.
Proof. unfold randbelow. by destruct g. Qed.

(** X17.  [Obstacle.reset] puts the obstacle beyond the right edge by a
    drawn offset between [OBSTACLE_SPAWN_OFFSET_MIN] and
    [OBSTACLE_SPAWN_OFFSET_MAX], gives it one of its own images, with
    the rectangle and mask of that image, standing on the bottom edge,
    and the speed it is passed; it consumes two draws. *)
Theorem reset_spawns_beyond_the_edge (o : Obstacle.t) (s : Q) (g : Rng) :
  Obstacle.obstacle_images o ≠ [] →
  ∃ k, OBSTACLE_SPAWN_OFFSET_MIN ≤ k ≤ OBSTACLE_SPAWN_OFFSET_MAX ∧
       Obstacle.x (Obstacle.reset o s g).1 = inject_Z (GAME_WIDTH + k) ∧
       Rect.x (Obstacle.rect (Obstacle.reset o s g).1) = GAME_WIDTH + k ∧
       Obstacle.image (Obstacle.reset o s g).1 ∈ Obstacle.obstacle_images o ∧
       Obstacle.mask (Obstacle.reset o s g).1
       = from_surface (Obstacle.image (Obstacle.reset o s g).1) ∧
       Rect.y (Obstacle.rect (Obstacle.reset o s g).1)
       + get_height (Obstacle.image (Obstacle.reset o s g).1) = GAME_HEIGHT ∧
       Obstacle.game_speed (Obstacle.reset o s g).1 = s ∧
       Obstacle.obstacle_images (Obstacle.reset o s g).1 = Obstacle.obstacle_images o ∧
       (Obstacle.reset o s g).2 = drop 2 g.
Proof.
  intros Hne. unfold Obstacle.reset, choice, randint.
  pose proof (randbelow_rest (length (Obstacle.obstacle_images o)) g) as Hg1.
  pose proof (randbelow_lt (length (Obstacle.obstacle_images o)) g) as Hk1.
  destruct (randbelow (length (Obstacle.obstacle_images o)) g) as [k1 g1].
  cbn [fst snd] in Hg1, Hk1.
  pose proof (randbelow_rest
                (Z.to_nat (OBSTACLE_SPAWN_OFFSET_MAX - OBSTACLE_SPAWN_OFFSET_MIN + 1)) g1)
    as Hg2.
  pose proof (randbelow_lt
                (Z.to_nat (OBSTACLE_SPAWN_OFFSET_MAX - OBSTACLE_SPAWN_OFFSET_MIN + 1)) g1)
    as Hk2.
  destruct (randbelow _ g1) as [k2 g2]. cbn [fst snd] in Hg2, Hk2.
  exists (OBSTACLE_SPAWN_OFFSET_MIN + Z.of_nat k2).
  cbn [fst snd Obstacle.x Obstacle.rect Obstacle.image Obstacle.mask
       Obstacle.game_speed Obstacle.obstacle_images].
  unfold get_rect, Rect.of_floats. cbn [Rect.x Rect.y]. rewrite !py_int_inject_Z.
  split.
  { unfold OBSTACLE_SPAWN_OFFSET_MIN, OBSTACLE_SPAWN_OFFSET_MAX in *.
    specialize (Hk2 ltac:(lia)). lia. }
  repeat split.
  - apply list_elem_of_In, nth_In, Hk1. destruct (Obstacle.obstacle_images o); [done|].
    cbn. lia.
  - lia.
  - subst g2 g1. by destruct g as [|? [|? ?]].
Qed.

Lemma reset_spawns_beyond_the_edge_witness :
  ∃ k, OBSTACLE_SPAWN_OFFSET_MIN ≤ k ≤ OBSTACLE_SPAWN_OFFSET_MAX ∧
       Obstacle.x (Obstacle.reset (obstacle_after start_only) 5 [2; 3]%nat).1
       = inject_Z (GAME_WIDTH + k).
Proof.
  destruct (reset_spawns_beyond_the_edge (obstacle_after start_only) 5 [2; 3]%nat)
    as (k & Hk & Hx & _).
  - vm_compute. discriminate.
  - exists k. split; [exact Hk|exact Hx].
Defined.

(** ** A new game *)

Lemma reset_game_fresh (a : Assets) (w : World) : fresh_session a (reset_game a w).
Proof.
  destruct (obstacle_init_fields a STARTING_SPEED (rng w)) as (Hs & Hx & _).
  unfold fresh_session, reset_game.
  destruct (Obstacle.init a STARTING_SPEED (rng w)) as [o g]. cbn [fst] in Hs, Hx.
  cbn [score speed heart_sprite_index parallax_offsets player obstacle obstacles_group
       sprites].
  repeat (split; [done|]). exists (next_ref w), o.
  rewrite lookup_insert_eq. done.
Qed.

Lemma fresh_set_game_state (a : Assets) (w : World) (s : GameState) :
  fresh_session a w → fresh_session a (set_game_state w s).
Proof. done. Qed.

Lemma fresh_set_quit_game (a : Assets) (w : World) (b : bool) :
  fresh_session a w → fresh_session a (set_quit_game w b).
Proof. done. Qed.

Lemma main_menu_event_fresh (a : Assets) (w : World) (ev : Event) :
  fresh_session a w ∨ clicks MainMenu.start ev = true →
  fresh_session a (main_menu_event a w ev).
Proof.
  intros H. unfold main_menu_event, clicks in *.
  destruct ev as [|k|[|[| |]|] pos|]; try (by destruct H).
  destruct (Rect.collidepoint MainMenu.start pos).
  { apply fresh_set_game_state, reset_game_fresh. }
  destruct H as [H|]; [|done].
  repeat (destruct (Rect.collidepoint _ _); [done|]). done.
Qed.

Lemma game_over_event_fresh (a : Assets) (w : World) (ev : Event) :
  fresh_session a w ∨ clicks (GameOver.retry a) ev = true →
  fresh_session a (game_over_event a w ev).
Proof.
  intros H. unfold game_over_event, clicks in *.
  destruct ev as [|k|[|[| |]|] pos|]; try (by destruct H).
  destruct (Rect.collidepoint (GameOver.retry a) pos).
  { apply fresh_set_game_state, reset_game_fresh. }
  destruct H as [H|]; [|done].
  repeat (destruct (Rect.collidepoint _ _); [done|]). done.
Qed.

Lemma foldl_fresh (a : Assets) (f : World → Event → World) (r : Rect.t)
      (evs : list Event) (w : World) :
  (∀ w ev, fresh_session a w ∨ clicks r ev = true → fresh_session a (f w ev)) →
  existsb (clicks r) evs = true → fresh_session a (foldl f w evs).
Proof.
  intros Hf. induction evs as [|ev evs IH] using rev_ind; [done|].
  rewrite existsb_app, foldl_snoc. cbn [existsb]. rewrite orb_false_r.
  intros [H|H]%orb_true_iff; apply Hf; auto.
Qed.

Lemma foldl_last_state (f : World → Event → World) (r : Rect.t)
      (evs : list Event) (ev : Event) (w : World) :
  (∀ w ev, clicks r ev = true → game_state (f w ev) = STATE_PLAYING) →
  last evs = Some ev → clicks r ev = true →
  game_state (foldl f w evs) = STATE_PLAYING.
Proof.
  intros Hf. destruct evs as [|ev' evs _] using rev_ind; [done|].
  rewrite last_snoc, foldl_snoc. intros [= ->]. apply Hf.
Qed.

(** X18.  Start and Retry give a new game.  A frame of the main menu
    that holds a click on Start, or of the game-over screen that holds
    a click on Retry, leaves the session as [reset_game()] makes it,
    whatever the session before and the other events of the frame:
    score 0, the starting speed, a new player, all offsets 0 and one
    obstacle at the right edge.  If that click is the last event of the
    frame, the game is playing. *)
Theorem start_or_retry_gives_a_new_game (a : Assets) (w : World) (f : Frame) :
  (game_state w = STATE_MAIN_MENU ∧
   existsb (clicks MainMenu.start) (events f) = true) ∨
  (game_state w = STATE_GAME_OVER ∧
   existsb (clicks (GameOver.retry a)) (events f) = true) →
  ∃ w', iteration a w f = Some w' ∧ fresh_session a w' ∧
        (∀ ev, last (events f) = Some ev →
               clicks (if is_menu (game_state w) then MainMenu.start
                       else GameOver.retry a) ev = true →
               game_state w' = STATE_PLAYING).
Proof.
  unfold iteration.
  set (w0 := if existsb is_quit (events f) then set_quit_game w true else w).
  assert (game_state w0 = game_state w) as Hg0 by (subst w0; by destruct (existsb _ _)).
  clearbody w0. rewrite Hg0. intros H.
  destruct H as [[Hg Hc]|[Hg Hc]]; rewrite Hg; cbn [is_menu]; eexists;
    (split; [reflexivity|]); split.
  - apply (foldl_fresh a _ MainMenu.start); [apply main_menu_event_fresh|done].
  - intros ev. apply foldl_last_state.
    intros w1 ev1 Hev. unfold clicks in Hev. unfold main_menu_event.
    destruct ev1 as [|k|[|[| |]|] pos|]; try done. by rewrite Hev.
  - apply (foldl_fresh a _ (GameOver.retry a)); [apply game_over_event_fresh|done].
  - intros ev. apply foldl_last_state.
    intros w1 ev1 Hev. unfold clicks in Hev. unfold game_over_event.
    destruct ev1 as [|k|[|[| |]|] pos|]; try done. by rewrite Hev.
Qed.

Lemma start_or_retry_gives_a_new_game_witness :
  ∃ w', iteration sample_assets
                  (set_game_state (world_after one_hit) STATE_MAIN_MENU)
                  (mkFrame 16 [click_start]) = Some w' ∧
        fresh_session sample_assets w'.
Proof.
  destruct (start_or_retry_gives_a_new_game
              sample_assets (set_game_state (world_after one_hit) STATE_MAIN_MENU)
              (mkFrame 16 [click_start])) as (w' & H1 & H2 & _).
  - left. split; vm_compute; reflexivity.
  - exists w'. split; [exact H1|exact H2].
Defined.

(** ** The settings screen *)

Lemma py_max_range (v : Q) : (0 <= v <= 1)%Q → (0 <= py_max 0 (v - VOLUME_STEP) <= 1)%Q.
Proof.
  intros Hv. unfold py_max, VOLUME_STEP.
  destruct (Qltb _ _) eqn:E; [apply Qltb_lt in E|]; lra.
Qed.

Lemma py_min_range (v : Q) : (0 <= v <= 1)%Q → (0 <= py_min 1 (v + VOLUME_STEP) <= 1)%Q.
Proof.
  intros Hv. unfold py_min, VOLUME_STEP.
  destruct (Qltb _ _) eqn:E; [apply Qltb_lt in E|]; lra.
Qed.

Lemma switch_music_track_ok (hm : bool) (au : Audio) (i : Z) :
  audio_ok au → i = 0 ∨ i = 1 →
  audio_ok (switch_music_track hm au i) ∧
  music_volume (switch_music_track hm au i) = music_volume au ∧
  (hm = false → switch_music_track hm au i = au) ∧
  (hm = true → current_track_index (switch_music_track hm au i) = i).
Proof.
  intros [Hv Ht] Hi. unfold switch_music_track.
  destruct (i =? current_track_index au) eqn:E; cbn [negb andb].
  - apply Z.eqb_eq in E. by rewrite E.
  - destruct hm; cbn; [|done]. done.
Qed.

Lemma settings_audio_event_ok (a : Assets) (hm : bool) (st : GameState * Audio)
      (ev : Event) :
  audio_ok st.2 →
  audio_ok (settings_audio_event a hm st ev).2 ∧
  (hm = false →
   current_track_index (settings_audio_event a hm st ev).2 = current_track_index st.2) ∧
  (∀ w, game_state w = st.1 →
        game_state (settings_event w ev) = (settings_audio_event a hm st ev).1).
Proof.
  intros Hok. pose proof Hok as [Hv Ht].
  unfold settings_audio_event, settings_event.
  destruct ev as [|[]|[|[| |]|] pos|]; try done.
  destruct (Rect.collidepoint settings_back pos); [done|].
  destruct (Rect.collidepoint (Settings.volume_minus a) pos).
  { cbn. split; [|done]. split; [by apply py_max_range|done]. }
  destruct (Rect.collidepoint (Settings.volume_plus a) pos).
  { cbn. split; [|done]. split; [by apply py_min_range|done]. }
  destruct (Rect.collidepoint (Settings.track_0 a) pos).
  { destruct (switch_music_track_ok hm st.2 0 Hok ltac:(by left)) as (H1 & _ & H3 & _).
    cbn. split; [done|]. split; [|done]. intros ->. by rewrite H3. }
  destruct (Rect.collidepoint (Settings.track_1 a) pos).
  { destruct (switch_music_track_ok hm st.2 1 Hok ltac:(by right)) as (H1 & _ & H3 & _).
    cbn. split; [done|]. split; [|done]. intros ->. by rewrite H3. }
  done.
Qed.

(** X19.  The settings screen keeps the volume and the track in range.
    Whatever the events, the volume stays between 0 and 1 and the track
    index stays 0 or 1; without loaded music the track never changes;
    and the game state is the one the world's [handle_settings] gives:
    the audio buttons never change it. *)
Theorem settings_keep_audio_in_range (a : Assets) (have_music : bool) (s : GameState)
        (au : Audio) (evs : list Event) :
  (0 <= music_volume au <= 1)%Q →
  current_track_index au = 0 ∨ current_track_index au = 1 →
  (0 <= music_volume (handle_settings_audio a have_music (s, au) evs).2 <= 1)%Q ∧
  (current_track_index (handle_settings_audio a have_music (s, au) evs).2 = 0 ∨
   current_track_index (handle_settings_audio a have_music (s, au) evs).2 = 1) ∧
  (have_music = false →
   current_track_index (handle_settings_audio a have_music (s, au) evs).2
   = current_track_index au) ∧
  (∀ w, game_state w = s →
        game_state (handle_settings w evs)
        = (handle_settings_audio a have_music (s, au) evs).1).
Proof.
  intros Hv Ht. unfold handle_settings_audio, handle_settings.
  assert (audio_ok au) as Hok by done. clear Hv Ht.
  induction evs as [|ev evs IH] using rev_ind.
  { destruct Hok. done. }
  rewrite !foldl_snoc.
  destruct IH as (Hv & Ht & Hm & Hg).
  destruct (settings_audio_event_ok a have_music
              (foldl (settings_audio_event a have_music) (s, au) evs) ev)
    as ([Hv' Ht'] & Hm' & Hg'); [done|].
  split; [done|]. split; [done|]. split.
  - intros H. by rewrite Hm', Hm.
  - intros w Hw. rewrite foldl_snoc. apply Hg', Hg, Hw.
Qed.

Lemma settings_keep_audio_in_range_witness :
  (0 <= music_volume
          (handle_settings_audio sample_assets true (STATE_SETTINGS, initial_audio)
             (replicate 4 (MOUSEBUTTONDOWN 1 (480, 200)%Z))).2 <= 1)%Q.
Proof.
  destruct (settings_keep_audio_in_range
              sample_assets true STATE_SETTINGS initial_audio
              (replicate 4 (MOUSEBUTTONDOWN 1 (480, 200)%Z))) as (H & _).
  - vm_compute. split; discriminate.
  - by left.
  - exact H.
Defined.

(** ** The shape of the obstacle *)

Lemma handle_playing_obstacle (a : Assets) (w w' : World) (events : list Event) (dt : Q)
      p r o :
  session_at w p r o → handle_playing a w events dt = Some w' →
  ∃ p' r' o',
    session_at w' p' r' o' ∧
    (o' = Obstacle.update (Obstacle.update o dt) dt ∨
     ∃ s g, o' = (Obstacle.init a s g).1).
Proof.
  intros Hat Hw'.
  destruct (handle_playing_at a w events dt p r o Hat)
    as (w1 & w2 & w3 & r2 & o2 & _ & _ & _ & _ & _ & _ & _ & _ & Hat2 & Ho2
        & _ & Hw3 & Hhp).
  rewrite Hhp in Hw'. injection Hw' as <-.
  set (p1 := Player.update (foldl playing_event (p, game_state w) events).1 dt) in *.
  set (o1 := Obstacle.update (Obstacle.update o dt) dt) in *.
  assert (o2 = o1 ∨ ∃ s g, o2 = (Obstacle.init a s g).1) as Ho2'.
  { rewrite Ho2. destruct (passed o1); [right; by eexists _, _|by left]. }
  assert (∃ p3 r3 o3, session_at w3 p3 r3 o3 ∧
                      (o3 = o1 ∨ ∃ s g, o3 = (Obstacle.init a s g).1))
    as (p3 & r3 & o3 & Hat3 & Ho3).
  { rewrite Hw3. destruct (_ && _).
    - cbv zeta.
      pose proof (respawn_at a (set_player w2 (hit p1)) (hit p1) r2 o2) as Hre.
      destruct Hre as (H1 & H2 & H3 & H4).
      { destruct Hat2 as (?&?&?&?). done. }
      eexists _, _, _. split.
      + destruct (Player.health (hit p1) <=? 0); repeat split; eassumption.
      + right. by eexists _, _.
    - by exists p1, r2, o2. }
  exists p3, r3, o3. split; [by apply draw_hud_at|done].
Qed.

(** A property of obstacles that holds of every new obstacle and is
    kept by [update(dt)] holds of the tracked obstacle of every world
    the main loop reaches. *)
Lemma reachable_obstacle_invariant (a : Assets) (Q : Obstacle.t → Prop) :
  (∀ s g, Q (Obstacle.init a s g).1) →
  (∀ o dt, Q o → Q (Obstacle.update o dt)) →
  ∀ w r o, reachable a w → obstacle w = Some r → sprites w !! r = Some o → Q o.
Proof.
  intros Hinit Hupd w r o Hr. revert r o. revert w Hr.
  apply (reachable_invariant a
           (λ w, ∀ r o, obstacle w = Some r → sprites w !! r = Some o → Q o));
    try done.
  - intros w _ r o. destruct (reset_game_fields a w) as (_&_&_&_&_&_&(_ & -> & _ & Ho)).
    intros [= <-]. rewrite Ho. intros [= <-]. apply Hinit.
  - intros w events dt w' Hal HP Hw' r' o' Hr' Ho'.
    destruct (session_of_alive a w Hal) as (p & r & o & Hat & _).
    pose proof Hat as (_ & Hr & _ & Ho).
    destruct (handle_playing_obstacle a w w' events dt p r o Hat Hw')
      as (p2 & r2 & o2 & (_ & Hr2 & _ & Ho2) & Hcases).
    assert (r2 = r') as -> by congruence. assert (o2 = o') as -> by congruence.
    destruct Hcases as [->|(s & g & ->)]; [|apply Hinit].
    apply Hupd, Hupd, (HP r o Hr Ho).
Qed.

Lemma images_or_placeholder_nonempty (l : list Surface) :
  Obstacle.images_or_placeholder l ≠ [].
Proof. by destruct l. Qed.

Lemma obstacle_init_shape (a : Assets) (s : Q) (g : Rng) :
  obstacle_shape a (Obstacle.init a s g).1.
Proof.
  pose proof (images_or_placeholder_nonempty (loaded_obstacle_images a)) as Hne.
  unfold obstacle_shape, Obstacle.init, choice, randbelow.
  destruct g as [|k g]; cbn [fst]; unfold get_rect, Rect.of_floats;
    cbn [Obstacle.rect Obstacle.image Obstacle.mask Obstacle.x Obstacle.y
         Rect.x Rect.y Rect.w Rect.h];
    rewrite !py_int_inject_Z; (split; [|repeat split; lia]).
  - rewrite <- (Nat.Div0.mod_0_l (length (Obstacle.images_or_placeholder
                                             (loaded_obstacle_images a)))) at 1.
    by apply nth_mod_in.
  - by apply nth_mod_in.
Qed.

Lemma obstacle_update_shape (a : Assets) (o : Obstacle.t) (dt : Q) :
  obstacle_shape a o → obstacle_shape a (Obstacle.update o dt).
Proof. unfold obstacle_shape, Obstacle.update. cbn. tauto. Qed.

(** X20.  The obstacle keeps its shape.  The tracked obstacle of every
    world the main loop reaches shows one of the loaded obstacle images
    (or the placeholder), has the mask of that image and a rectangle of
    its size whose left edge is [int(x)], and stands on the bottom edge
    of the screen. *)
Theorem obstacle_keeps_its_shape (a : Assets) (w : World) (r : nat) (o : Obstacle.t) :
  reachable a w → obstacle w = Some r → sprites w !! r = Some o →
  Obstacle.image o ∈ Obstacle.images_or_placeholder (loaded_obstacle_images a) ∧
  Obstacle.mask o = from_surface (Obstacle.image o) ∧
  Rect.x (Obstacle.rect o) = py_int (Obstacle.x o) ∧
  Rect.w (Obstacle.rect o) = get_width (Obstacle.image o) ∧
  Rect.h (Obstacle.rect o) = get_height (Obstacle.image o) ∧
  Rect.y (Obstacle.rect o) + Rect.h (Obstacle.rect o) = GAME_HEIGHT.
Proof.
  intros Hr Hob Ho.
  pose proof (reachable_obstacle_invariant a (obstacle_shape a)
                (obstacle_init_shape a) (obstacle_update_shape a) w r o Hr Hob Ho)
    as (H1 & H2 & H3 & H4 & H5 & H6 & H7).
  repeat (split; [done|]). lia.
Qed.

Lemma obstacle_keeps_its_shape_witness :
  Rect.x (Obstacle.rect (obstacle_after one_hit))
  = py_int (Obstacle.x (obstacle_after one_hit)) ∧
  Rect.y (Obstacle.rect (obstacle_after one_hit))
  + Rect.h (Obstacle.rect (obstacle_after one_hit)) = GAME_HEIGHT.
Proof.
  destruct (obstacle_keeps_its_shape sample_assets (world_after one_hit) 1%nat
                                     (obstacle_after one_hit))
    as (_ & _ & H1 & _ & _ & H2).
  - exists [1; 2; 3]%nat, one_hit. vm_compute. reflexivity.
  - vm_compute. reflexivity.
  - vm_compute. reflexivity.
  - split; [exact H1|exact H2].
Defined.

(** ** The shape of the player *)

Lemma init_shape (a : Assets) :
  player_shape a (Player.set_invincibility_frame (Player.init a) 0).
Proof.
  destruct (sprite_lists_nonempty a) as [Hn1 _].
  unfold player_shape, Player.init, Player.frame_index.
  destruct (Player.sprite_lists a) as [rs js]. cbn in *.
  rewrite !py_int_inject_Z, py_round_inject_Z. repeat split; try done.
  destruct rs as [|s rs]; [done|].
  replace (Z.to_nat _) with 0%nat; [done|].
  cbn [length]. change (py_int 0) with 0. lia.
Qed.

Lemma jump_shape (a : Assets) (p : Player.t) :
  player_shape a p → player_shape a (Player.jump p).
Proof. unfold player_shape, Player.jump, Player.frame_index. by destruct (Player.action p). Qed.

Lemma hit_shape (a : Assets) (p : Player.t) : player_shape a p → player_shape a (hit p).
Proof. done. Qed.

Lemma update_shape (a : Assets) (p : Player.t) (dt : Q) :
  player_ok a p → player_shape a p → player_shape a (Player.update p dt).
Proof.
  intros (_ & _ & Hrs & Hjs & _) (Hy & Hw & Hh & Hm & Hne & Him).
  destruct (sprite_lists_nonempty a) as [Hn1 Hn2].
  assert (Player.running_sprites p ≠ []) as Hr by congruence.
  assert (Player.jumping_sprites p ≠ []) as Hj by congruence.
  rewrite update_unfold by done.
  destruct (update_physics_fields p) as (_ & _ & _ & Hrs' & Hjs' & Hrect & _).
  unfold player_shape, Player.update_invincibility, Player.update_image,
    Player.frame_index, Player.update_animation.
  destruct (Player.action (Player.update_physics p));
    cbn; destruct (0 <? _); cbn; rewrite ?Hrect, ?Hrs', ?Hjs';
    repeat split; try done.
  all: symmetry; apply nth_indep.
  all: match goal with |- (Z.to_nat (Z.max 0 (Z.min ?i (Z.of_nat (length ?l) - 1))) < _)%nat =>
         destruct l; [done|cbn [length]; lia] end.
Qed.

(** X21.  What is drawn is what collides.  For the player of every
    world the main loop reaches, the mask is the mask of the current
    image, the rectangle has its left edge at [PLAYER_START_X], its top
    at the integer [y] is rounded to, so within half a pixel of [y],
    and the size of the first running frame, and whatever [Player.draw]
    blits is that image at the top left corner of the rectangle. *)
Theorem player_drawn_as_it_collides (a : Assets) (w : World) (p : Player.t) :
  reachable a w → player w = Some p →
  Player.mask p = from_surface (Player.image p) ∧
  Rect.x (Player.rect p) = PLAYER_START_X ∧
  (Qabs (inject_Z (Rect.y (Player.rect p)) - Player.y p) <= 1 # 2)%Q ∧
  Rect.w (Player.rect p) = get_width (hd Player.dummy_surf (Player.sprite_lists a).1) ∧
  Rect.h (Player.rect p) = get_height (hd Player.dummy_surf (Player.sprite_lists a).1) ∧
  (∀ s pos, Player.draw p = Some (s, pos) →
            s = Player.image p ∧
            pos = (Rect.x (Player.rect p), Rect.y (Player.rect p))).
Proof.
  intros Hr Hp.
  assert (player_shape a p) as (Hy & Hw & Hh & Hm & Hne & Him).
  { revert w p Hr Hp. apply (reachable_player_invariant a (player_shape a)).
    - apply init_shape.
    - apply jump_shape.
    - intros p dt. apply update_shape.
    - apply hit_shape. }
  destruct (reachable_player_session a w p Hr Hp)
    as (p0 & r & o & (Hp0 & _) & _ & _ & _ & Hok).
  assert (p0 = p) as -> by congruence.
  destruct Hok as (_ & Hrx & _).
  split; [done|]. split; [done|]. split; [rewrite Hy; apply py_round_err|].
  split; [done|]. split; [done|].
  intros s pos. unfold Player.draw. rewrite (is_nil_false _ Hne), <- Him.
  destruct (0 <? _); [destruct (_ <? 5)|]; by intros [= <- <-].
Qed.

Lemma player_drawn_as_it_collides_witness :
  Player.mask (player_after start_and_jump)
  = from_surface (Player.image (player_after start_and_jump)) ∧
  (Qabs (inject_Z (Rect.y (Player.rect (player_after start_and_jump)))
         - Player.y (player_after start_and_jump)) <= 1 # 2)%Q.
Proof.
  destruct (player_drawn_as_it_collides sample_assets (world_after start_and_jump)
                                        (player_after start_and_jump))
    as (H1 & _ & H2 & _).
  - exists [1; 2; 3]%nat, start_and_jump. vm_compute. reflexivity.
  - vm_compute. reflexivity.
  - split; [exact H1|exact H2].
Defined.

(** ** The buttons of the settings screen *)

Lemma py_int_unique (q : Q) (z : Z) :
  0 ≤ z → (inject_Z z <= q < inject_Z z + 1)%Q → py_int q = z.
Proof.
  destruct q as [n d]. unfold py_int, Qle, Qlt. cbn. intros Hz [Hlo Hhi].
  rewrite Z.quot_div_nonneg by lia.
  symmetry. apply (Z.div_unique n (Z.pos d) z (n - Z.pos d * z)); lia.
Qed.

Lemma track_0_rect (a : Assets) :
  0 ≤ menu_font_height a →
  Settings.track_0 a = Rect.mk 300 (226 + menu_font_height a) 100 40.
Proof.
  intros Hh. unfold Settings.track_0, Rect.of_floats. f_equal.
  apply py_int_unique; [lia|].
  rewrite inject_Z_plus.
  unfold Settings.track_y, Settings.volume_y, Settings.box_y, GAME_HEIGHT, BOX_PADDING_Y.
  set (H := inject_Z (menu_font_height a)). clearbody H. unfold inject_Z, Qdiv. change (/ 2)%Q with (1 # 2)%Q. lra.
Qed.

Lemma settings_back_rect : settings_back = Rect.mk 300 285 200 50.
Proof. reflexivity. Qed.

(** X22.  Back comes first.  A click inside the Back button of the
    settings screen returns to the main menu and leaves the audio
    settings alone, also where another button lies under it; and with a
    menu font between 20 and 108 pixels high the first track button
    does reach under the Back button. *)
Theorem back_shadows_the_track_button (a : Assets) (have_music : bool)
        (st : GameState * Audio) :
  20 ≤ menu_font_height a ≤ 108 →
  (∀ pos, Rect.collidepoint settings_back pos = true →
          settings_audio_event a have_music st (MOUSEBUTTONDOWN 1 pos)
          = (STATE_MAIN_MENU, st.2)) ∧
  (∃ pos, Rect.collidepoint settings_back pos = true ∧
          Rect.collidepoint (Settings.track_0 a) pos = true).
Proof.
  intros Hh. split.
  - intros pos Hpos. unfold settings_audio_event. by rewrite Hpos.
  - exists (300, Z.max 285 (226 + menu_font_height a)).
    rewrite track_0_rect by lia. rewrite settings_back_rect.
    unfold Rect.collidepoint. cbn [Rect.x Rect.y Rect.w Rect.h fst snd].
    split; rewrite !andb_true_iff; lia.
Qed.

Lemma back_shadows_the_track_button_witness :
  ∃ pos, Rect.collidepoint settings_back pos = true ∧
         Rect.collidepoint (Settings.track_0 sample_assets) pos = true.
Proof.
  destruct (back_shadows_the_track_button sample_assets true
              (STATE_SETTINGS, initial_audio)) as [_ H].
  - vm_compute. split; discriminate.
  - exact H.
Defined.

(** ** Pausing *)

Lemma playing_events_escape (events : list Event) (p : Player.t) (gs : GameState) :
  existsb is_escape events = true →
  (foldl playing_event (p, gs) events).2 = STATE_PAUSED.
Proof.
  induction events as [|ev events IH] using rev_ind; [done|].
  rewrite existsb_app, foldl_snoc. cbn [existsb]. rewrite orb_false_r.
  intros [H|H]%orb_true_iff.
  - specialize (IH H). destruct ev as [|[]|b pos|]; done.
  - destruct ev as [|[]|b pos|]; done.
Qed.

(** X23.  Escape pauses after the frame.  A playing frame that holds an
    Escape key press still runs its updates and its collision check:
    the player it leaves is the updated one, possibly hit, and the game
    is paused afterwards, unless that hit was the last one, in which
    case the game is over. *)
Theorem escape_pauses_after_the_frame (a : Assets) (w : World) (p : Player.t)
        (events : list Event) (dt : Q) :
  reachable a w → game_state w = STATE_PLAYING → player w = Some p →
  existsb is_escape events = true →
  ∃ w' p',
    handle_playing a w events dt = Some w' ∧ player w' = Some p' ∧
    (p' = Player.update (foldl playing_event (p, game_state w) events).1 dt ∨
     p' = hit (Player.update (foldl playing_event (p, game_state w) events).1 dt)) ∧
    (game_state w' = STATE_PAUSED ∨
     (game_state w' = STATE_GAME_OVER ∧ Player.health p' = 0)).
Proof.
  intros Hr Hg Hp Hesc.
  pose proof (reachable_playing a w Hr Hg) as [Hs Hal].
  destruct Hs as (p0 & r & o & Hat & _ & _ & _ & Hok).
  assert (p0 = p) as -> by (destruct Hat; congruence).
  specialize (Hal p Hp).
  destruct (handle_playing_outcome a w events dt p r o Hat Hok)
    as (w' & p' & Hw' & Hp' & _ & Hout).
  rewrite (playing_events_escape events p (game_state w) Hesc) in Hout.
  exists w', p'. split; [done|]. split; [done|]. split.
  - destruct (handle_playing_player a w w' events dt p r o Hat Hw') as [H|H];
      rewrite H in Hp'; injection Hp' as <-; by auto.
  - destruct Hout as [(_ & _ & ->)|(_ & Hh & _ & ->)]; [by left|].
    destruct (Player.health p - 1 <=? 0) eqn:E; [right|by left].
    split; [done|]. lia.
Qed.

Lemma escape_pauses_after_the_frame_witness :
  ∃ w' p',
    handle_playing sample_assets (world_after start_only) [KEYDOWN K_ESCAPE] (1 # 60)
    = Some w' ∧ player w' = Some p' ∧
    (game_state w' = STATE_PAUSED ∨
     (game_state w' = STATE_GAME_OVER ∧ Player.health p' = 0)).
Proof.
  destruct (escape_pauses_after_the_frame
              sample_assets (world_after start_only) (player_after start_only)
              [KEYDOWN K_ESCAPE] (1 # 60)) as (w' & p' & H1 & H2 & _ & H3).
  - exists [1; 2; 3]%nat, start_only. vm_compute. reflexivity.
  - vm_compute. reflexivity.
  - vm_compute. reflexivity.
  - reflexivity.
  - exists w', p'. split; [exact H1|]. split; [exact H2|exact H3].
Defined.

(** ** The buttons of the other menus *)

Lemma py_int_add (q : Q) (k : Z) :
  (0 <= q)%Q → 0 ≤ k → py_int (q + inject_Z k) = py_int q + k.
Proof.
  destruct q as [n d]. unfold py_int, Qle. cbn. intros Hq Hk.
  rewrite !Z.quot_div_nonneg by nia.
  rewrite Pos.mul_1_r, Z.mul_1_r. apply Z.div_add. lia.
Qed.

Lemma inject_Z_nonneg (z : Z) : 0 ≤ z → (0 <= inject_Z z)%Q.
Proof. intros H. change 0%Q with (inject_Z 0). by rewrite <- Zle_Qle. Qed.

Ltac count_hits :=
  unfold hits, Rect.collidepoint;
  cbn [List.filter Rect.x Rect.y Rect.w Rect.h fst snd];
  repeat match goal with
         | |- context [if ?b then _ else _] => destruct b eqn:?
         end;
  cbn [length]; try lia; exfalso;
  repeat match goal with
         | H : _ && _ = true |- _ => apply andb_true_iff in H as [? ?]
         end;
  lia.

Lemma pause_button_rects (a : Assets) :
  0 ≤ title_font_height a →
  (pause_buttons a).*2 =
  [Rect.mk 300 (106 + title_font_height a) 200 50;
   Rect.mk 300 (166 + title_font_height a) 200 50;
   Rect.mk 300 (226 + title_font_height a) 200 50].
Proof.
  intros Hh. unfold pause_buttons. cbn [fmap list_fmap snd].
  unfold Rect.of_floats. change (py_int (half GAME_WIDTH - 100)) with 300.
  change (inject_Z (50 + BUTTON_SPACING_Y)) with 60%Q.
  repeat f_equal; (apply py_int_unique; [lia|]); rewrite inject_Z_plus;
    unfold GAME_HEIGHT, PAUSE_MENU_TITLE_PADDING, BOX_PADDING_Y;
    generalize (inject_Z (title_font_height a)); intros H;
    unfold inject_Z, Qdiv; change (/ 2)%Q with (1 # 2)%Q; lra.
Qed.

Lemma game_over_button_rects (a : Assets) :
  0 ≤ menu_font_height a → 0 ≤ button_font_height a →
  ∃ y, GameOver.retry a = Rect.mk 300 y 200 50 ∧
       GameOver.menu a = Rect.mk 300 (y + 60) 200 50.
Proof.
  intros Hm Hb. exists (py_int (GameOver.buttons_y a)).
  unfold GameOver.retry, GameOver.menu, Rect.of_floats.
  change (py_int (half GAME_WIDTH - 100)) with 300. split; [done|]. f_equal.
  change (50 + BUTTON_SPACING_Y) with 60. apply py_int_add; [|lia].
  unfold GameOver.buttons_y.
  pose proof (inject_Z_nonneg _ Hm) as Hm'. pose proof (inject_Z_nonneg _ Hb) as Hb'.
  revert Hm' Hb'.
  generalize (inject_Z (menu_font_height a)), (inject_Z (button_font_height a)).
  intros M B HM HB. cbv zeta.
  change (inject_Z (2 * 50 + (2 - 1) * BUTTON_SPACING_Y)) with 110%Q.
  change (inject_Z (BOX_PADDING_Y * 4)) with 80%Q.
  unfold GAME_HEIGHT, BOX_PADDING_Y, inject_Z, Qdiv. change (/ 2)%Q with (1 # 2)%Q. lra.
Qed.

(** X24.  The buttons of the main menu, of the pause menu and of the
    game-over screen do not overlap: with font heights that are not
    negative, no point lies in two buttons of one screen, so the order
    of the tests in the handlers, and the [break] of the pause menu,
    decide nothing. *)
Theorem menu_buttons_do_not_overlap (a : Assets) (pos : Z * Z) :
  0 ≤ title_font_height a → 0 ≤ menu_font_height a → 0 ≤ button_font_height a →
  (hits [MainMenu.start; MainMenu.how_to_play; MainMenu.settings; MainMenu.quit] pos
   ≤ 1)%nat ∧
  (hits (pause_buttons a).*2 pos ≤ 1)%nat ∧
  (hits [GameOver.retry a; GameOver.menu a] pos ≤ 1)%nat.
Proof.
  intros Ht Hm Hb. split; [|split].
  - destruct main_menu_rects as (-> & -> & -> & ->). count_hits.
  - rewrite (pause_button_rects a Ht). count_hits.
  - destruct (game_over_button_rects a Hm Hb) as (y & -> & ->). count_hits.
Qed.

Lemma menu_buttons_do_not_overlap_witness :
  (hits (pause_buttons sample_assets).*2 (400, 200)%Z ≤ 1)%nat.
Proof.
  destruct (menu_buttons_do_not_overlap sample_assets (400, 200)) as (_ & H & _).
  - vm_compute. discriminate.
  - vm_compute. discriminate.
  - vm_compute. discriminate.
  - exact H.
Defined.
